(** * Verification of the search core of omim: [search/search_query.cpp]

    The query object of the map search engine is embedded as explicit state
    passing over a record [Query]; the collaborators that the translation unit
    only consumes (geometry, tile index, name tries, scorer, presentation) are
    gathered in the interface [Collaborators].  The notes of the editor,
    [editor/editor_notes.cpp], follow with their XML documents and their
    file.  The file first gives the embeddings, then the lemmas and theorems
    about them. *)

From Stdlib Require Import ZArith List Bool Lia Permutation Sorted String Ascii.
From stdpp Require Import base list gmap.

Local Open Scope Z_scope.

(** ** Machine integers *)

(** [uint32_t(-1)], also [numeric_limits<uint32_t>::max()]. *)
Definition uint32_max : Z := 2 ^ 32 - 1.

(** Wrap-around of [unsigned int] arithmetic. *)
Definition to_uint32 (z : Z) : Z := z mod 2 ^ 32.

(** [static_cast<int8_t>(x)]. *)
Definition to_int8 (z : Z) : Z := (z + 128) mod 256 - 128.

(** ** The standard algorithms the translation unit calls *)

Module Std.
Section Algorithms.
Context {A : Type}.

(** [std::sort(first, last, comp)].  The standard fixes the result only up
    to the order of equivalent elements; the model is an insertion sort,
    and every lemma below uses nothing but that the result is an ordered
    permutation of the input. *)
Fixpoint insert (comp : A -> A -> bool) (x : A) (l : list A) : list A :=
  match l with
  | [] => [x]
  | y :: l' => if comp y x then y :: insert comp x l' else x :: y :: l'
  end.

Fixpoint sort (comp : A -> A -> bool) (l : list A) : list A :=
  match l with
  | [] => []
  | x :: l' => insert comp x (sort comp l')
  end.

(** [std::unique(first, last, pred)]: of every run of consecutive elements
    related by [pred] to the last element kept, only the first stays. *)
Fixpoint unique_from (pred : A -> A -> bool) (kept : A) (l : list A) : list A :=
  match l with
  | [] => []
  | x :: l' => if pred kept x then unique_from pred kept l'
               else x :: unique_from pred x l'
  end.

Definition unique (pred : A -> A -> bool) (l : list A) : list A :=
  match l with
  | [] => []
  | x :: l' => x :: unique_from pred x l'
  end.

(** [std::find_if(first, last, p) != last]. *)
Definition found (p : A -> bool) (l : list A) : bool := existsb p l.
End Algorithms.

(** [std::lower_bound] on a vector of [uint32_t]: the classic halving loop,
    [fuel] bounding the number of iterations by the length of the range. *)
Fixpoint lower_bound (fuel : nat) (v : list Z) (first count : nat) (value : Z) : nat :=
  match fuel with
  | O => first
  | S fuel' =>
      if Nat.eqb count 0 then first
      else
        let step := Nat.div count 2 in
        let it := (first + step)%nat in
        if nth it v 0 <? value
        then lower_bound fuel' v (S it) (count - S step) value
        else lower_bound fuel' v first step value
  end.

(** [std::binary_search(v.begin(), v.end(), value)]. *)
Definition binary_search (v : list Z) (value : Z) : bool :=
  let i := lower_bound (length v) v 0 (length v) value in
  Nat.ltb i (length v) && negb (value <? nth i v 0).
End Std.

(** A comparator that [std::sort] accepts: a strict weak ordering, here on
    the values that satisfy [P]. *)
Record StrictWeakOrderOn {A : Type} (P : A -> Prop) (comp : A -> A -> bool) : Prop := {
  swo_irrefl : forall x, P x -> comp x x = false;
  swo_trans : forall x y z, P x -> P y -> P z ->
      comp x y = true -> comp y z = true -> comp x z = true;
  swo_incomp : forall x y z, P x -> P y -> P z ->
      comp x y = false -> comp y x = false ->
      comp y z = false -> comp z y = false ->
      comp x z = false /\ comp z x = false
}.

Definition StrictWeakOrder {A : Type} (comp : A -> A -> bool) : Prop :=
  StrictWeakOrderOn (fun _ => True) comp.

(** The postcondition of [std::sort]: no element is less than an earlier one. *)
Definition ordered {A : Type} (comp : A -> A -> bool) (l : list A) : Prop :=
  StronglySorted (fun a b => comp b a = false) l.

(** ** Collaborators consumed through their interfaces *)

Definition UniChar : Type := Z.
Definition UniString : Type := list UniChar.

(** [feature::DataHeader::MapType]. *)
Inductive MapType : Type := world | worldcoasts | country.

Definition MapType_eqb (a b : MapType) : bool :=
  match a, b with
  | world, world | worldcoasts, worldcoasts | country, country => true
  | _, _ => false
  end.

(** [m2::PointD], [m2::RectD], the scale helpers and the covering. *)
Class Geometry : Type := {
  double : Type;
  PointD : Type;
  RectD : Type;
  (** [operator !=] on rectangles *)
  RectD_ne : RectD -> RectD -> bool;
  (** the rectangle after [Scale(3)] *)
  RectD_Scale3 : RectD -> RectD;
  IsIntersect : RectD -> RectD -> bool;
  (** [scales::GetScaleLevel] *)
  GetScaleLevel : RectD -> Z;
  (** [covering::CoveringGetter(rect, 0).Get(scale)]: the cell intervals *)
  CoveringGetter_Get : RectD -> Z -> list (Z * Z)
}.

(** String utilities, delimiters, the lat/lon literal parser and language codes. *)
Class Text `{Geometry} : Type := {
  NormalizeAndSimplifyString : string -> UniString;
  (** [strings::LastUniChar] *)
  LastUniChar : string -> UniChar;
  (** [search::Delimiters::operator()] *)
  Delimiters : UniChar -> bool;
  ToUtf8 : UniString -> string;
  (** [search::MatchLatLon]: [lat, lon, latPrec, lonPrec] on success *)
  MatchLatLon : string -> option (double * double * double * double);
  (** [StringUtf8Multilang::GetLangIndex] *)
  GetLangIndex : string -> Z;
  FeatureTypeToString : Z -> UniString
}.

(** [LangKeywordsScorer] as [Search] constructs it. *)
Record LangKeywordsScorer : Type := {
  scorer_langPriorities : list (list Z);
  scorer_keywords : list UniString;
  scorer_prefix : UniString
}.

(** Features and name tries of a tile. *)
Class TileData `{Geometry} : Type := {
  FeatureType : Type;
  (** the [(lang, name)] pairs [FeatureType::ForEachNameRef] visits, in order *)
  feature_names : FeatureType -> list (Z * string);
  TrieIterator : Type;
  (** [search::CATEGORIES_LANG] *)
  CATEGORIES_LANG : Z;
  (** [LangKeywordsScorer::Score] *)
  Score : LangKeywordsScorer -> Z -> string -> Z
}.

Section Model.
Context `{Txt : Text} `{Tiles : !TileData}.

(** [Query::TrieValueT] *)
Record TrieValueT : Type := {
  m_featureId : Z;
  m_rank : Z;
  m_pt : PointD
}.

(** An edge of the trie root: its label and the sub-trie [GoToEdge] gives. *)
Record Edge : Type := {
  m_str : list Z;
  GoToEdge : TrieIterator
}.

(** [TrieRootPrefix] *)
Definition TrieRootPrefix : Type := (TrieIterator * list Z)%type.

(** [MwmValue]: header, geometry index, search trie and features of a tile. *)
Record MwmValue : Type := {
  header_GetType : MapType;
  header_GetScaleRange : Z * Z;
  header_GetLastScale : Z;
  (** the offsets [ScaleIndex::ForEachInIntervalAndScale] hands to its
      functor for the interval [first, second) at [scale], in order *)
  ForEachInIntervalAndScale : Z -> Z -> Z -> list Z;
  (** [ReadTrie] of [SEARCH_INDEX_FILE_TAG], when that reader exists *)
  search_trie : option (list Edge);
  (** [FeaturesVector::Get] *)
  FeaturesVector_Get : Z -> FeatureType
}.

(** A tile of the index: [MwmInfo] and what [Index::MwmLock] yields. *)
Record Mwm : Type := {
  m_limitRect : RectD;
  MwmLock_GetValue : option MwmValue;
  MwmLock_GetCountryName : string
}.

Definition Index : Type := list Mwm.

(** [pair<uint32_t, size_t>]: feature offset and tile id. *)
Definition FeatureID : Type := (Z * nat)%type.

Definition FeatureID_less (a b : FeatureID) : bool :=
  (fst a <? fst b) || (negb (fst b <? fst a) && Nat.ltb (snd a) (snd b)).

Definition FeatureID_eqb (a b : FeatureID) : bool :=
  (fst a =? fst b) && Nat.eqb (snd a) (snd b).

(** [impl::PreResult1], by the arguments of its constructor. *)
Record PreResult1 : Type := {
  r1_featureId : Z;
  r1_rank : Z;
  r1_pt : PointD;
  r1_mwmID : nat;
  r1_position : PointD;
  r1_viewport : RectD
}.

Definition GetID (r : PreResult1) : FeatureID := (r1_featureId r, r1_mwmID r).

(** [impl::PreResult2], one constructor per C++ constructor. *)
Inductive PreResult2 : Type :=
| PreResult2_feature (f : FeatureType) (r : PreResult1) (name countryName : string)
| PreResult2_latlon (viewport : RectD) (position : PointD) (lat lon : double)
| PreResult2_suggest (s : string) (minLen : nat).
End Model.

(** Comparators of the result classes, the trie matcher's walk and the
    presentation of final results. *)
Class Ranking `{Txt : Text} `{Tiles : !TileData} : Type := {
  LessRank1 : PreResult1 -> PreResult1 -> bool;
  LessViewportDistance1 : PreResult1 -> PreResult1 -> bool;
  LessDistance1 : PreResult1 -> PreResult1 -> bool;
  LessRank : PreResult2 -> PreResult2 -> bool;
  LessViewportDistance : PreResult2 -> PreResult2 -> bool;
  LessDistance : PreResult2 -> PreResult2 -> bool;
  (** [StrictEqualF(a)(b)] *)
  StrictEqualF : PreResult2 -> PreResult2 -> bool;
  LessLinearTypesF : PreResult2 -> PreResult2 -> bool;
  EqualLinearTypesF : PreResult2 -> PreResult2 -> bool;
  (** the trie values whose features match all tokens and the prefix under
      the two roots, in the order the matcher reaches them *)
  TrieMatches : list (list UniString) -> UniString ->
                TrieRootPrefix -> TrieRootPrefix -> list TrieValueT;
  Result : Type;
  (** [PreResult2::GenerateFinalResult(m_pInfoGetter, m_pCategories)] *)
  GenerateFinalResult : PreResult2 -> Result
}.

(** ** The query object and the effects of a search *)

Section Search.
Context `{Rk : Ranking}.

(** [my::limited_priority_queue<impl::PreResult1, QueueCompareT>] *)
Record QueueT : Type := {
  q_maxSize : Z;
  q_compare : PreResult1 -> PreResult1 -> bool;
  q_queue : list PreResult1
}.

Definition CategoriesMapT : Type := list (UniString * Z).
Definition StringsToSuggestVectorT : Type := list (UniString * nat).

(** [search::Query].  [m_pInfoGetter] only reaches [GenerateFinalResult]. *)
Record Query : Type := {
  m_pIndex : option Index;
  m_pCategories : option CategoriesMapT;
  m_pStringsToSuggest : option StringsToSuggestVectorT;
  m_preferredLanguage : Z;
  m_viewport : RectD;
  m_viewportExtended : RectD;
  m_position : PointD;
  m_bOffsetsCacheIsValid : bool;
  m_offsetsInViewport : list (list Z);
  m_cancel : bool;
  m_rawQuery : string;
  m_uniQuery : UniString;
  m_tokens : list UniString;
  m_prefix : UniString;
  m_pKeywordsScorer : option LangKeywordsScorer;
  m_results : list QueueT
}.

Definition m_qCount : nat := 3.

(** What runs a member function: the query object, the result sink [res]
    and what the other threads do to the volatile [m_cancel]: entry [n] of
    [cancelSignals] tells whether the flag gets set before its [n]-th read. *)
Record World : Type := {
  query : Query;
  res : list Result;
  cancelSignals : list bool
}.

(** How a call ends: normally, by [Query::CancelException], or in undefined
    behaviour (null dereference, index out of range, failed assertion). *)
Inductive outcome (A : Type) : Type :=
| Done (a : A)
| CancelException
| Fault.
#[global] Arguments Done {A} a.
#[global] Arguments CancelException {A}.
#[global] Arguments Fault {A}.

Definition M (A : Type) : Type := World -> outcome A * World.

Definition ret {A} (a : A) : M A := fun w => (Done a, w).

Definition bind {A B} (m : M A) (k : A -> M B) : M B :=
  fun w =>
    match m w with
    | (Done a, w') => k a w'
    | (CancelException, w') => (CancelException, w')
    | (Fault, w') => (Fault, w')
    end.

Definition throw {A} : M A := fun w => (CancelException, w).
Definition fault {A} : M A := fun w => (Fault, w).

Definition get : M Query := fun w => (Done (query w), w).

Definition modify (f : Query -> Query) : M unit :=
  fun w => (Done tt, {| query := f (query w); res := res w;
                        cancelSignals := cancelSignals w |}).

(** [Results::AddResult] *)
Definition AddResult (r : Result) : M unit :=
  fun w => (Done tt, {| query := query w; res := res w ++ [r];
                        cancelSignals := cancelSignals w |}).

Definition set_cancel (c : bool) (q : Query) : Query :=
  {| m_pIndex := m_pIndex q; m_pCategories := m_pCategories q;
     m_pStringsToSuggest := m_pStringsToSuggest q;
     m_preferredLanguage := m_preferredLanguage q;
     m_viewport := m_viewport q; m_viewportExtended := m_viewportExtended q;
     m_position := m_position q;
     m_bOffsetsCacheIsValid := m_bOffsetsCacheIsValid q;
     m_offsetsInViewport := m_offsetsInViewport q;
     m_cancel := c;
     m_rawQuery := m_rawQuery q; m_uniQuery := m_uniQuery q;
     m_tokens := m_tokens q; m_prefix := m_prefix q;
     m_pKeywordsScorer := m_pKeywordsScorer q;
     m_results := m_results q |}.

Definition set_results (r : list QueueT) (q : Query) : Query :=
  {| m_pIndex := m_pIndex q; m_pCategories := m_pCategories q;
     m_pStringsToSuggest := m_pStringsToSuggest q;
     m_preferredLanguage := m_preferredLanguage q;
     m_viewport := m_viewport q; m_viewportExtended := m_viewportExtended q;
     m_position := m_position q;
     m_bOffsetsCacheIsValid := m_bOffsetsCacheIsValid q;
     m_offsetsInViewport := m_offsetsInViewport q;
     m_cancel := m_cancel q;
     m_rawQuery := m_rawQuery q; m_uniQuery := m_uniQuery q;
     m_tokens := m_tokens q; m_prefix := m_prefix q;
     m_pKeywordsScorer := m_pKeywordsScorer q;
     m_results := r |}.

(** A read of the volatile flag: another thread may have set it meanwhile. *)
Definition read_cancel : M bool :=
  fun w =>
    let signal := match cancelSignals w with [] => false | s :: _ => s end in
    let c := m_cancel (query w) || signal in
    (Done c, {| query := set_cancel c (query w); res := res w;
                cancelSignals := tail (cancelSignals w) |}).

(** A [for] loop over a range whose body cannot [break]. *)
Fixpoint for_each {A} (l : list A) (body : A -> M unit) : M unit :=
  match l with
  | [] => ret tt
  | x :: l' => bind (body x) (fun _ => for_each l' body)
  end.
End Search.

Notation "x <- m ;; k" := (bind m (fun x => k))
  (at level 62, m at next level, k at level 200, only parsing).
Notation "m ;;; k" := (bind m (fun _ => k))
  (at level 62, k at level 200, only parsing).

(** ** Viewport and offsets cache *)

Section Viewport.
Context `{Rk : Ranking}.

Definition set_viewport (viewport viewportExtended : RectD) (q : Query) : Query :=
  {| m_pIndex := m_pIndex q; m_pCategories := m_pCategories q;
     m_pStringsToSuggest := m_pStringsToSuggest q;
     m_preferredLanguage := m_preferredLanguage q;
     m_viewport := viewport; m_viewportExtended := viewportExtended;
     m_position := m_position q;
     m_bOffsetsCacheIsValid := m_bOffsetsCacheIsValid q;
     m_offsetsInViewport := m_offsetsInViewport q;
     m_cancel := m_cancel q;
     m_rawQuery := m_rawQuery q; m_uniQuery := m_uniQuery q;
     m_tokens := m_tokens q; m_prefix := m_prefix q;
     m_pKeywordsScorer := m_pKeywordsScorer q;
     m_results := m_results q |}.

Definition set_offsets (offsets : list (list Z)) (valid : bool) (q : Query) : Query :=
  {| m_pIndex := m_pIndex q; m_pCategories := m_pCategories q;
     m_pStringsToSuggest := m_pStringsToSuggest q;
     m_preferredLanguage := m_preferredLanguage q;
     m_viewport := m_viewport q; m_viewportExtended := m_viewportExtended q;
     m_position := m_position q;
     m_bOffsetsCacheIsValid := valid;
     m_offsetsInViewport := offsets;
     m_cancel := m_cancel q;
     m_rawQuery := m_rawQuery q; m_uniQuery := m_uniQuery q;
     m_tokens := m_tokens q; m_prefix := m_prefix q;
     m_pKeywordsScorer := m_pKeywordsScorer q;
     m_results := m_results q |}.

(** [Query::ClearCache] *)
Definition ClearCache : M unit := modify (set_offsets [] false).

(** What the loop over the cell intervals appends to the entry of a country
    tile: the offsets the geometry index reports, interval after interval. *)
Definition reported_offsets (q : Query) (pMwm : MwmValue) : list Z :=
  let viewScale := GetScaleLevel (m_viewport q) in
  let scaleR := header_GetScaleRange pMwm in
  let scale := Z.min (Z.max (viewScale + 7) (fst scaleR)) (snd scaleR) in
  let interval := CoveringGetter_Get (m_viewport q) (header_GetLastScale pMwm) in
  flat_map (fun iv => ForEachInIntervalAndScale pMwm (fst iv) (snd iv) scale) interval.

(** The body of the tile loop of [UpdateViewportOffsets]: what ends up in
    [m_offsetsInViewport[mwmId]], which [resize] left empty. *)
Definition UpdateViewportOffsets_mwm (q : Query) (mwm : Mwm) : list Z :=
  if IsIntersect (m_viewportExtended q) (m_limitRect mwm) then
    match MwmLock_GetValue mwm with
    | Some pMwm =>
        if MapType_eqb (header_GetType pMwm) country
        then Std.sort Z.ltb (reported_offsets q pMwm)
        else []
    | None => []
    end
  else [].

(** [Query::UpdateViewportOffsets] *)
Definition UpdateViewportOffsets : M unit :=
  q <- get ;;
  match m_pIndex q with
  | None => modify (set_offsets [] (m_bOffsetsCacheIsValid q)) ;;; fault
  | Some mwmInfo =>
      modify (set_offsets (map (UpdateViewportOffsets_mwm q) mwmInfo) true)
  end.

(** [Query::SetViewport] *)
Definition SetViewport (viewport : RectD) : M unit :=
  q <- get ;;
  if RectD_ne (m_viewport q) viewport || negb (m_bOffsetsCacheIsValid q) then
    modify (set_viewport viewport (RectD_Scale3 viewport)) ;;;
    UpdateViewportOffsets
  else ret tt.
End Viewport.

(** ** Candidate queues *)

Section Queues.
Context `{Rk : Ranking}.

(** Modelled from the spec: [limited_priority_queue::push], whose header is
    not part of the sources at hand.  A queue below its capacity takes the
    element; a full one displaces its current worst element when the new one
    is better under the queue's ordering.  [pop_worst] picks that worst. *)
Fixpoint pop_worst (comp : PreResult1 -> PreResult1 -> bool) (l : list PreResult1)
  : option (PreResult1 * list PreResult1) :=
  match l with
  | [] => None
  | x :: l' =>
      match pop_worst comp l' with
      | None => Some (x, [])
      | Some (w, rest) => if comp w x then Some (x, w :: rest) else Some (w, x :: rest)
      end
  end.

Definition with_queue (qu : QueueT) (l : list PreResult1) : QueueT :=
  {| q_maxSize := q_maxSize qu; q_compare := q_compare qu; q_queue := l |}.

Definition push (qu : QueueT) (t : PreResult1) : QueueT :=
  if Z.of_nat (length (q_queue qu)) <? q_maxSize qu
  then with_queue qu (q_queue qu ++ [t])
  else
    match pop_worst (q_compare qu) (q_queue qu) with
    | Some (w, rest) => if q_compare qu t w then with_queue qu (rest ++ [t]) else qu
    | None => qu
    end.

(** [limited_priority_queue::clear] *)
Definition clear (qu : QueueT) : QueueT := with_queue qu [].

Definition g_arrCompare1 : list (PreResult1 -> PreResult1 -> bool) :=
  [LessRank1; LessViewportDistance1; LessDistance1].

Definition g_arrCompare2 : list (PreResult2 -> PreResult2 -> bool) :=
  [LessRank; LessViewportDistance; LessDistance].

(** [EqualFeature(v)(r)] *)
Definition EqualFeature (v r : PreResult1) : bool := FeatureID_eqb (GetID v) (GetID r).

(** [Query::AddResultFromTrie]: the loop over [i < m_qCount] visits every
    queue of the array. *)
Definition AddResultFromTrie (val : TrieValueT) (mwmID : nat) : M unit :=
  modify (fun q =>
    let res := {| r1_featureId := m_featureId val; r1_rank := m_rank val;
                  r1_pt := m_pt val; r1_mwmID := mwmID;
                  r1_position := m_position q; r1_viewport := m_viewport q |} in
    set_results
      (map (fun qu => if Std.found (EqualFeature res) (q_queue qu) then qu
                      else push qu res)
           (m_results q))
      q).

(** [impl::FeatureLoader::operator()]; its counter only feeds the log. *)
Definition FeatureLoader (mwmID : nat) (value : TrieValueT) : M unit :=
  AddResultFromTrie value mwmID.
End Queues.

(** ** Query normalisation and suggestions *)

Section Normalizer.
Context `{Rk : Ranking}.

(** Modelled from the spec: [SplitUniString], declared in a header that is
    not part of the sources at hand.  The string is split on the delimiter
    predicate; the tokens are the maximal delimiter-free runs, in order.
    [cur] is the run read so far. *)
Fixpoint SplitUniString_from (delims : UniChar -> bool) (cur s : UniString)
  : list UniString :=
  match s with
  | [] => match cur with [] => [] | _ => [cur] end
  | c :: s' =>
      if delims c
      then match cur with
           | [] => SplitUniString_from delims [] s'
           | _ => cur :: SplitUniString_from delims [] s'
           end
      else SplitUniString_from delims (cur ++ [c]) s'
  end.

Definition SplitUniString (s : UniString) (delims : UniChar -> bool) : list UniString :=
  SplitUniString_from delims [] s.

(** The tokens and the prefix the first block of [Search] computes: split,
    then detach the last token as prefix; [cap_tokens] is the cut at 31. *)
Definition split_prefix (rawQuery : string) : list UniString * UniString :=
  let tokens := SplitUniString (NormalizeAndSimplifyString rawQuery) Delimiters in
  if negb (Nat.eqb (length tokens) 0) && negb (Delimiters (LastUniChar rawQuery))
  then (removelast tokens, List.last tokens [])
  else (tokens, []).

Definition cap_tokens (tokens : list UniString) : list UniString :=
  if Nat.ltb 31 (length tokens) then take 31 tokens else tokens.

(** The block [// Initialize.] of [Query::Search]. *)
Definition Search_Initialize (rawQuery : string) (resultsNeeded : Z) (q : Query) : Query :=
  let tp := split_prefix rawQuery in
  let tokens := cap_tokens (fst tp) in
  let prefix := snd tp in
  let langPriorities :=
    [ [m_preferredLanguage q];
      [GetLangIndex "int_name"; GetLangIndex "en"];
      [GetLangIndex "default"] ] in
  {| m_pIndex := m_pIndex q; m_pCategories := m_pCategories q;
     m_pStringsToSuggest := m_pStringsToSuggest q;
     m_preferredLanguage := m_preferredLanguage q;
     m_viewport := m_viewport q; m_viewportExtended := m_viewportExtended q;
     m_position := m_position q;
     m_bOffsetsCacheIsValid := m_bOffsetsCacheIsValid q;
     m_offsetsInViewport := m_offsetsInViewport q;
     m_cancel := false;
     m_rawQuery := rawQuery;
     m_uniQuery := NormalizeAndSimplifyString rawQuery;
     m_tokens := tokens;
     m_prefix := prefix;
     m_pKeywordsScorer :=
       Some {| scorer_langPriorities := langPriorities;
               scorer_keywords := tokens; scorer_prefix := prefix |};
     m_results :=
       map (fun comp => {| q_maxSize := to_uint32 (2 * resultsNeeded);
                           q_compare := comp; q_queue := [] |})
           g_arrCompare1 |}.

(** Modelled from the spec: [StartsWith(beg, end, begPrefix, endPrefix)] of
    a header that is not part of the sources at hand: the first range starts
    with the second one. *)
Fixpoint StartsWith (s prefix : UniString) : bool :=
  match prefix with
  | [] => true
  | p :: prefix' =>
      match s with
      | [] => false
      | c :: s' => (c =? p) && StartsWith s' prefix'
      end
  end.

(** [Query::MatchForSuggestions] *)
Definition MatchForSuggestions (token : UniString) : M unit :=
  q <- get ;;
  match m_pStringsToSuggest q with
  | None => fault
  | Some strings =>
      for_each strings (fun it =>
        let s := fst it in
        if Nat.leb (snd it) (length token) && StartsWith s token
        then AddResult (GenerateFinalResult (PreResult2_suggest (ToUtf8 s) (snd it)))
        else ret tt)
  end.

(** The target [SuggestStrings] matches against the dictionary, if any. *)
Definition suggest_target (tokens : list UniString) (prefix : UniString)
  : option UniString :=
  match tokens with
  | [] => match prefix with [] => None | _ => Some prefix end
  | [token0] =>
      Some (match prefix with
            | [] => token0
            | _ => token0 ++ [32] ++ prefix
            end)
  | _ => None
  end.

(** [Query::SuggestStrings] *)
Definition SuggestStrings : M unit :=
  q <- get ;;
  match m_pStringsToSuggest q with
  | Some _ =>
      match suggest_target (m_tokens q) (m_prefix q) with
      | Some target => MatchForSuggestions target
      | None => ret tt
      end
  | None => ret tt
  end.
End Normalizer.

(** ** Feature matching *)

Section Matching.
Context `{Rk : Ranking}.

(** [FeaturesFilter::operator()] of a filter built from [offsets] and
    [alwaysTrue] and holding a reference to [m_cancel]. *)
Definition FeaturesFilter (offsets : list Z) (alwaysTrue : bool) (offset : Z) : M bool :=
  c <- read_cancel ;;
  if c then throw
  else ret (alwaysTrue || Std.binary_search offsets offset).

(** Modelled from the spec: [MatchFeaturesInTrie], whose header is not part
    of the sources at hand.  Every feature offset the walk reaches is passed
    through the filter, and on admission the value is handed to the emitter. *)
Definition MatchFeaturesInTrie (tokens : list (list UniString)) (prefix : UniString)
    (langRoot catRoot : TrieRootPrefix)
    (filter : Z -> M bool) (toDo : TrieValueT -> M unit) : M unit :=
  for_each (TrieMatches tokens prefix langRoot catRoot) (fun v =>
    pass <- filter (m_featureId v) ;;
    if pass then toDo v else ret tt).

(** The loop of [SearchFeatures] that looks for the categories edge. *)
Fixpoint find_categories (edges : list Edge) : M (option TrieRootPrefix) :=
  match edges with
  | [] => ret None
  | e :: edges' =>
      match m_str e with
      | [] => fault
      | c :: _ =>
          if c =? CATEGORIES_LANG then ret (Some (GoToEdge e, m_str e))
          else find_categories edges'
      end
  end.

(** The filter [SearchFeatures] builds for tile [mwmId] with header [pMwm]. *)
Definition SearchFeatures_filter (q : Query) (mwmId : nat) (pMwm : MwmValue)
  : option (Z -> M bool) :=
  let isWorld := MapType_eqb (header_GetType pMwm) world in
  match m_offsetsInViewport q !! mwmId with
  | Some offsets => Some (FeaturesFilter offsets isWorld)
  | None => None
  end.

(** The body of the tile loop of [SearchFeatures(tokens, mwmInfo, langs,
    onlyInViewport)]. *)
Definition SearchFeatures_mwm (tokens : list (list UniString)) (langs : list Z)
    (onlyInViewport : bool) (mwmId : nat) (mwm : Mwm) : M unit :=
  q <- get ;;
  if negb onlyInViewport || IsIntersect (m_viewportExtended q) (m_limitRect mwm) then
    match MwmLock_GetValue mwm with
    | Some pMwm =>
        match search_trie pMwm with
        | Some m_edge =>
            pCategoriesRoot <- find_categories m_edge ;;
            for_each m_edge (fun e =>
              match m_str e with
              | [] => fault
              | c :: _ =>
                  if (c <? CATEGORIES_LANG) && existsb (Z.eqb (to_int8 c)) langs then
                    match pCategoriesRoot, SearchFeatures_filter q mwmId pMwm with
                    | Some catRoot, Some filter =>
                        MatchFeaturesInTrie tokens (m_prefix q)
                          (GoToEdge e, m_str e) catRoot filter (FeatureLoader mwmId)
                    | _, _ => fault
                    end
                  else ret tt
              end)
        | None => ret tt
        end
    | None => ret tt
    end
  else ret tt.

Fixpoint SearchFeatures_from (tokens : list (list UniString)) (langs : list Z)
    (onlyInViewport : bool) (mwmId : nat) (mwmInfo : list Mwm) : M unit :=
  match mwmInfo with
  | [] => ret tt
  | mwm :: rest =>
      SearchFeatures_mwm tokens langs onlyInViewport mwmId mwm ;;;
      SearchFeatures_from tokens langs onlyInViewport (S mwmId) rest
  end.

(** [Query::SearchFeatures(tokens, mwmInfo, langs, onlyInViewport)] *)
Definition SearchFeatures_in (tokens : list (list UniString)) (mwmInfo : list Mwm)
    (langs : list Z) (onlyInViewport : bool) : M unit :=
  SearchFeatures_from tokens langs onlyInViewport 0 mwmInfo.

(** [CategoriesMapT::equal_range] *)
Definition equal_range (cats : CategoriesMapT) (token : UniString) : list Z :=
  map snd (List.filter (fun kv => bool_decide (fst kv = token)) cats).

(** [Query::SearchFeatures()] *)
Definition SearchFeatures : M unit :=
  q <- get ;;
  match m_pIndex q with
  | None => ret tt
  | Some mwmInfo =>
      let tokens :=
        map (fun t => t ::
               match m_pCategories q with
               | Some cats => map FeatureTypeToString (equal_range cats t)
               | None => []
               end)
            (m_tokens q) in
      let langs := [ m_preferredLanguage q; GetLangIndex "int_name";
                     GetLangIndex "en"; GetLangIndex "default" ] in
      SearchFeatures_in tokens mwmInfo langs true
  end.
End Matching.

(** ** Promotion of candidates *)

Section Promotion.
Context `{Rk : Ranking}.

(** [impl::BestNameFinder::operator()] on the referenced pair
    [(m_penalty, m_name)]; the functor always answers [true]. *)
Definition BestNameFinder (sc : LangKeywordsScorer) (best : Z * string)
    (lang : Z) (name : string) : bool * (Z * string) :=
  let penalty := Score sc lang name in
  if penalty <? fst best then (true, (penalty, name)) else (true, best).

(** Modelled from the spec: [FeatureType::ForEachNameRef], whose header is
    not part of the sources at hand: all name variants are visited in order
    for as long as the functor answers [true]. *)
Fixpoint ForEachNameRef {S : Type} (names : list (Z * string))
    (fn : S -> Z -> string -> bool * S) (s : S) : bool * S :=
  match names with
  | [] => (true, s)
  | (lang, name) :: names' =>
      match fn s lang name with
      | (true, s') => ForEachNameRef names' fn s'
      | (false, s') => (false, s')
      end
  end.

(** [Query::GetBestMatchName]: [penalty] and [name] are references; the
    finder's constructor overwrites the penalty, [name] enters as the caller
    left it.  The result is their final content. *)
Definition GetBestMatchName (sc : LangKeywordsScorer) (f : FeatureType) (name : string)
  : Z * string :=
  snd (ForEachNameRef (feature_names f) (BestNameFinder sc) (uint32_max, name)).
End Promotion.

(** ** Ranking and emission *)

Section Flush.
Context `{Rk : Ranking}.

(** [numeric_limits<size_t>::max()] *)
Definition size_t_max : Z := 2 ^ 64 - 1.

(** [IndexedValue]: the rank positions [m_ind] and the candidate [*m_val]. *)
Record IndexedValue : Type := {
  m_ind : list Z;
  m_val : PreResult2
}.

Definition IndexedValue_ctor (v : PreResult2) : IndexedValue :=
  {| m_ind := replicate m_qCount size_t_max; m_val := v |}.

Definition SetIndex (i : nat) (v : Z) (x : IndexedValue) : IndexedValue :=
  {| m_ind := <[i := v]> (m_ind x); m_val := m_val x |}.

Definition SortIndex (x : IndexedValue) : IndexedValue :=
  {| m_ind := Std.sort Z.ltb (m_ind x); m_val := m_val x |}.

(** The loop of [IndexedValue::operator<] over two index arrays. *)
Fixpoint ind_less (a b : list Z) : bool :=
  match a, b with
  | x :: a', y :: b' => if negb (x =? y) then x <? y else ind_less a' b'
  | _, _ => false
  end.

Definition IndexedValue_less (l r : IndexedValue) : bool := ind_less (m_ind l) (m_ind r).

(** [LessByFeatureID] *)
Definition LessByFeatureID (r1 r2 : PreResult1) : bool :=
  FeatureID_less (GetID r1) (GetID r2).

(** [set<impl::PreResult1, LessByFeatureID>::insert]: the set is kept in
    ascending order and an element with an equivalent key is not replaced. *)
Fixpoint set_insert (x : PreResult1) (s : list PreResult1) : list PreResult1 :=
  match s with
  | [] => [x]
  | y :: s' =>
      if LessByFeatureID x y then x :: y :: s'
      else if LessByFeatureID y x then y :: set_insert x s'
      else y :: s'
  end.

(** [theSet] after the loop over the queues. *)
Definition make_theSet (results : list QueueT) : list PreResult1 :=
  fold_left (fun theSet qu => fold_left (fun s x => set_insert x s) (q_queue qu) theSet)
            results [].

(** [impl::PreResult2Maker::operator()].  [m_features] maps a tile id to its
    features accessor, [None] standing for the null pointer; the accessor of
    a tile is the [MwmValue] it reads from. *)
Definition PreResult2Maker (m_mwmInfo : list Mwm)
    (m_features : gmap nat (option MwmValue)) (r : PreResult1)
  : M (option PreResult2 * gmap nat (option MwmValue)) :=
  let id := GetID r in
  let found := match m_features !! snd id with Some v => v | None => None end in
  let '(iF_second, countryName) :=
    match found with
    | Some v => (Some v, EmptyString)
    | None =>
        match m_mwmInfo !! snd id with
        | Some mwm =>
            match MwmLock_GetValue mwm with
            | Some pMwm =>
                (Some pMwm,
                 if MapType_eqb (header_GetType pMwm) world then EmptyString
                 else MwmLock_GetCountryName mwm)
            | None => (None, MwmLock_GetCountryName mwm)
            end
        | None => (None, EmptyString)
        end
    end in
  let m_features' := <[snd id := iF_second]> m_features in
  match iF_second with
  | None => ret (None, m_features')
  | Some v =>
      let feature := FeaturesVector_Get v (fst id) in
      q <- get ;;
      match m_pKeywordsScorer q with
      | None => fault
      | Some sc =>
          let name := snd (GetBestMatchName sc feature EmptyString) in
          ret (Some (PreResult2_feature feature r name countryName), m_features')
      end
  end.

(** The loop [// make PreResult2 vector] of [FlushResults]. *)
Fixpoint make_indV (m_mwmInfo : list Mwm) (theSet : list PreResult1)
    (m_features : gmap nat (option MwmValue)) (indV : list IndexedValue)
  : M (list IndexedValue) :=
  match theSet with
  | [] => ret indV
  | r :: theSet' =>
      made <- PreResult2Maker m_mwmInfo m_features r ;;
      match made with
      | (None, m_features') => make_indV m_mwmInfo theSet' m_features' indV
      | (Some res, m_features') =>
          if Std.found (fun p => StrictEqualF res (m_val p)) indV
          then make_indV m_mwmInfo theSet' m_features' indV
          else make_indV m_mwmInfo theSet' m_features'
                         (indV ++ [IndexedValue_ctor res])
      end
  end.

(** [// remove duplicating linear objects] *)
Definition remove_duplicating_linear (indV : list IndexedValue) : list IndexedValue :=
  Std.unique (fun a b => EqualLinearTypesF (m_val a) (m_val b))
             (Std.sort (fun a b => LessLinearTypesF (m_val a) (m_val b)) indV).

(** [CompareT<ResultT, RefSmartPtr> comp(g_arrCompare2[i])] *)
Definition CompareT (less : PreResult2 -> PreResult2 -> bool) (a b : IndexedValue) : bool :=
  less (m_val a) (m_val b).

(** The loop [// assign ranks] from position [j > 0] on; [prev] is
    [indV[j-1]] and [rank] the running rank. *)
Fixpoint assign_ranks_from (i : nat) (comp : IndexedValue -> IndexedValue -> bool)
    (prev : IndexedValue) (rank : Z) (indV : list IndexedValue) : list IndexedValue :=
  match indV with
  | [] => []
  | x :: indV' =>
      let rank' := if comp prev x then rank + 1 else rank in
      let x' := SetIndex i rank' x in
      x' :: assign_ranks_from i comp x' rank' indV'
  end.

Definition assign_ranks (i : nat) (comp : IndexedValue -> IndexedValue -> bool)
    (indV : list IndexedValue) : list IndexedValue :=
  match indV with
  | [] => []
  | x :: indV' =>
      let x' := SetIndex i 0 x in
      x' :: assign_ranks_from i comp x' 0 indV'
  end.

(** One turn of the loop over the criteria: sort, then assign ranks. *)
Definition rank_by (i : nat) (less : PreResult2 -> PreResult2 -> bool)
    (indV : list IndexedValue) : list IndexedValue :=
  let comp := CompareT less in
  assign_ranks i comp (Std.sort comp indV).

Fixpoint rank_by_all (i : nat) (compare2 : list (PreResult2 -> PreResult2 -> bool))
    (indV : list IndexedValue) : list IndexedValue :=
  match compare2 with
  | [] => indV
  | less :: compare2' => rank_by_all (S i) compare2' (rank_by i less indV)
  end.

(** From the candidates left by the removal of linear duplicates to the
    vector in emission order: ranks per criterion, [SortIndex] on every
    element, sort by [IndexedValue::operator<]. *)
Definition combined_order (indV : list IndexedValue) : list IndexedValue :=
  Std.sort IndexedValue_less (map SortIndex (rank_by_all 0 g_arrCompare2 indV)).

(** The loop [// emit feature results]. *)
Fixpoint emit (indV : list IndexedValue) : M unit :=
  match indV with
  | [] => ret tt
  | x :: indV' =>
      c <- read_cancel ;;
      if c then ret tt
      else AddResult (GenerateFinalResult (m_val x)) ;;; emit indV'
  end.

(** The first half of [Query::FlushResults]: the unique set of the queued
    hits, the queues cleared, the vector of promoted candidates. *)
Definition FlushResults_promote : M (list IndexedValue) :=
  q <- get ;;
  let theSet := make_theSet (m_results q) in
  modify (fun q => set_results (map clear (m_results q)) q) ;;;
  match m_pIndex q with
  | None => fault
  | Some m_mwmInfo => make_indV m_mwmInfo theSet ∅ []
  end.

(** [Query::FlushResults] *)
Definition FlushResults : M unit :=
  indV <- FlushResults_promote ;;
  emit (combined_order (remove_duplicating_linear indV)).

(** [Query::Search] after its block [// Initialize.]: the lat/lon literal
    and the stages, each behind a check of the cancel flag. *)
Definition Search_stages : M unit :=
  q <- get ;;
  match MatchLatLon (m_rawQuery q) with
  | Some (lat, lon, latPrec, lonPrec) =>
      AddResult (GenerateFinalResult
                   (PreResult2_latlon (m_viewport q) (m_position q) lat lon))
  | None => ret tt
  end ;;;
  c <- read_cancel ;;
  if c then ret tt else
  SuggestStrings ;;;
  c <- read_cancel ;;
  if c then ret tt else
  SearchFeatures ;;;
  c <- read_cancel ;;
  if c then ret tt else
  FlushResults.

(** [Query::Search] *)
Definition Search (rawQuery : string) (resultsNeeded : Z) : M unit :=
  modify (Search_Initialize rawQuery resultsNeeded) ;;;
  Search_stages.
End Flush.

(** ** Further member functions *)

Section Members.
Context `{Rk : Ranking}.

(** [Query::SetPreferredLanguage] *)
Definition SetPreferredLanguage (lang : string) : M unit :=
  modify (fun q =>
    {| m_pIndex := m_pIndex q; m_pCategories := m_pCategories q;
       m_pStringsToSuggest := m_pStringsToSuggest q;
       m_preferredLanguage := GetLangIndex lang;
       m_viewport := m_viewport q; m_viewportExtended := m_viewportExtended q;
       m_position := m_position q;
       m_bOffsetsCacheIsValid := m_bOffsetsCacheIsValid q;
       m_offsetsInViewport := m_offsetsInViewport q;
       m_cancel := m_cancel q;
       m_rawQuery := m_rawQuery q; m_uniQuery := m_uniQuery q;
       m_tokens := m_tokens q; m_prefix := m_prefix q;
       m_pKeywordsScorer := m_pKeywordsScorer q;
       m_results := m_results q |}).

(** The offsets cache, when marked valid, is the one [UpdateViewportOffsets]
    computes for the current viewport and its extension. *)
Definition cache_consistent (q : Query) : Prop :=
  m_bOffsetsCacheIsValid q = true ->
  m_viewportExtended q = RectD_Scale3 (m_viewport q) /\
  exists mwmInfo : list Mwm,
    m_pIndex q = Some mwmInfo /\
    m_offsetsInViewport q = map (UpdateViewportOffsets_mwm q) mwmInfo.
End Members.

(** ** What a member function leaves alone *)

Section Frames.
Context `{Rk : Ranking}.

(** [m] never changes the observation [f] of the world. *)
Definition stable {S A : Type} (f : World -> S) (m : M A) : Prop :=
  forall w, f (snd (m w)) = f w.

(** [m] keeps the property [P] of the world, however it ends. *)
Definition keeps {A : Type} (P : World -> Prop) (m : M A) : Prop :=
  forall w, P w -> P (snd (m w)).

(** The query object without its queues and its cancel flag. *)
Definition query_core (w : World) : Query :=
  set_results [] (set_cancel false (query w)).

(** The result sink and the cancel flag with the pending signals. *)
Definition sink_and_cancel (w : World) : list Result * list bool * bool :=
  (res w, cancelSignals w, m_cancel (query w)).
End Frames.

(** ** Triples over the effects *)

Section Triples.
Context `{Rk : Ranking}.

(** A postcondition by the way a call ends. *)
Definition post {A : Type} (Qd : A -> World -> Prop) (Qc Qf : World -> Prop)
    (o : outcome A) (w : World) : Prop :=
  match o with
  | Done a => Qd a w
  | CancelException => Qc w
  | Fault => Qf w
  end.

(** From a world with [P], [m] ends normally with [Qd], by the cancel
    exception with [Qc], in undefined behaviour with [Qf]. *)
Definition hoare {A : Type} (P : World -> Prop) (m : M A)
    (Qd : A -> World -> Prop) (Qc Qf : World -> Prop) : Prop :=
  forall w, P w -> post Qd Qc Qf (fst (m w)) (snd (m w)).

(** The tile [mwmId] is searched and its filter lets [offset] through:
    the tile meets the extended viewport, can be locked and has a search
    index, and it is a world tile or the binary search finds the offset in
    the tile's cache entry. *)
Definition passes (q : Query) (mwmId : nat) (offset : Z) : Prop :=
  exists (mwmInfo : list Mwm) mwm pMwm offsets,
    m_pIndex q = Some mwmInfo /\
    mwmInfo !! mwmId = Some mwm /\
    IsIntersect (m_viewportExtended q) (m_limitRect mwm) = true /\
    MwmLock_GetValue mwm = Some pMwm /\
    search_trie pMwm <> None /\
    m_offsetsInViewport q !! mwmId = Some offsets /\
    (header_GetType pMwm = world \/ Std.binary_search offsets offset = true).

(** The tries of the index keep what [SearchFeatures] asserts: no edge of a
    root has an empty label, and every root has a categories edge. *)
Definition tries_well_formed (mwmInfo : list Mwm) : Prop :=
  forall mwm pMwm edges,
    In mwm mwmInfo -> MwmLock_GetValue mwm = Some pMwm ->
    search_trie pMwm = Some edges ->
    Forall (fun e => m_str e <> []) edges /\
    Exists (fun e => head (m_str e) = Some CATEGORIES_LANG) edges.

(** What [Search] needs of the query object to stay clear of undefined
    behaviour: an index, a cache entry for every tile, well-formed tries. *)
Definition searchable (q : Query) : Prop :=
  exists mwmInfo : list Mwm,
    m_pIndex q = Some mwmInfo /\
    length (m_offsetsInViewport q) = length mwmInfo /\
    tries_well_formed mwmInfo.
End Triples.

(** ** Hits the viewport lets through *)

Section Admission.
Context `{Rk : Ranking}.

(** The hit [r] belongs to a tile of the index that meets the extended
    viewport and can be locked, and the tile is a world tile, or a country
    tile whose geometry index reports the hit's feature for the viewport. *)
Definition within_viewport (q : Query) (r : PreResult1) : Prop :=
  exists (mwmInfo : list Mwm) mwm pMwm,
    m_pIndex q = Some mwmInfo /\
    mwmInfo !! r1_mwmID r = Some mwm /\
    IsIntersect (m_viewportExtended q) (m_limitRect mwm) = true /\
    MwmLock_GetValue mwm = Some pMwm /\
    (header_GetType pMwm = world \/
     (header_GetType pMwm = country /\
      In (r1_featureId r) (reported_offsets q pMwm))).
End Admission.

(** ** Vocabulary of the statements *)

Section Vocabulary.
Context `{Rk : Ranking}.

(** Every [IndexedValue] holds an array of [m_qCount] rank positions. *)
Definition well_formed (l : list IndexedValue) : Prop :=
  Forall (fun x => length (m_ind x) = m_qCount) l.

(** After the turn for criterion [i], the positions stored in slot [i]
    follow the criterion's comparator. *)
Definition Ranked (i : nat) (less : PreResult2 -> PreResult2 -> bool)
    (l : list IndexedValue) : Prop :=
  forall x y, x ∈ l -> y ∈ l ->
    exists kx ky, m_ind x !! i = Some kx /\ m_ind y !! i = Some ky /\
      (less (m_val x) (m_val y) = true -> kx < ky) /\
      (less (m_val y) (m_val x) = false -> kx <= ky).

(** Candidate [a] dominates [b]: no worse under every criterion, strictly
    better under at least one. *)
Definition dominates (a b : PreResult2) : Prop :=
  (forall less, In less g_arrCompare2 -> less b a = false) /\
  (exists less, In less g_arrCompare2 /\ less a b = true).

(** The feature id a promoted candidate was made from. *)
Definition feature_id (p : PreResult2) : option FeatureID :=
  match p with
  | PreResult2_feature _ r _ _ => Some (GetID r)
  | _ => None
  end.

(** What [Search] adds for a lat/lon literal in the raw query of [q]. *)
Definition latlon_result (q : Query) : list Result :=
  match MatchLatLon (m_rawQuery q) with
  | Some (lat, lon, _, _) =>
      [GenerateFinalResult (PreResult2_latlon (m_viewport q) (m_position q) lat lon)]
  | None => []
  end.

(** What [SuggestStrings] adds for the tokens and the prefix of [q]. *)
Definition suggestions (q : Query) : list Result :=
  match m_pStringsToSuggest q, suggest_target (m_tokens q) (m_prefix q) with
  | Some strings, Some target =>
      map (fun it => GenerateFinalResult (PreResult2_suggest (ToUtf8 (fst it)) (snd it)))
          (List.filter (fun it => Nat.leb (snd it) (length target) &&
                                  StartsWith (fst it) target) strings)
  | _, _ => []
  end.

(** The number of hits the queues of [q] hold. *)
Definition queued (q : Query) : nat :=
  list_sum (map (fun qu => length (q_queue qu)) (m_results q)).

(** Every occurrence of [a] in [l] comes before every occurrence of [b]. *)
Definition precedes {T : Type} (a b : T) (l : list T) : Prop :=
  forall i j, l !! i = Some a -> l !! j = Some b -> (i < j)%nat.
End Vocabulary.

Section QueueVocabulary.
Context `{Rk : Ranking}.

(** A queue holds every feature id at most once and no more elements than
    twice the number of results asked for. *)
Definition queue_ok (resultsNeeded : Z) (qu : QueueT) : Prop :=
  NoDup (map GetID (q_queue qu)) /\
  Z.of_nat (length (q_queue qu)) <= 2 * resultsNeeded /\
  q_maxSize qu <= 2 * resultsNeeded.

Definition queues_ok (resultsNeeded : Z) (w : World) : Prop :=
  Forall (queue_ok resultsNeeded) (m_results (query w)).

(** The world in which [Search] has run its block [// Initialize.]. *)
Definition initialized (rawQuery : string) (resultsNeeded : Z) (w : World) : World :=
  {| query := Search_Initialize rawQuery resultsNeeded (query w);
     res := res w; cancelSignals := cancelSignals w |}.

(** The flag is clear and no other thread is going to set it. *)
Definition quiet (w : World) : Prop :=
  m_cancel (query w) = false /\ Forall (fun s => s = false) (cancelSignals w).

(** The flag reads as set at the next poll. *)
Definition cancel_observed (w : World) : Prop :=
  m_cancel (query w) = true \/ head (cancelSignals w) = Some true.
End QueueVocabulary.

(** ** A small map to run the model on *)

(** Two tiles: a world tile with one city, and a country tile with a cafe
    (offset 6) and a road (offset 5) that covers two cells of the geometry
    index and so is reported once per cell interval.  Coordinates are integers, a rectangle
    is [(minX, minY, maxX, maxY)], names are ASCII. *)
Module Toy.

Definition rect_center (r : Z * Z * Z * Z) : Z * Z :=
  let '(x0, y0, x1, y1) := r in ((x0 + x1) / 2, (y0 + y1) / 2).

Definition distance (a b : Z * Z) : Z :=
  Z.abs (fst a - fst b) + Z.abs (snd a - snd b).

#[export] Instance geometry : Geometry := {|
  double := Z;
  PointD := Z * Z;
  RectD := Z * Z * Z * Z;
  RectD_ne a b := negb (bool_decide (a = b));
  RectD_Scale3 r :=
    let '(x0, y0, x1, y1) := r in
    (x0 - (x1 - x0), y0 - (y1 - y0), x1 + (x1 - x0), y1 + (y1 - y0));
  IsIntersect a b :=
    let '(ax0, ay0, ax1, ay1) := a in
    let '(bx0, by0, bx1, by1) := b in
    negb ((ax1 <? bx0) || (bx1 <? ax0) || (ay1 <? by0) || (by1 <? ay0));
  GetScaleLevel _ := 10;
  CoveringGetter_Get r _ :=
    let '(x0, y0, x1, y1) := r in
    [(x0, (x0 + x1) / 2); ((x0 + x1) / 2, x1)]
|}.

Definition codes (s : string) : UniString :=
  map (fun c => Z.of_nat (nat_of_ascii c)) (list_ascii_of_string s).

#[export] Instance text : Text := {|
  NormalizeAndSimplifyString := codes;
  LastUniChar s := List.last (codes s) 0;
  Delimiters c := (c =? 32) || (c =? 44);
  ToUtf8 u := string_of_list_ascii (map (fun c => ascii_of_nat (Z.to_nat c)) u);
  MatchLatLon _ := None;
  GetLangIndex s :=
    if String.eqb s "default" then 0
    else if String.eqb s "en" then 1
    else if String.eqb s "int_name" then 2
    else 3;
  FeatureTypeToString _ := []
|}.

(** The tier of the language in the scorer's priorities is the penalty; a
    language outside them scores the worst sentinel. *)
Definition score (sc : LangKeywordsScorer) (lang : Z) (name : string) : Z :=
  match scorer_langPriorities sc with
  | [t0; t1; t2] =>
      if existsb (Z.eqb lang) t0 then 0
      else if existsb (Z.eqb lang) t1 then 1
      else if existsb (Z.eqb lang) t2 then 2
      else uint32_max
  | _ => uint32_max
  end.

#[export] Instance tiles : TileData := {|
  FeatureType := list (Z * string);
  feature_names f := f;
  TrieIterator := list (Z * Z * (Z * Z));
  CATEGORIES_LANG := 128;
  Score := score
|}.

Definition key_rank (r : PreResult1) : Z := 255 - r1_rank r.
Definition key_viewport (r : PreResult1) : Z :=
  distance (r1_pt r) (rect_center (r1_viewport r)).
Definition key_position (r : PreResult1) : Z := distance (r1_pt r) (r1_position r).

Definition on_feature (key : PreResult1 -> Z) (p : PreResult2) : Z :=
  match p with
  | PreResult2_feature _ r _ _ => key r
  | _ => 0
  end.

#[export] Instance ranking : Ranking := {|
  LessRank1 a b := key_rank a <? key_rank b;
  LessViewportDistance1 a b := key_viewport a <? key_viewport b;
  LessDistance1 a b := key_position a <? key_position b;
  LessRank a b := on_feature key_rank a <? on_feature key_rank b;
  LessViewportDistance a b := on_feature key_viewport a <? on_feature key_viewport b;
  LessDistance a b := on_feature key_position a <? on_feature key_position b;
  StrictEqualF _ _ := false;
  LessLinearTypesF _ _ := false;
  EqualLinearTypesF _ _ := false;
  TrieMatches _ _ langRoot _ :=
    map (fun v => {| m_featureId := fst (fst v); m_rank := snd (fst v); m_pt := snd v |})
        (fst langRoot);
  Result := PreResult2;
  GenerateFinalResult p := p
|}.

Definition world_value : MwmValue := {|
  header_GetType := world;
  header_GetScaleRange := (0, 9);
  header_GetLastScale := 9;
  ForEachInIntervalAndScale _ _ _ := [];
  search_trie := Some [ {| m_str := [1]; GoToEdge := [(7, 200, (50, 50))] |};
                        {| m_str := [128]; GoToEdge := [] |} ];
  FeaturesVector_Get _ := [(1, "Capital"%string)]
|}.

(** The cells of the country tile's geometry index with their features. *)
Definition country_cells : list (Z * Z) := [(1, 5); (2, 6); (3, 5)].

Definition country_value : MwmValue := {|
  header_GetType := country;
  header_GetScaleRange := (10, 17);
  header_GetLastScale := 17;
  ForEachInIntervalAndScale first second _ :=
    map snd (List.filter (fun c => (first <=? fst c) && (fst c <? second)) country_cells);
  search_trie := Some [ {| m_str := [1]; GoToEdge := [(5, 20, (2, 2)); (6, 10, (3, 3))] |};
                        {| m_str := [128]; GoToEdge := [] |} ];
  FeaturesVector_Get offset :=
    if offset =? 5 then [(1, "Cafe Road"%string)] else [(1, "Cafe"%string); (9, "Kahvila"%string)]
|}.

Definition world_tile : Mwm :=
  {| m_limitRect := (-100, -100, 100, 100); MwmLock_GetValue := Some world_value;
     MwmLock_GetCountryName := EmptyString |}.

Definition country_tile : Mwm :=
  {| m_limitRect := (0, 0, 10, 10); MwmLock_GetValue := Some country_value;
     MwmLock_GetCountryName := "Toyland"%string |}.

Definition index : Index := [world_tile; country_tile].

(** A query object whose viewport lies off the country tile, with the cache
    built for that viewport. *)
Definition far_query : Query := {|
  m_pIndex := Some index;
  m_pCategories := None;
  m_pStringsToSuggest := Some [(codes "cafe", 3%nat)];
  m_preferredLanguage := 1;
  m_viewport := (40, 40, 44, 44);
  m_viewportExtended := (36, 36, 48, 48);
  m_position := (0, 0);
  m_bOffsetsCacheIsValid := true;
  m_offsetsInViewport := [[]; []];
  m_cancel := false;
  m_rawQuery := EmptyString;
  m_uniQuery := [];
  m_tokens := [];
  m_prefix := [];
  m_pKeywordsScorer := None;
  m_results := []
|}.

Definition far_world : World :=
  {| query := far_query; res := []; cancelSignals := [] |}.

(** The same query object after [SetViewport] on the country tile. *)
Definition near_world : World := snd (SetViewport (0, 0, 4, 4) far_world).

(** ... and with the cancel flag set before a search is entered. *)
Definition cancelled_world : World :=
  {| query := set_cancel true (query near_world); res := []; cancelSignals := [] |}.

(** ... and after its queues have been filled by the feature search for the
    query "caf". *)
Definition matched_world : World :=
  snd (SearchFeatures (initialized "caf" 10 near_world)).

Definition cafe_road : PreResult2 :=
  PreResult2_feature [(1, "Cafe Road"%string)]
    {| r1_featureId := 5; r1_rank := 20; r1_pt := (2, 2); r1_mwmID := 1;
       r1_position := (0, 0); r1_viewport := (0, 0, 4, 4) |}
    "Cafe Road" "Toyland".

Definition cafe : PreResult2 :=
  PreResult2_feature [(1, "Cafe"%string); (9, "Kahvila"%string)]
    {| r1_featureId := 6; r1_rank := 10; r1_pt := (3, 3); r1_mwmID := 1;
       r1_position := (0, 0); r1_viewport := (0, 0, 4, 4) |}
    "Cafe" "".

Definition capital : PreResult2 :=
  PreResult2_feature [(1, "Capital"%string)]
    {| r1_featureId := 7; r1_rank := 200; r1_pt := (50, 50); r1_mwmID := 0;
       r1_position := (0, 0); r1_viewport := (0, 0, 4, 4) |}
    "Capital" "".

(** The vector [FlushResults] promotes from the queues of [matched_world]. *)
Definition promoted : list IndexedValue :=
  [IndexedValue_ctor cafe_road; IndexedValue_ctor cafe; IndexedValue_ctor capital].

(** The near query object while another thread sets the flag during the
    feature search: the third read of the flag sees it. *)
Definition interrupted_world : World :=
  {| query := query near_world; res := []; cancelSignals := [false; false; true] |}.

(** A query object that was given no index. *)
Definition no_index_world : World :=
  {| query := {|
       m_pIndex := None;
       m_pCategories := None;
       m_pStringsToSuggest := Some [(codes "cafe", 3%nat)];
       m_preferredLanguage := 1;
       m_viewport := (0, 0, 4, 4);
       m_viewportExtended := (-4, -4, 8, 8);
       m_position := (0, 0);
       m_bOffsetsCacheIsValid := false;
       m_offsetsInViewport := [];
       m_cancel := false;
       m_rawQuery := EmptyString;
       m_uniQuery := [];
       m_tokens := [];
       m_prefix := [];
       m_pKeywordsScorer := None;
       m_results := []
     |};
     res := []; cancelSignals := [] |}.

(** The queued hits of the road and of the cafe. *)
Definition road_hit : PreResult1 :=
  {| r1_featureId := 5; r1_rank := 20; r1_pt := (2, 2); r1_mwmID := 1;
     r1_position := (0, 0); r1_viewport := (0, 0, 4, 4) |}.

Definition cafe_hit : PreResult1 :=
  {| r1_featureId := 6; r1_rank := 10; r1_pt := (3, 3); r1_mwmID := 1;
     r1_position := (0, 0); r1_viewport := (0, 0, 4, 4) |}.
End Toy.

(** * The notes of the editor: [editor/editor_notes.cpp]

    The notes kept for upload live in a vector and in an XML file.  The XML
    documents are the trees pugixml builds and reads; number formats, the
    XML text form, the disk and the server stay interfaces. *)

(** [pugi::xml_node]: an element with its attributes and child elements,
    both in document order. *)
#[local] Unset Elimination Schemes.
Inductive xml_node : Type :=
| Element (name : string) (attributes : list (string * string)) (children : list xml_node).
#[local] Set Elimination Schemes.

(** What the notes consume of the string utilities, of pugixml's text form
    and of the coordinate helpers. *)
Class NotesLib `{Geometry} : Type := {
  (** [strings::to_uint64] *)
  to_uint64 : string -> option Z;
  (** [strings::to_double] *)
  to_double : string -> option double;
  (** [DebugPrint(double)] *)
  DebugPrint_double : double -> string;
  (** the text [xml_attribute::operator=(unsigned int)] stores *)
  uint_as_text : Z -> string;
  (** [xml_document::load_buffer]: the children of the document when the
      buffer is well-formed *)
  load_buffer : string -> option (list xml_node);
  (** the text [xml_document::save_file(path, "  ")] writes *)
  save_text : list xml_node -> string;
  LatLon : Type;
  (** [MercatorBounds::ToLatLon] *)
  ToLatLon : double * double -> LatLon
}.

Module editor.
Section Notes.
Context `{Lib : NotesLib}.

(** [editor::Note]: the point, by its [x] and [y], and the text. *)
Record Note : Type := {
  m_point : double * double;
  m_note : string
}.

(** A [std::string] handed to pugixml by [data()] as [char const *]: the
    text up to its first NUL. *)
Fixpoint c_str (s : string) : string :=
  match s with
  | EmptyString => EmptyString
  | String c s' => if Ascii.eqb c Ascii.zero then EmptyString else String c (c_str s')
  end.

(** The calls into pugixml follow; the library is not part of the sources
    at hand, and each call is given by the behaviour its manual documents. *)

Definition node_name (n : xml_node) : string :=
  match n with Element name _ _ => name end.

Definition node_attributes (n : xml_node) : list (string * string) :=
  match n with Element _ attributes _ => attributes end.

Definition node_children (n : xml_node) : list xml_node :=
  match n with Element _ _ children => children end.

(** [xml_node::child(name)] on the document or on a node given by its
    children: the first child of that name, [None] for the null handle. *)
Definition child (children : list xml_node) (name : string) : option xml_node :=
  List.find (fun n => String.eqb (node_name n) name) children.

(** [xml_node::attribute(name)]: the first attribute of that name; a null
    node has none. *)
Definition attribute (node : option xml_node) (name : string) : option string :=
  match node with
  | Some n =>
      option_map snd (List.find (fun a => String.eqb (fst a) name) (node_attributes n))
  | None => None
  end.

(** [xml_attribute::value()]: the empty string for the null attribute. *)
Definition value (a : option string) : string :=
  match a with Some v => v | None => EmptyString end.

(** [xml_node::select_nodes(name)] with a bare name: the child elements of
    that name, in document order. *)
Definition select_nodes (node : option xml_node) (name : string) : list xml_node :=
  match node with
  | Some n => List.filter (fun c => String.eqb (node_name c) name) (node_children n)
  | None => []
  end.

(** [xml_node::append_attribute(name) = value] *)
Definition append_attribute (n : xml_node) (name text : string) : xml_node :=
  Element (node_name n) (node_attributes n ++ [(name, text)]) (node_children n).

(** [xml_node::append_child], for a child whose attributes are set. *)
Definition append_child (parent child : xml_node) : xml_node :=
  Element (node_name parent) (node_attributes parent) (node_children parent ++ [child]).

(** The loop of [LoadFromXml] over the nodes selected: [false] at the first
    node that lacks an attribute or whose coordinate does not parse; the
    notes read so far stay in [notes]. *)
Fixpoint load_nodes (nodes : list xml_node) (notes : list Note) : bool * list Note :=
  match nodes with
  | [] => (true, notes)
  | node :: nodes' =>
      match attribute (Some node) "x" with
      | None => (false, notes)
      | Some point_x =>
          match to_double point_x with
          | None => (false, notes)
          | Some x =>
              match attribute (Some node) "y" with
              | None => (false, notes)
              | Some point_y =>
                  match to_double point_y with
                  | None => (false, notes)
                  | Some y =>
                      match attribute (Some node) "text" with
                      | None => (false, notes)
                      | Some text =>
                          load_nodes nodes' (notes ++ [{| m_point := (x, y); m_note := text |}])
                      end
                  end
              end
          end
      end
  end.

(** [LoadFromXml(xml, notes, uploadedNotesCount)]: the result and the two
    references after the call. *)
Definition LoadFromXml (xml : list xml_node) (notes : list Note) (uploadedNotesCount : Z)
  : bool * list Note * Z :=
  let root := child xml "notes" in
  match to_uint64 (value (attribute root "count")) with
  | None => (false, notes, uploadedNotesCount)
  | Some notesCount =>
      let '(ok, notes') := load_nodes (select_nodes root "note") notes in
      (ok, notes', to_uint32 notesCount)
  end.

(** [SaveToXml(notes, xml, UploadedNotesCount)]: the document after the call. *)
Definition SaveToXml (notes : list Note) (xml : list xml_node) (UploadedNotesCount : Z)
  : list xml_node :=
  let root := append_attribute (Element "notes" [] []) "count" (uint_as_text UploadedNotesCount) in
  let root :=
    fold_left (fun root note =>
                 let node := Element "note" [] [] in
                 let node :=
                   append_attribute node "x" (c_str (DebugPrint_double (fst (m_point note)))) in
                 let node :=
                   append_attribute node "y" (c_str (DebugPrint_double (snd (m_point note)))) in
                 let node := append_attribute node "text" (c_str (m_note note)) in
                 append_child root node)
              notes root in
  xml ++ [root].

(** The note reads back from the attributes [SaveToXml] writes for it: its
    coordinates print and parse to themselves and its text has no NUL. *)
Definition printable (note : Note) : Prop :=
  to_double (c_str (DebugPrint_double (fst (m_point note)))) = Some (fst (m_point note)) /\
  to_double (c_str (DebugPrint_double (snd (m_point note)))) = Some (snd (m_point note)) /\
  c_str (m_note note) = m_note note.

(** The element [SaveToXml] appends for a note. *)
Definition note_element (note : Note) : xml_node :=
  Element "note"
    [ ("x"%string, c_str (DebugPrint_double (fst (m_point note))));
      ("y"%string, c_str (DebugPrint_double (snd (m_point note))));
      ("text"%string, c_str (m_note note)) ]
    [].

(** [MoveNoteVectorAtomicly]: the vector returned and what the move leaves
    in the argument. *)
Definition MoveNoteVectorAtomicly (notes : list Note) : list Note * list Note :=
  (notes, []).

(** A file as a reader finds it: with its content, or failing with
    [Reader::Exception]. *)
Inductive file : Type :=
| readable (content : string)
| unreadable.

(** How a [save_file] ends: the text written, the file not opened, or the
    writing cut short after some text. *)
Inductive save_result : Type :=
| saved
| not_opened
| cut_short (written : string).

(** The disk: the files by name, and what the next calls of [save_file] and
    of [RenameFileX] run into (nothing listed: they succeed). *)
Record Disk : Type := {
  files : string -> option file;
  save_results : list save_result;
  rename_results : list bool
}.

Definition put (name : string) (f : option file) (files : string -> option file)
  : string -> option file :=
  fun n => if String.eqb n name then f else files n.

(** [xml_document::save_file(path, "  ")], of pugixml: it returns whether
    the whole text got written; a file it could open holds what got written. *)
Definition save_file (xml : list xml_node) (path : string) (d : Disk) : bool * Disk :=
  match save_results d with
  | [] =>
      (true, {| files := put path (Some (readable (save_text xml))) (files d);
                save_results := []; rename_results := rename_results d |})
  | saved :: rest =>
      (true, {| files := put path (Some (readable (save_text xml))) (files d);
                save_results := rest; rename_results := rename_results d |})
  | not_opened :: rest =>
      (false, {| files := files d; save_results := rest;
                 rename_results := rename_results d |})
  | cut_short written :: rest =>
      (false, {| files := put path (Some (readable written)) (files d);
                 save_results := rest; rename_results := rename_results d |})
  end.

(** [my::RenameFileX], of a translation unit that is not part of the sources
    at hand, as a [rename] of the operating system: the file moves as a
    whole or not at all. *)
Definition RenameFileX (fOld fNew : string) (d : Disk) : bool * Disk :=
  let ok := match rename_results d with [] => true | r :: _ => r end in
  match files d fOld with
  | Some f =>
      if ok
      then (true, {| files := put fNew (Some f) (put fOld None (files d));
                     save_results := save_results d;
                     rename_results := tail (rename_results d) |})
      else (false, {| files := files d; save_results := save_results d;
                      rename_results := tail (rename_results d) |})
  | None =>
      (false, {| files := files d; save_results := save_results d;
                 rename_results := tail (rename_results d) |})
  end.

(** [editor::Notes], without its mutex. *)
Record Notes : Type := {
  m_fileName : string;
  m_notes : list Note;
  m_uploadedNotes : Z
}.

(** [Notes::Load]: the result and the object after the call. *)
Definition Load (n : Notes) (d : Disk) : bool * Notes :=
  match files d (m_fileName n) with
  | None => (true, n)
  | Some unreadable => (false, n)
  | Some (readable content) =>
      match load_buffer content with
      | None => (false, n)
      | Some xml =>
          let '(ok, notes, count) := LoadFromXml xml [] (m_uploadedNotes n) in
          (ok, {| m_fileName := m_fileName n; m_notes := notes; m_uploadedNotes := count |})
      end
  end.

(** [Notes::Save] *)
Definition Save (n : Notes) (d : Disk) : bool * Disk :=
  let xml := SaveToXml (m_notes n) [] (m_uploadedNotes n) in
  let tmpFileName := (m_fileName n ++ ".tmp")%string in
  let '(written, d1) := save_file xml tmpFileName d in
  if negb written then (false, d1)
  else
    let '(renamed, d2) := RenameFileX tmpFileName (m_fileName n) d1 in
    if negb renamed then (false, d2) else (true, d2).

(** [Notes::CreateNote] *)
Definition CreateNote (point : double * double) (text : string) (n : Notes) (d : Disk)
  : Notes * Disk :=
  let n' := {| m_fileName := m_fileName n;
               m_notes := m_notes n ++ [{| m_point := point; m_note := text |}];
               m_uploadedNotes := m_uploadedNotes n |} in
  (n', snd (Save n' d)).

(** The loop of the upload task: [responses] tells for each call of
    [ServerApi06::CreateNote] whether the server takes the note (nothing
    listed: it does) or the call throws [ServerApi06Exception].  The loop
    gives the counter, the notes not uploaded and the calls made. *)
Fixpoint upload_notes (notes : list Note) (responses : list bool)
    (uploaded : Z) (unuploaded : list Note) (calls : list (LatLon * string))
  : Z * list Note * list (LatLon * string) :=
  match notes with
  | [] => (uploaded, unuploaded, calls)
  | note :: notes' =>
      let calls' := calls ++ [(ToLatLon (m_point note), m_note note)] in
      let taken := match responses with [] => true | r :: _ => r end in
      if taken
      then upload_notes notes' (tail responses) (to_uint32 (uploaded + 1)) unuploaded calls'
      else upload_notes notes' (tail responses) uploaded (unuploaded ++ [note]) calls'
  end.

(** The task [Notes::Upload] launches, run with no other call in between:
    the object after the task and the calls made to the server. *)
Definition Upload_task (responses : list bool) (n : Notes)
  : Notes * list (LatLon * string) :=
  let '(notes, moved_from) := MoveNoteVectorAtomicly (m_notes n) in
  let '(uploaded, unuploaded, calls) :=
    upload_notes notes responses (m_uploadedNotes n) [] [] in
  ({| m_fileName := m_fileName n; m_notes := moved_from ++ unuploaded;
      m_uploadedNotes := uploaded |}, calls).
End Notes.
End editor.

(** A small instance for the notes.  A number is written as one character.
    The text form of a notes document is the count followed, for each note,
    by its [x], its [y], its text and a NUL; other documents have the empty
    text form. *)
Module ToyNotes.
Import Toy.

Definition one_char (z : Z) : string := String (ascii_of_nat (Z.to_nat z)) EmptyString.

Definition of_one_char (s : string) : option Z :=
  match s with
  | String c EmptyString => Some (Z.of_nat (nat_of_ascii c))
  | _ => None
  end.

Definition render_note (n : xml_node) : string :=
  match n with
  | Element _ [(_, x); (_, y); (_, text)] _ => (x ++ y ++ text ++ String Ascii.zero EmptyString)%string
  | _ => EmptyString
  end.

Definition render (xml : list xml_node) : string :=
  match xml with
  | [Element _ [(_, count)] children] =>
      (count ++ String.concat EmptyString (map render_note children))%string
  | _ => EmptyString
  end.

Fixpoint parse_notes (s : string) (cur : list ascii) (acc : list xml_node) : list xml_node :=
  match s with
  | EmptyString => acc
  | String c s' =>
      if Ascii.eqb c Ascii.zero then
        match cur with
        | x :: y :: text =>
            parse_notes s' []
              (acc ++ [Element "note" [("x"%string, String x EmptyString);
                                       ("y"%string, String y EmptyString);
                                       ("text"%string, string_of_list_ascii text)] []])
        | _ => parse_notes s' [] acc
        end
      else parse_notes s' (cur ++ [c]) acc
  end.

Definition parse (s : string) : option (list xml_node) :=
  match s with
  | EmptyString => None
  | String c rest =>
      Some [Element "notes" [("count"%string, String c EmptyString)] (parse_notes rest [] [])]
  end.

#[export] Instance notes_lib : NotesLib := {|
  to_uint64 := of_one_char;
  to_double := of_one_char;
  DebugPrint_double := one_char;
  uint_as_text := one_char;
  load_buffer := parse;
  save_text := render;
  LatLon := Z * Z;
  ToLatLon p := p
|}.

Definition tea : editor.Note := {| editor.m_point := (65, 66); editor.m_note := "tea" |}.
Definition bar : editor.Note := {| editor.m_point := (67, 68); editor.m_note := "bar" |}.

Definition empty_disk : editor.Disk :=
  {| editor.files := fun _ => None; editor.save_results := [];
     editor.rename_results := [] |}.

Definition notebook : editor.Notes :=
  {| editor.m_fileName := "notes.xml"; editor.m_notes := [tea; bar];
     editor.m_uploadedNotes := 49 |}.
End ToyNotes.

(** * Properties *)

(** ** Facts about the standard algorithms *)

Section SortFacts.
Context {A : Type} (P : A -> Prop) (comp : A -> A -> bool).
Hypothesis Hswo : StrictWeakOrderOn P comp.

Lemma swo_asym x y : P x -> P y -> comp x y = true -> comp y x = false.
Proof.
  intros Hx Hy Hxy. destruct (comp y x) eqn:Hyx; [|reflexivity].
  pose proof (swo_trans _ _ Hswo x y x Hx Hy Hx Hxy Hyx) as Hxx.
  rewrite (swo_irrefl _ _ Hswo x Hx) in Hxx. discriminate.
Qed.

Lemma swo_negtrans x y z :
  P x -> P y -> P z -> comp x y = false -> comp y z = false -> comp x z = false.
Proof.
  intros Hx Hy Hz Hxy Hyz. destruct (comp x z) eqn:Hxz; [|reflexivity].
  destruct (comp y x) eqn:Hyx.
  - rewrite (swo_trans _ _ Hswo y x z Hy Hx Hz Hyx Hxz) in Hyz. discriminate.
  - destruct (comp z y) eqn:Hzy.
    + rewrite (swo_trans _ _ Hswo x z y Hx Hz Hy Hxz Hzy) in Hxy. discriminate.
    + destruct (swo_incomp _ _ Hswo x y z Hx Hy Hz Hxy Hyx Hyz Hzy) as [Hc _].
      congruence.
Qed.

Lemma insert_Permutation x l : Permutation (Std.insert comp x l) (x :: l).
Proof.
  induction l as [|y l IH]; simpl; [reflexivity|].
  destruct (comp y x); [|reflexivity].
  rewrite IH. apply perm_swap.
Qed.

Lemma sort_Permutation l : Permutation (Std.sort comp l) l.
Proof.
  induction l as [|x l IH]; simpl; [reflexivity|].
  rewrite insert_Permutation. constructor. exact IH.
Qed.

Lemma insert_ordered x l :
  P x -> Forall P l -> ordered comp l -> ordered comp (Std.insert comp x l).
Proof.
  intros Hx HP Hl. induction Hl as [|y l Hl IH Hy]; simpl.
  - repeat constructor.
  - apply Forall_cons in HP as [HPy HPl].
    destruct (comp y x) eqn:Hyx.
    + constructor; [apply IH; assumption|].
      rewrite (insert_Permutation x l). constructor; [|exact Hy].
      apply swo_asym; assumption.
    + constructor; [constructor; assumption|].
      constructor; [exact Hyx|].
      rewrite Forall_forall in Hy, HPl |- *. intros b Hb.
      apply (swo_negtrans b y x); auto.
Qed.

Lemma sort_ordered l : Forall P l -> ordered comp (Std.sort comp l).
Proof.
  induction l as [|x l IH]; simpl; intros HP; [constructor|].
  apply Forall_cons in HP as [HPx HPl].
  apply insert_ordered; auto.
  rewrite (sort_Permutation l). exact HPl.
Qed.
End SortFacts.

Lemma ordered_lookup {A} (R : A -> A -> Prop) (l : list A) i j a b :
  StronglySorted R l -> l !! i = Some a -> l !! j = Some b -> (i < j)%nat -> R a b.
Proof.
  intros Hl. revert i j. induction Hl as [|x l Hl IH Hx]; intros i j Hi Hj Hij.
  - discriminate.
  - destruct j as [|j]; [lia|]. destruct i as [|i]; simpl in *.
    + injection Hi as <-. rewrite Forall_forall in Hx. apply Hx.
      eapply list_elem_of_lookup_2; eassumption.
    + eapply IH; eauto. lia.
Qed.

Lemma lookup_map {A B} (f : A -> B) (l : list A) i :
  map f l !! i = option_map f (l !! i).
Proof.
  revert i. induction l as [|x l IH]; intros [|i]; simpl; auto.
Qed.

(** ** Rank positions per criterion *)

Section RankFacts.
Context {Geo : Geometry} {Txt : Text} {Tiles : TileData} {Rk : Ranking}.
Variable i : nat.
Variable less : PreResult2 -> PreResult2 -> bool.
Hypothesis Hless : StrictWeakOrder less.

Let rank_rel (e1 e2 : IndexedValue) : Prop :=
  exists k1 k2, m_ind e1 !! i = Some k1 /\ m_ind e2 !! i = Some k2 /\ k1 <= k2 /\
    (less (m_val e1) (m_val e2) = true -> k1 < k2) /\
    (less (m_val e1) (m_val e2) = false -> k1 = k2) /\
    less (m_val e2) (m_val e1) = false.

Lemma CompareT_swo : StrictWeakOrder (CompareT less).
Proof.
  destruct Hless as [Hi Ht Hc]. split; unfold CompareT; intros.
  - apply Hi; exact I.
  - eapply Ht; eauto.
  - eapply Hc; eauto.
Qed.

Lemma assign_ranks_from_val comp prev rank l :
  map m_val (assign_ranks_from i comp prev rank l) = map m_val l.
Proof.
  revert prev rank. induction l as [|x l IH]; intros; simpl; [reflexivity|].
  f_equal. apply IH.
Qed.

Lemma assign_ranks_val comp l : map m_val (assign_ranks i comp l) = map m_val l.
Proof. destruct l; simpl; [reflexivity|]. f_equal. apply assign_ranks_from_val. Qed.

Lemma assign_ranks_from_elem comp prev rank l e' :
  e' ∈ assign_ranks_from i comp prev rank l ->
  exists e r, e ∈ l /\ e' = SetIndex i r e.
Proof.
  revert prev rank. induction l as [|x l IH]; intros prev rank; simpl.
  - intros H. inversion H.
  - intros H. apply elem_of_cons in H as [->|H].
    + eexists _, _. split; [left|reflexivity].
    + apply IH in H as (e & r & He & ->). exists e, r. split; [right; exact He|reflexivity].
Qed.

Lemma assign_ranks_elem comp l e' :
  e' ∈ assign_ranks i comp l -> exists e r, e ∈ l /\ e' = SetIndex i r e.
Proof.
  destruct l as [|x l]; simpl; intros H; [inversion H|].
  apply elem_of_cons in H as [->|H].
  - eexists _, _. split; [left|reflexivity].
  - apply assign_ranks_from_elem in H as (e & r & He & ->).
    exists e, r. split; [right; exact He|reflexivity].
Qed.

Lemma assign_ranks_from_spec l : forall prev rank,
  Forall (fun x => (i < length (m_ind x))%nat) l ->
  ordered (CompareT less) l ->
  Forall (fun x => less (m_val x) (m_val prev) = false) l ->
  Forall (fun e => exists k, m_ind e !! i = Some k /\ rank <= k /\
            (less (m_val prev) (m_val e) = true -> rank < k) /\
            (less (m_val prev) (m_val e) = false -> k = rank) /\
            less (m_val e) (m_val prev) = false)
         (assign_ranks_from i (CompareT less) prev rank l) /\
  StronglySorted rank_rel (assign_ranks_from i (CompareT less) prev rank l).
Proof.
  pose proof (swo_negtrans _ _ Hless) as Hnt.
  induction l as [|x l IH]; intros prev rank Hlen Hord Hprev; simpl.
  - split; constructor.
  - apply Forall_cons in Hlen as [Hlx Hlen].
    apply StronglySorted_inv in Hord as [Hord Hx].
    apply Forall_cons in Hprev as [Hpx Hprev].
    set (rank' := if CompareT less prev x then rank + 1 else rank).
    set (x' := SetIndex i rank' x).
    assert (Hx'i : m_ind x' !! i = Some rank').
    { unfold x', SetIndex; simpl. apply list_lookup_insert_eq. exact Hlx. }
    assert (Hrank : rank <= rank' /\
                    (less (m_val prev) (m_val x) = true -> rank' = rank + 1) /\
                    (less (m_val prev) (m_val x) = false -> rank' = rank)).
    { unfold rank', CompareT. destruct (less (m_val prev) (m_val x)); repeat split;
        intros; try discriminate; lia. }
    destruct Hrank as (Hle & Hinc & Hsame).
    destruct (IH x' rank' Hlen Hord) as [IHq IHs].
    { unfold CompareT in Hx. exact Hx. }
    assert (Htail : Forall (fun e => exists k, m_ind e !! i = Some k /\ rank' <= k /\
                      (less (m_val x) (m_val e) = true -> rank' < k) /\
                      (less (m_val x) (m_val e) = false -> k = rank') /\
                      less (m_val e) (m_val x) = false /\
                      less (m_val e) (m_val prev) = false)
                    (assign_ranks_from i (CompareT less) x' rank' l)).
    { rewrite Forall_forall in IHq |- *. intros e He.
      destruct (IHq e He) as (k & Hk & H1 & H2 & H3 & H4).
      exists k. repeat split; auto.
      apply assign_ranks_from_elem in He as (e0 & r & He0 & ->). simpl.
      rewrite Forall_forall in Hprev. apply Hprev. exact He0. }
    split.
    + constructor.
      * exists rank'. repeat split; auto.
        intros Hpx'. specialize (Hinc Hpx'). lia.
      * rewrite Forall_forall in Htail |- *. intros e He.
        destruct (Htail e He) as (k & Hk & H1 & H2 & H3 & H4 & H5).
        exists k. repeat split; auto; try lia.
        -- intros Hpe. destruct (less (m_val prev) (m_val x)) eqn:Hpx'.
           ++ specialize (Hinc eq_refl). lia.
           ++ specialize (Hsame eq_refl).
              destruct (less (m_val x) (m_val e)) eqn:Hxe.
              ** specialize (H2 eq_refl). lia.
              ** rewrite (Hnt (m_val prev) (m_val x) (m_val e) I I I Hpx' Hxe) in Hpe.
                 discriminate.
        -- intros Hpe.
           assert (Hpx' : less (m_val prev) (m_val x) = false).
           { apply (Hnt (m_val prev) (m_val e) (m_val x) I I I Hpe H4). }
           assert (Hxe : less (m_val x) (m_val e) = false).
           { apply (Hnt (m_val x) (m_val prev) (m_val e) I I I Hpx Hpe). }
           rewrite (H3 Hxe). auto.
    + constructor; [exact IHs|].
      rewrite Forall_forall in Htail |- *. intros e He.
      destruct (Htail e He) as (k & Hk & H1 & H2 & H3 & H4 & H5).
      exists rank', k. repeat split; auto.
      intros H. symmetry. auto.
Qed.
Lemma SetIndex_length j r x : length (m_ind (SetIndex j r x)) = length (m_ind x).
Proof. unfold SetIndex; simpl. apply length_insert. Qed.

Lemma rank_by_well_formed l : well_formed l -> well_formed (rank_by i less l).
Proof.
  unfold well_formed. rewrite !Forall_forall. intros Hl e' He'.
  apply assign_ranks_elem in He' as (e & r & He & ->).
  rewrite SetIndex_length. apply Hl.
  rewrite <- (sort_Permutation (CompareT less) l). exact He.
Qed.

Lemma rank_by_val l : Permutation (map m_val (rank_by i less l)) (map m_val l).
Proof.
  unfold rank_by. rewrite assign_ranks_val.
  apply Permutation_map, sort_Permutation.
Qed.

Lemma rank_by_elem l e' :
  e' ∈ rank_by i less l -> exists e r, e ∈ l /\ e' = SetIndex i r e.
Proof.
  intros He'. apply assign_ranks_elem in He' as (e & r & He & ->).
  exists e, r. split; [|reflexivity].
  rewrite <- (sort_Permutation (CompareT less) l). exact He.
Qed.

Lemma assign_ranks_sorted l :
  Forall (fun x => (i < length (m_ind x))%nat) l ->
  ordered (CompareT less) l ->
  StronglySorted rank_rel (assign_ranks i (CompareT less) l).
Proof.
  intros Hlen Hord. destruct l as [|x l]; simpl; [constructor|].
  apply Forall_cons in Hlen as [Hlx Hlen].
  apply StronglySorted_inv in Hord as [Hord Hx].
  destruct (assign_ranks_from_spec l (SetIndex i 0 x) 0 Hlen Hord Hx) as [Hq Hs].
  constructor; [exact Hs|].
  rewrite Forall_forall in Hq |- *. intros e He.
  destruct (Hq e He) as (k & Hk & H1 & H2 & H3 & H4).
  exists 0, k. repeat split; auto.
  - unfold SetIndex; simpl. apply list_lookup_insert_eq. exact Hlx.
  - intros Hxe. symmetry. auto.
Qed.

(** After the turn for criterion [i] the positions in slot [i] agree with
    the comparator on every pair of elements. *)
Lemma rank_by_Ranked l :
  (i < m_qCount)%nat -> well_formed l -> Ranked i less (rank_by i less l).
Proof.
  intros Hi Hwf.
  assert (Hlen : Forall (fun x => (i < length (m_ind x))%nat)
                        (Std.sort (CompareT less) l)).
  { rewrite (sort_Permutation (CompareT less) l).
    eapply Forall_impl; [exact Hwf|]. simpl. intros x ->. exact Hi. }
  assert (Hord : ordered (CompareT less) (Std.sort (CompareT less) l)).
  { apply (sort_ordered _ _ CompareT_swo). apply Forall_forall. auto. }
  pose proof (assign_ranks_sorted _ Hlen Hord) as Hs.
  pose proof (rank_by_well_formed l Hwf) as Hwf'.
  unfold rank_by in *. set (r := assign_ranks i (CompareT less) _) in *.
  intros x y Hx Hy.
  apply list_elem_of_lookup in Hx as [p Hp]. apply list_elem_of_lookup in Hy as [q Hq].
  destruct (lt_eq_lt_dec p q) as [[Hpq|Hpq]|Hpq].
  - destruct (ordered_lookup _ _ _ _ _ _ Hs Hp Hq Hpq)
      as (k1 & k2 & Hk1 & Hk2 & Hle & Hlt & Heq & Hrev).
    exists k1, k2. repeat split; auto.
  - subst q. rewrite Hp in Hq. injection Hq as <-.
    assert (Hsome : is_Some (m_ind x !! i)).
    { apply lookup_lt_is_Some. unfold well_formed in Hwf'. rewrite Forall_forall in Hwf'.
      rewrite (Hwf' x); [exact Hi|]. eapply list_elem_of_lookup_2; eauto. }
    destruct Hsome as [k Hk]. exists k, k. repeat split; auto; try lia.
    rewrite (swo_irrefl _ _ Hless (m_val x) I). discriminate.
  - destruct (ordered_lookup _ _ _ _ _ _ Hs Hq Hp Hpq)
      as (k1 & k2 & Hk1 & Hk2 & Hle & Hlt & Heq & Hrev).
    exists k2, k1. repeat split; auto.
    + rewrite Hrev. discriminate.
    + intros Hyx. rewrite (Heq Hyx). lia.
Qed.
End RankFacts.

Section RankFrame.
Context {Geo : Geometry} {Txt : Text} {Tiles : TileData} {Rk : Ranking}.

(** The turn for criterion [j] leaves the positions of another slot alone. *)
Lemma rank_by_Ranked_other i j less less' l :
  i <> j -> Ranked i less l -> Ranked i less (rank_by j less' l).
Proof.
  intros Hij HR x' y' Hx' Hy'.
  apply rank_by_elem in Hx' as (x & rx & Hx & ->).
  apply rank_by_elem in Hy' as (y & ry & Hy & ->).
  destruct (HR x y Hx Hy) as (kx & ky & Hkx & Hky & H1 & H2).
  exists kx, ky. unfold SetIndex; simpl.
  rewrite !list_lookup_insert_ne by congruence. auto.
Qed.

Lemma rank_by_all_val compare2 : forall i l,
  Permutation (map m_val (rank_by_all i compare2 l)) (map m_val l).
Proof.
  induction compare2 as [|less compare2 IH]; intros i l; simpl; [reflexivity|].
  rewrite IH. apply rank_by_val.
Qed.

Lemma rank_by_all_well_formed compare2 : forall i l,
  well_formed l -> well_formed (rank_by_all i compare2 l).
Proof.
  induction compare2 as [|less compare2 IH]; intros i l Hwf; simpl; [exact Hwf|].
  apply IH, rank_by_well_formed, Hwf.
Qed.

Lemma rank_by_all_Ranked_keep compare2 : forall j i less l,
  (i < j)%nat -> Ranked i less l -> Ranked i less (rank_by_all j compare2 l).
Proof.
  induction compare2 as [|less' compare2 IH]; intros j i less l Hij HR; simpl; [exact HR|].
  apply IH; [lia|]. apply rank_by_Ranked_other; [lia|exact HR].
Qed.

(** After all turns, slot [i + n] follows the [n]-th comparator. *)
Lemma rank_by_all_Ranked compare2 : forall i l n less,
  Forall StrictWeakOrder compare2 ->
  (i + length compare2 <= m_qCount)%nat ->
  well_formed l ->
  compare2 !! n = Some less ->
  Ranked (i + n) less (rank_by_all i compare2 l).
Proof.
  induction compare2 as [|less0 compare2 IH]; intros i l n less Hswo Hi Hwf Hn.
  - discriminate.
  - apply Forall_cons in Hswo as [Hswo0 Hswo]. simpl in Hi. simpl.
    destruct n as [|n]; simpl in Hn.
    + injection Hn as <-. rewrite Nat.add_0_r.
      apply rank_by_all_Ranked_keep; [lia|].
      apply rank_by_Ranked; [exact Hswo0|lia|exact Hwf].
    + replace (i + S n)%nat with (S i + n)%nat by lia.
      apply IH; auto; [lia|]. apply rank_by_well_formed, Hwf.
Qed.
End RankFrame.

(** ** The combined criteria *)

Lemma ind_less_irrefl a : ind_less a a = false.
Proof. induction a as [|x a IH]; simpl; [reflexivity|]. rewrite Z.eqb_refl. exact IH. Qed.

Lemma ind_less_trans a : forall b c,
  length a = length b -> length b = length c ->
  ind_less a b = true -> ind_less b c = true -> ind_less a c = true.
Proof.
  induction a as [|x a IH]; intros [|y b] [|z c] Hab Hbc; simpl; try discriminate.
  injection Hab as Hab. injection Hbc as Hbc.
  destruct (Z.eqb_spec x y), (Z.eqb_spec y z), (Z.eqb_spec x z); simpl;
    rewrite ?Z.ltb_lt; try lia; eauto.
Qed.

Lemma ind_less_incomp a : forall b,
  length a = length b -> ind_less a b = false -> ind_less b a = false -> a = b.
Proof.
  induction a as [|x a IH]; intros [|y b] Hab; simpl; try discriminate; [reflexivity|].
  injection Hab as Hab.
  destruct (Z.eqb_spec x y), (Z.eqb_spec y x); simpl; rewrite ?Z.ltb_ge; try lia.
  intros. subst y. f_equal. auto.
Qed.

Lemma sorted_triple_less x0 x1 x2 y0 y1 y2 :
  x0 <= y0 -> x1 <= y1 -> x2 <= y2 -> x0 < y0 \/ x1 < y1 \/ x2 < y2 ->
  ind_less (Std.sort Z.ltb [x0; x1; x2]) (Std.sort Z.ltb [y0; y1; y2]) = true.
Proof.
  intros H0 H1 H2 Hs. simpl.
  destruct (Z.ltb_spec x2 x1), (Z.ltb_spec x2 x0), (Z.ltb_spec x1 x0);
  destruct (Z.ltb_spec y2 y1), (Z.ltb_spec y2 y0), (Z.ltb_spec y1 y0); simpl;
  repeat match goal with
         | |- context [Z.ltb ?a ?b] => destruct (Z.ltb_spec a b); simpl
         | |- context [Z.eqb ?a ?b] => destruct (Z.eqb_spec a b); simpl
         end; try reflexivity; lia.
Qed.

Section Combined.
Context {Geo : Geometry} {Txt : Text} {Tiles : TileData} {Rk : Ranking}.

Lemma IndexedValue_less_swo :
  StrictWeakOrderOn (fun x => length (m_ind x) = m_qCount) IndexedValue_less.
Proof.
  split; unfold IndexedValue_less.
  - intros x _. apply ind_less_irrefl.
  - intros x y z Hx Hy Hz. apply ind_less_trans; congruence.
  - intros x y z Hx Hy Hz Hxy Hyx Hyz Hzy.
    rewrite (ind_less_incomp (m_ind x) (m_ind y)) by congruence.
    rewrite (ind_less_incomp (m_ind y) (m_ind z)) by congruence.
    rewrite ind_less_irrefl. auto.
Qed.

Lemma SortIndex_well_formed l : well_formed l -> well_formed (map SortIndex l).
Proof.
  unfold well_formed. intros Hl. apply Forall_map.
  eapply Forall_impl; [exact Hl|]. simpl. intros x Hx.
  rewrite (Permutation_length (sort_Permutation Z.ltb (m_ind x))). exact Hx.
Qed.

Lemma combined_order_val indV :
  Permutation (map m_val (combined_order indV)) (map m_val indV).
Proof.
  unfold combined_order. rewrite sort_Permutation, map_map.
  rewrite (map_ext (fun x => m_val (SortIndex x)) m_val) by reflexivity.
  apply rank_by_all_val.
Qed.

Lemma g_arrCompare2_swo :
  StrictWeakOrder LessRank -> StrictWeakOrder LessViewportDistance ->
  StrictWeakOrder LessDistance -> Forall StrictWeakOrder g_arrCompare2.
Proof.
  intros Hr Hv Hd. unfold g_arrCompare2.
  constructor; [exact Hr|]. constructor; [exact Hv|]. constructor; [exact Hd|].
  constructor.
Qed.

(** A dominating candidate gets the smaller sorted index array. *)
Lemma dominates_IndexedValue_less indV a0 b0 :
  Forall StrictWeakOrder g_arrCompare2 ->
  well_formed indV ->
  a0 ∈ rank_by_all 0 g_arrCompare2 indV ->
  b0 ∈ rank_by_all 0 g_arrCompare2 indV ->
  dominates (m_val a0) (m_val b0) ->
  IndexedValue_less (SortIndex a0) (SortIndex b0) = true.
Proof.
  intros Hswo Hwf Ha Hb [Hno Hstrict].
  pose proof (rank_by_all_well_formed g_arrCompare2 0 indV Hwf) as HwfR.
  assert (HR : forall n less, g_arrCompare2 !! n = Some less ->
             exists kx ky, m_ind a0 !! n = Some kx /\ m_ind b0 !! n = Some ky /\
               (less (m_val a0) (m_val b0) = true -> kx < ky) /\
               (less (m_val b0) (m_val a0) = false -> kx <= ky)).
  { intros n less Hn.
    apply (rank_by_all_Ranked g_arrCompare2 0 indV n less Hswo) in Hn;
      [|simpl; unfold m_qCount; lia|exact Hwf].
    apply Hn; assumption. }
  unfold well_formed in HwfR. rewrite Forall_forall in HwfR.
  pose proof (HwfR a0 Ha) as Hla. pose proof (HwfR b0 Hb) as Hlb.
  destruct (m_ind a0) as [|x0 [|x1 [|x2 [|]]]] eqn:Ea; try discriminate.
  destruct (m_ind b0) as [|y0 [|y1 [|y2 [|]]]] eqn:Eb; try discriminate.
  destruct (HR 0%nat _ eq_refl) as (k0 & k0' & E0 & E0' & S0 & L0).
  destruct (HR 1%nat _ eq_refl) as (k1 & k1' & E1 & E1' & S1 & L1).
  destruct (HR 2%nat _ eq_refl) as (k2 & k2' & E2 & E2' & S2 & L2).
  simpl in E0, E0', E1, E1', E2, E2'.
  injection E0 as <-. injection E0' as <-. injection E1 as <-.
  injection E1' as <-. injection E2 as <-. injection E2' as <-.
  unfold IndexedValue_less, SortIndex. simpl m_ind. rewrite Ea, Eb.
  apply sorted_triple_less.
  - apply L0, Hno. simpl; auto.
  - apply L1, Hno. simpl; auto.
  - apply L2, Hno. simpl; auto.
  - destruct Hstrict as (less & Hin & Hlt). simpl in Hin.
    destruct Hin as [<-|[<-|[<-|[]]]]; auto.
Qed.

(** In the vector in emission order a dominating candidate comes first. *)
Lemma combined_order_precedes indV A B :
  Forall StrictWeakOrder g_arrCompare2 ->
  well_formed indV ->
  dominates A B ->
  precedes A B (map m_val (combined_order indV)).
Proof.
  intros Hswo Hwf Hdom i j Hi Hj.
  rewrite lookup_map in Hi, Hj.
  destruct (combined_order indV !! i) as [a|] eqn:Ei; [|discriminate].
  destruct (combined_order indV !! j) as [b|] eqn:Ej; [|discriminate].
  simpl in Hi, Hj. injection Hi as Ha. injection Hj as Hb.
  unfold combined_order in Ei, Ej.
  set (R := rank_by_all 0 g_arrCompare2 indV) in *.
  assert (HwfS : well_formed (map SortIndex R)).
  { apply SortIndex_well_formed, rank_by_all_well_formed, Hwf. }
  pose proof (sort_ordered _ _ IndexedValue_less_swo _ HwfS) as Hord.
  assert (Hsrc : forall e, e ∈ Std.sort IndexedValue_less (map SortIndex R) ->
                 exists e0, e0 ∈ R /\ e = SortIndex e0).
  { intros e He. rewrite (sort_Permutation IndexedValue_less) in He.
    apply list_elem_of_In, in_map_iff in He as (e0 & <- & He0).
    exists e0. split; [apply list_elem_of_In; exact He0|reflexivity]. }
  destruct (Hsrc a) as (a0 & Ha0 & ->); [eapply list_elem_of_lookup_2; eauto|].
  destruct (Hsrc b) as (b0 & Hb0 & ->); [eapply list_elem_of_lookup_2; eauto|].
  simpl in Ha, Hb. subst A B.
  pose proof (dominates_IndexedValue_less indV a0 b0 Hswo Hwf Ha0 Hb0 Hdom) as Hlt.
  destruct (lt_eq_lt_dec i j) as [[Hij|Hij]|Hij]; [exact Hij| |].
  - subst j. assert (Eab : SortIndex a0 = SortIndex b0) by congruence.
    rewrite <- Eab in Hlt. unfold IndexedValue_less in Hlt.
    rewrite ind_less_irrefl in Hlt. discriminate.
  - pose proof (ordered_lookup _ _ _ _ _ _ Hord Ej Ei Hij) as Hge. simpl in Hge.
    congruence.
Qed.
End Combined.

(** ** Frame rules of the effects *)

Section FrameFacts.
Context {Geo : Geometry} {Txt : Text} {Tiles : TileData} {Rk : Ranking}.
Context {S : Type} (f : World -> S).

Lemma stable_ret {A} (a : A) : stable f (ret a).
Proof. intros w. reflexivity. Qed.

Lemma stable_throw {A} : stable f (@throw _ _ _ _ A).
Proof. intros w. reflexivity. Qed.

Lemma stable_fault {A} : stable f (@fault _ _ _ _ A).
Proof. intros w. reflexivity. Qed.

Lemma stable_get : stable f get.
Proof. intros w. reflexivity. Qed.

Lemma stable_bind {A B} (m : M A) (k : A -> M B) :
  stable f m -> (forall a, stable f (k a)) -> stable f (bind m k).
Proof.
  intros Hm Hk w. unfold bind. specialize (Hm w).
  destruct (m w) as [[a| |] w']; simpl in *; try exact Hm.
  rewrite Hk. exact Hm.
Qed.

Lemma stable_for_each {A} (l : list A) (body : A -> M unit) :
  (forall x, stable f (body x)) -> stable f (for_each l body).
Proof.
  intros Hb. induction l as [|x l IH]; simpl.
  - apply stable_ret.
  - apply stable_bind; [apply Hb|intros _; exact IH].
Qed.
End FrameFacts.

Ltac stable_step :=
  first
    [ apply stable_ret | apply stable_throw | apply stable_fault | apply stable_get
    | apply stable_for_each; intros ?
    | apply stable_bind; [|intros ?]
    | match goal with
      | |- stable _ (match ?x with _ => _ end) => destruct x
      | |- stable _ (if ?x then _ else _) => destruct x
      | |- stable _ (let (_, _) := ?x in _) => destruct x
      end
    | (intros ?; reflexivity) ].

Ltac stable_auto := repeat stable_step.

Lemma bind_Done `{Rk : Ranking} {A B} (m : M A) (k : A -> M B) w b w' :
  bind m k w = (Done b, w') ->
  exists a w1, m w = (Done a, w1) /\ k a w1 = (Done b, w').
Proof.
  unfold bind. destruct (m w) as [[a| |] w1]; intros Hk; try discriminate.
  exists a, w1. auto.
Qed.

(** ** Emission *)

Section Emission.
Context {Geo : Geometry} {Txt : Text} {Tiles : TileData} {Rk : Ranking}.

(** The emission loop appends the final results of a prefix of the vector,
    the whole vector when no cancellation is observed. *)
Lemma emit_spec indV : forall w,
  exists k w',
    emit indV w = (Done tt, w') /\
    res w' = res w ++ map (fun x => GenerateFinalResult (m_val x)) (take k indV) /\
    (m_cancel (query w) = false -> Forall (fun s => s = false) (cancelSignals w) ->
     k = length indV).
Proof.
  induction indV as [|x indV IH]; intros w.
  - exists 0%nat, w. simpl. rewrite app_nil_r. auto.
  - simpl. unfold bind at 1. unfold read_cancel. simpl.
    destruct (m_cancel (query w) || match cancelSignals w with [] => false | s :: _ => s end)
      eqn:Hc.
    + eexists 0%nat, _. split; [reflexivity|]. simpl. rewrite app_nil_r.
      split; [reflexivity|]. intros Hm Hs. rewrite Hm in Hc. simpl in Hc.
      destruct (cancelSignals w) as [|s l]; [discriminate|].
      apply Forall_cons in Hs as [-> _]. discriminate.
    + unfold bind at 1. unfold AddResult at 1. simpl.
      match goal with
      | |- context [emit indV ?w1] => destruct (IH w1) as (k & w' & Hrun & Hres & Hk)
      end.
      exists (Datatypes.S k), w'. split; [exact Hrun|]. simpl in Hres, Hk. split.
      * rewrite Hres. simpl. rewrite <- app_assoc. reflexivity.
      * intros Hm Hs. simpl. f_equal. apply Hk; [reflexivity|].
        destruct (cancelSignals w) as [|s l]; [constructor|].
        apply Forall_cons in Hs as [_ Hs]. exact Hs.
Qed.

Lemma unique_from_elem {A} (pred : A -> A -> bool) l : forall kept x,
  x ∈ Std.unique_from pred kept l -> x ∈ l.
Proof.
  induction l as [|y l IH]; intros kept x; simpl; [auto|].
  destruct (pred kept y).
  - intros Hx. right. eapply IH, Hx.
  - intros Hx. apply elem_of_cons in Hx as [->|Hx]; [left|right; eapply IH, Hx].
Qed.

Lemma unique_elem {A} (pred : A -> A -> bool) l x : x ∈ Std.unique pred l -> x ∈ l.
Proof.
  destruct l as [|y l]; simpl; [auto|].
  intros Hx. apply elem_of_cons in Hx as [->|Hx]; [left|right; eapply unique_from_elem, Hx].
Qed.

Lemma remove_duplicating_linear_well_formed indV :
  well_formed indV -> well_formed (remove_duplicating_linear indV).
Proof.
  unfold well_formed. rewrite !Forall_forall. intros Hwf x Hx.
  apply unique_elem in Hx. rewrite sort_Permutation in Hx. auto.
Qed.

Lemma PreResult2Maker_sink m_mwmInfo m_features r :
  stable sink_and_cancel (PreResult2Maker m_mwmInfo m_features r).
Proof. unfold PreResult2Maker. stable_auto. Qed.

Lemma make_indV_sink m_mwmInfo theSet : forall m_features indV,
  stable sink_and_cancel (make_indV m_mwmInfo theSet m_features indV).
Proof.
  induction theSet as [|r theSet IH]; intros m_features indV; simpl.
  - apply stable_ret.
  - apply stable_bind; [apply PreResult2Maker_sink|].
    intros [[res|] mf]; [destruct (Std.found _ indV)|]; apply IH.
Qed.

Lemma FlushResults_promote_sink : stable sink_and_cancel FlushResults_promote.
Proof.
  unfold FlushResults_promote. apply stable_bind; [apply stable_get|]. intros q.
  apply stable_bind; [intros w; reflexivity|]. intros _.
  destruct (m_pIndex q); [apply make_indV_sink|apply stable_fault].
Qed.

Lemma make_indV_well_formed m_mwmInfo theSet : forall m_features indV0 w indV w1,
  well_formed indV0 ->
  make_indV m_mwmInfo theSet m_features indV0 w = (Done indV, w1) ->
  well_formed indV.
Proof.
  induction theSet as [|r theSet IH]; intros m_features indV0 w indV w1 Hwf; simpl.
  - unfold ret. intros [= <- _]. exact Hwf.
  - intros Hrun. apply bind_Done in Hrun as ([[res|] mf] & w2 & _ & Hk).
    + destruct (Std.found _ indV0); eapply IH; try exact Hk; [exact Hwf|].
      unfold well_formed. apply Forall_app. split; [exact Hwf|].
      constructor; [reflexivity|constructor].
    + eapply IH; eauto.
Qed.

Lemma FlushResults_promote_well_formed w indV w1 :
  FlushResults_promote w = (Done indV, w1) -> well_formed indV.
Proof.
  unfold FlushResults_promote. intros Hrun.
  apply bind_Done in Hrun as (q & w2 & _ & Hrun).
  apply bind_Done in Hrun as (u & w3 & _ & Hrun).
  destruct (m_pIndex q); [|discriminate].
  eapply make_indV_well_formed; [|exact Hrun]. constructor.
Qed.
End Emission.

(** ** Ranker monotonicity *)

Section Monotone.
Context {Geo : Geometry} {Txt : Text} {Tiles : TileData} {Rk : Ranking}.

Lemma precedes_take {T} (a b : T) l k : precedes a b l -> precedes a b (take k l).
Proof.
  intros Hp i j Hi Hj.
  apply lookup_take_Some in Hi as [Hi _]. apply lookup_take_Some in Hj as [Hj _].
  eapply Hp; eauto.
Qed.

Lemma precedes_take_In {T} (a b : T) l k :
  precedes a b l -> In a l -> In b (take k l) -> In a (take k l).
Proof.
  intros Hp Ha Hb.
  apply list_elem_of_In, list_elem_of_lookup in Ha as [i Hi].
  apply list_elem_of_In, list_elem_of_lookup in Hb as [j Hj].
  apply lookup_take_Some in Hj as [Hj Hjk].
  apply list_elem_of_In, list_elem_of_lookup. exists i.
  apply lookup_take_Some. split; [exact Hi|].
  pose proof (Hp i j Hi Hj). lia.
Qed.

(** C1.  Ranker monotonicity.  Let [FlushResults] have promoted the vector
    [indV] of candidates, and let candidates [A] and [B] both be left after
    the removal of duplicating linear objects.  If [A] dominates [B] on the
    three criteria (no worse under any comparator, strictly better under at
    least one), then in the sequence of feature results that [FlushResults]
    emits every occurrence of [A] comes before every occurrence of [B], [B]
    is not emitted without [A], and both are emitted when no cancellation
    is observed.  The comparators are strict weak orderings, as [std::sort]
    requires. *)
Theorem FlushResults_ranker_monotone (w : World) (indV : list IndexedValue)
    (A B : PreResult2) :
  StrictWeakOrder LessRank ->
  StrictWeakOrder LessViewportDistance ->
  StrictWeakOrder LessDistance ->
  fst (FlushResults_promote w) = Done indV ->
  In A (map m_val (remove_duplicating_linear indV)) ->
  In B (map m_val (remove_duplicating_linear indV)) ->
  dominates A B ->
  exists emitted w',
    FlushResults w = (Done tt, w') /\
    res w' = res w ++ map GenerateFinalResult emitted /\
    precedes A B emitted /\
    (In B emitted -> In A emitted) /\
    (m_cancel (query w) = false ->
     Forall (fun s => s = false) (cancelSignals w) ->
     In A emitted /\ In B emitted).
Proof.
  intros Hr Hv Hd Hp HA HB Hdom.
  destruct (FlushResults_promote w) as [o w1] eqn:Hrun. simpl in Hp. subst o.
  rename Hrun into Hp.
  pose proof (g_arrCompare2_swo Hr Hv Hd) as Hswo.
  pose proof (FlushResults_promote_well_formed _ _ _ Hp) as Hwf.
  apply remove_duplicating_linear_well_formed in Hwf.
  pose proof (FlushResults_promote_sink w) as Hsink. rewrite Hp in Hsink.
  simpl in Hsink. injection Hsink as Hres Hsig Hcancel.
  set (survivors := remove_duplicating_linear indV) in *.
  destruct (emit_spec (combined_order survivors) w1) as (k & w' & Hrun & Hout & Hall).
  pose proof (combined_order_precedes survivors A B Hswo Hwf Hdom) as Hprec.
  pose proof (combined_order_val survivors) as Hperm.
  assert (HA' : In A (map m_val (combined_order survivors))).
  { eapply Permutation_in; [symmetry; exact Hperm|exact HA]. }
  assert (HB' : In B (map m_val (combined_order survivors))).
  { eapply Permutation_in; [symmetry; exact Hperm|exact HB]. }
  exists (take k (map m_val (combined_order survivors))), w'.
  split; [|split; [|split; [|split]]].
  - unfold FlushResults, bind. rewrite Hp. exact Hrun.
  - rewrite Hout, Hres. f_equal. rewrite firstn_map, map_map. reflexivity.
  - apply precedes_take, Hprec.
  - apply precedes_take_In; assumption.
  - intros Hm Hs. rewrite Hall by congruence.
    rewrite take_ge by (rewrite length_map; lia). auto.
Qed.
End Monotone.

(** ** Properties kept by a whole search *)

Section KeepFacts.
Context {Geo : Geometry} {Txt : Text} {Tiles : TileData} {Rk : Ranking}.
Variable P : World -> Prop.

Lemma keeps_ret {A} (a : A) : keeps P (ret a).
Proof. intros w Hw. exact Hw. Qed.

Lemma keeps_throw {A} : keeps P (@throw _ _ _ _ A).
Proof. intros w Hw. exact Hw. Qed.

Lemma keeps_fault {A} : keeps P (@fault _ _ _ _ A).
Proof. intros w Hw. exact Hw. Qed.

Lemma keeps_get : keeps P get.
Proof. intros w Hw. exact Hw. Qed.

Lemma keeps_bind {A B} (m : M A) (k : A -> M B) :
  keeps P m -> (forall a, keeps P (k a)) -> keeps P (bind m k).
Proof.
  intros Hm Hk w Hw. unfold bind. specialize (Hm w Hw).
  destruct (m w) as [[a| |] w']; simpl in *; try exact Hm.
  apply Hk. exact Hm.
Qed.

Lemma keeps_for_each {A} (l : list A) (body : A -> M unit) :
  (forall x, keeps P (body x)) -> keeps P (for_each l body).
Proof.
  intros Hb. induction l as [|x l IH]; simpl.
  - apply keeps_ret.
  - apply keeps_bind; [apply Hb|intros _; exact IH].
Qed.

Hypothesis P_read_cancel : keeps P read_cancel.
Hypothesis P_AddResult : forall r, keeps P (AddResult r).
Hypothesis P_AddResultFromTrie : forall val mwmID, keeps P (AddResultFromTrie val mwmID).
Hypothesis P_clear : keeps P (modify (fun q => set_results (map clear (m_results q)) q)).

Ltac keeps_step :=
  first
    [ apply keeps_ret | apply keeps_throw | apply keeps_fault | apply keeps_get
    | apply P_read_cancel | apply P_AddResult | apply P_AddResultFromTrie | apply P_clear
    | apply keeps_for_each; intros ?
    | apply keeps_bind; [|intros ?]
    | match goal with
      | |- keeps _ (match ?x with _ => _ end) => destruct x eqn:?
      | |- keeps _ (if ?x then _ else _) => destruct x
      | |- keeps _ (let (_, _) := ?x in _) => destruct x
      end ].

Lemma keeps_SuggestStrings : keeps P SuggestStrings.
Proof. unfold SuggestStrings, MatchForSuggestions. repeat keeps_step. Qed.

Lemma keeps_FeaturesFilter offsets alwaysTrue offset :
  keeps P (FeaturesFilter offsets alwaysTrue offset).
Proof. unfold FeaturesFilter. repeat keeps_step. Qed.

Lemma keeps_find_categories edges : keeps P (find_categories edges).
Proof. induction edges as [|e edges IH]; simpl; repeat keeps_step. exact IH. Qed.

Lemma keeps_SearchFeatures_filter q mwmId pMwm filter offset :
  SearchFeatures_filter q mwmId pMwm = Some filter -> keeps P (filter offset).
Proof.
  unfold SearchFeatures_filter. destruct (m_offsetsInViewport q !! mwmId); [|discriminate].
  intros [= <-]. apply keeps_FeaturesFilter.
Qed.

Lemma keeps_SearchFeatures_mwm tokens langs onlyInViewport mwmId mwm :
  keeps P (SearchFeatures_mwm tokens langs onlyInViewport mwmId mwm).
Proof.
  unfold SearchFeatures_mwm, MatchFeaturesInTrie, FeatureLoader.
  repeat first [apply keeps_find_categories | keeps_step].
  eapply keeps_SearchFeatures_filter; eassumption.
Qed.

Lemma keeps_SearchFeatures_from tokens langs onlyInViewport mwmInfo : forall mwmId,
  keeps P (SearchFeatures_from tokens langs onlyInViewport mwmId mwmInfo).
Proof.
  induction mwmInfo as [|mwm mwmInfo IH]; intros mwmId; simpl.
  - apply keeps_ret.
  - apply keeps_bind; [apply keeps_SearchFeatures_mwm|intros _; apply IH].
Qed.

Lemma keeps_SearchFeatures : keeps P SearchFeatures.
Proof.
  unfold SearchFeatures, SearchFeatures_in.
  repeat first [apply keeps_SearchFeatures_from | keeps_step].
Qed.

Lemma keeps_make_indV m_mwmInfo theSet : forall m_features indV,
  keeps P (make_indV m_mwmInfo theSet m_features indV).
Proof.
  induction theSet as [|r theSet IH]; intros m_features indV; simpl.
  - apply keeps_ret.
  - apply keeps_bind.
    + unfold PreResult2Maker. repeat keeps_step.
    + intros [[res|] mf]; [destruct (Std.found _ indV)|]; apply IH.
Qed.

Lemma keeps_emit indV : keeps P (emit indV).
Proof. induction indV as [|x indV IH]; simpl; repeat keeps_step. exact IH. Qed.

Lemma keeps_FlushResults : keeps P FlushResults.
Proof.
  unfold FlushResults, FlushResults_promote.
  repeat first [apply keeps_make_indV | apply keeps_emit | keeps_step].
Qed.

Lemma keeps_Search_stages : keeps P Search_stages.
Proof.
  unfold Search_stages.
  repeat first [apply keeps_SuggestStrings | apply keeps_SearchFeatures
               | apply keeps_FlushResults | keeps_step].
Qed.
End KeepFacts.

Lemma Search_unfold `{Rk : Ranking} rawQuery resultsNeeded w :
  Search rawQuery resultsNeeded w =
  Search_stages (initialized rawQuery resultsNeeded w).
Proof. reflexivity. Qed.

(** ** Best matching name *)

Section BestName.
Context {Geo : Geometry} {Txt : Text} {Tiles : TileData} {Rk : Ranking}.

Lemma ForEachNameRef_best sc names : forall penalty name b p n,
  ForEachNameRef names (BestNameFinder sc) (penalty, name) = (b, (p, n)) ->
  (p = penalty /\ n = name) \/
  (exists lang, In (lang, n) names /\ Score sc lang n = p /\ p < penalty).
Proof.
  induction names as [|[lang n0] names IH]; intros penalty name b p n; simpl.
  - intros [= _ <- <-]. left. auto.
  - unfold BestNameFinder at 1. simpl.
    destruct (Z.ltb_spec (Score sc lang n0) penalty) as [Hlt|Hge]; intros Hrun.
    + destruct (IH _ _ _ _ _ Hrun) as [[-> ->]|(lang' & Hin & Hs & Hlt')].
      * right. exists lang. auto.
      * right. exists lang'. repeat split; auto. lia.
    + destruct (IH _ _ _ _ _ Hrun) as [[-> ->]|(lang' & Hin & Hs & Hlt')].
      * left. auto.
      * right. exists lang'. auto.
Qed.

(** C10.  Whatever the feature, [GetBestMatchName] either keeps the sentinel
    penalty [2^32 - 1] and leaves the name as it found it, or selects a name
    of the feature whose score is the returned penalty and is strictly below
    the sentinel: a name scoring the sentinel is never selected.  When no
    name of the feature scores strictly below the sentinel (the feature has
    no names, or all score [uint32_t(-1)]), the penalty is [2^32 - 1] and
    the name stays as passed in, the empty string of [PreResult2Maker]. *)
Theorem GetBestMatchName_worst_sentinel sc (f : FeatureType) (name0 : string) :
  let r := GetBestMatchName sc f name0 in
  ((fst r = uint32_max /\ snd r = name0) \/
   (exists lang, In (lang, snd r) (feature_names f) /\
                 Score sc lang (snd r) = fst r /\ fst r < uint32_max)) /\
  ((forall lang name, In (lang, name) (feature_names f) ->
                      ~ Score sc lang name < uint32_max) ->
   r = (uint32_max, name0) /\
   GetBestMatchName sc f EmptyString = (uint32_max, EmptyString)).
Proof.
  assert (Hbest : forall n0,
    let r := GetBestMatchName sc f n0 in
    (fst r = uint32_max /\ snd r = n0) \/
    (exists lang, In (lang, snd r) (feature_names f) /\
                  Score sc lang (snd r) = fst r /\ fst r < uint32_max)).
  { intros n0. unfold GetBestMatchName.
    destruct (ForEachNameRef _ _ _) as [b [p n]] eqn:Hrun. simpl.
    eapply ForEachNameRef_best, Hrun. }
  assert (Hany : (forall lang name, In (lang, name) (feature_names f) ->
                                    ~ Score sc lang name < uint32_max) ->
                 forall n0, GetBestMatchName sc f n0 = (uint32_max, n0)).
  { intros Hworst n0. destruct (Hbest n0) as [[Hp Hn]|(lang & Hin & Hs & Hlt)].
    - destruct (GetBestMatchName sc f n0) as [p n]. simpl in *. congruence.
    - exfalso. apply (Hworst lang _ Hin). rewrite Hs. exact Hlt. }
  simpl. split; [apply Hbest|].
  intros Hworst. split; apply Hany, Hworst.
Qed.
End BestName.

(** ** The features filter *)

Section Filter.
Context {Geo : Geometry} {Txt : Text} {Tiles : TileData} {Rk : Ranking}.

Lemma read_cancel_observed w :
  cancel_observed w -> fst (read_cancel w) = Done true.
Proof.
  unfold cancel_observed, read_cancel. simpl. intros [->|Hs]; [reflexivity|].
  destruct (cancelSignals w) as [|s l]; [discriminate|]. simpl in Hs.
  injection Hs as ->. rewrite orb_true_r. reflexivity.
Qed.

Lemma read_cancel_clear w :
  m_cancel (query w) = false -> head (cancelSignals w) <> Some true ->
  fst (read_cancel w) = Done false.
Proof.
  unfold read_cancel. simpl. intros -> Hs.
  destruct (cancelSignals w) as [|[|] l]; simpl in *; congruence.
Qed.

(** C8.  Every admission decision of the filter reads the cancel flag
    first: when the flag reads as set, the filter throws
    [Query::CancelException], whatever the offsets, the offset asked about
    and [alwaysTrue]; so does the filter that [SearchFeatures] builds for a
    tile, world tiles included. *)
Theorem FeaturesFilter_polls_cancel (offsets : list Z) (alwaysTrue : bool)
    (offset : Z) (w : World) :
  cancel_observed w ->
  fst (FeaturesFilter offsets alwaysTrue offset w) = CancelException /\
  (forall q mwmId pMwm filter,
      header_GetType pMwm = world ->
      SearchFeatures_filter q mwmId pMwm = Some filter ->
      fst (filter offset w) = CancelException).
Proof.
  intros Hc.
  assert (Hany : forall offs always,
             fst (FeaturesFilter offs always offset w) = CancelException).
  { intros offs always. unfold FeaturesFilter, bind.
    pose proof (read_cancel_observed w Hc) as Hr.
    destruct (read_cancel w) as [o w']. simpl in Hr. subst o. reflexivity. }
  split; [apply Hany|].
  intros q mwmId pMwm filter _. unfold SearchFeatures_filter.
  destruct (m_offsetsInViewport q !! mwmId); [|discriminate].
  intros [= <-]. apply Hany.
Qed.

(** C2, as the code has it.  For a world tile the filter that
    [SearchFeatures] builds never looks at the tile's entry of the offsets
    cache: whatever the entry holds, it admits the offset when the cancel
    flag does not read as set at the decision, and throws
    [Query::CancelException] when it does.  The cache fill leaves the entry
    of a world tile empty. *)
Theorem world_tiles_bypass_filter (q : Query) (mwmId : nat) (pMwm : MwmValue)
    (offsets : list Z) (offset : Z) (w : World) :
  header_GetType pMwm = world ->
  m_offsetsInViewport q !! mwmId = Some offsets ->
  (exists filter,
      SearchFeatures_filter q mwmId pMwm = Some filter /\
      fst (filter offset w) =
        if m_cancel (query w) || default false (head (cancelSignals w))
        then CancelException else Done true) /\
  (forall q' mwm, MwmLock_GetValue mwm = Some pMwm ->
                  UpdateViewportOffsets_mwm q' mwm = []).
Proof.
  intros Hworld Hoff. split.
  - unfold SearchFeatures_filter. rewrite Hoff, Hworld. eexists. split; [reflexivity|].
    unfold FeaturesFilter, bind, read_cancel. simpl.
    destruct (cancelSignals w) as [|s l]; simpl;
      destruct (m_cancel (query w) || _); reflexivity.
  - intros q' mwm Hv. unfold UpdateViewportOffsets_mwm. rewrite Hv, Hworld.
    destruct (IsIntersect _ _); reflexivity.
Qed.
End Filter.

(** ** Suggestions *)

Section Suggest.
Context {Geo : Geometry} {Txt : Text} {Tiles : TileData} {Rk : Ranking}.

Lemma StartsWith_spec s : forall target,
  StartsWith s target = true <-> exists rest, s = target ++ rest.
Proof.
  induction s as [|c s IH]; intros [|p target]; simpl.
  - split; [exists []; reflexivity|reflexivity].
  - split; [discriminate|intros [rest Hr]; discriminate].
  - split; [exists (c :: s); reflexivity|reflexivity].
  - rewrite andb_true_iff, Z.eqb_eq, IH. split.
    + intros [-> [rest ->]]. exists rest. reflexivity.
    + intros [rest [= -> ->]]. split; [reflexivity|exists rest; reflexivity].
Qed.

Lemma for_each_emit {A} (cond : A -> bool) (gen : A -> Result) l : forall w,
  res (snd (for_each l (fun it => if cond it then AddResult (gen it) else ret tt) w)) =
  res w ++ map gen (List.filter cond l).
Proof.
  induction l as [|x l IH]; intros w; simpl.
  - rewrite app_nil_r. reflexivity.
  - unfold bind at 1. destruct (cond x); simpl.
    + rewrite IH. simpl. rewrite <- app_assoc. reflexivity.
    + apply IH.
Qed.

Lemma suggest_target_spec tokens prefix target :
  suggest_target tokens prefix = Some target <->
  (tokens = [] /\ prefix <> [] /\ target = prefix) \/
  (exists token0, tokens = [token0] /\
     ((prefix = [] /\ target = token0) \/
      (prefix <> [] /\ target = token0 ++ [32] ++ prefix))).
Proof.
  unfold suggest_target. split.
  - destruct tokens as [|t [|t' tokens]]; destruct prefix as [|c prefix];
      try discriminate; intros [= <-].
    + left. repeat split. discriminate.
    + right. exists t. split; [reflexivity|]. left. auto.
    + right. exists t. split; [reflexivity|]. right. split; [discriminate|reflexivity].
  - intros [(-> & Hp & ->)|(t & -> & [[-> ->]|[Hp ->]])].
    + destruct prefix; [contradiction|reflexivity].
    + reflexivity.
    + destruct prefix; [contradiction|reflexivity].
Qed.

(** C9, as the code has it.  [SuggestStrings] adds results only when a
    dictionary is present and a target exists: the prefix when there is no
    token and the prefix is not empty; with exactly one token, that token
    alone when the prefix is empty and [token[0] + " " + prefix] otherwise.
    A dictionary entry [(s, m)] yields a suggestion exactly when
    [m <= target.size()] and the target is a string prefix of [s]. *)
Theorem SuggestStrings_rule (w : World) :
  res (snd (SuggestStrings w)) =
    res w ++
    match m_pStringsToSuggest (query w),
          suggest_target (m_tokens (query w)) (m_prefix (query w)) with
    | Some strings, Some target =>
        map (fun it => GenerateFinalResult (PreResult2_suggest (ToUtf8 (fst it)) (snd it)))
            (List.filter (fun it => Nat.leb (snd it) (length target) &&
                                    StartsWith (fst it) target) strings)
    | _, _ => []
    end /\
  (forall tokens prefix target,
      suggest_target tokens prefix = Some target <->
      (tokens = [] /\ prefix <> [] /\ target = prefix) \/
      (exists token0, tokens = [token0] /\
         ((prefix = [] /\ target = token0) \/
          (prefix <> [] /\ target = token0 ++ [32] ++ prefix)))) /\
  (forall (it : UniString * nat) target,
      Nat.leb (snd it) (length target) && StartsWith (fst it) target = true <->
      (snd it <= length target)%nat /\ exists rest, fst it = target ++ rest).
Proof.
  split; [|split].
  - unfold SuggestStrings, bind, get. simpl.
    destruct (m_pStringsToSuggest (query w)) as [strings|] eqn:Hd;
      [|simpl; rewrite app_nil_r; reflexivity].
    destruct (suggest_target _ _) as [target|];
      [|simpl; rewrite app_nil_r; reflexivity].
    unfold MatchForSuggestions, bind, get. simpl. rewrite Hd.
    apply (for_each_emit
             (fun it => Nat.leb (snd it) (length target) && StartsWith (fst it) target)
             (fun it => GenerateFinalResult (PreResult2_suggest (ToUtf8 (fst it)) (snd it)))).
  - apply suggest_target_spec.
  - intros it target. rewrite andb_true_iff, Nat.leb_le, StartsWith_spec. reflexivity.
Qed.
End Suggest.

(** ** The offsets cache *)

Lemma Zltb_swo : StrictWeakOrder Z.ltb.
Proof.
  split.
  - intros x _. apply Z.ltb_irrefl.
  - intros x y z _ _ _. rewrite !Z.ltb_lt. lia.
  - intros x y z _ _ _. rewrite !Z.ltb_ge. lia.
Qed.

Lemma ordered_Zltb l : ordered Z.ltb l -> StronglySorted Z.le l.
Proof.
  induction 1 as [|x l Hl IH Hx]; constructor; [exact IH|].
  eapply Forall_impl; [exact Hx|]. simpl. intros y. rewrite Z.ltb_ge. auto.
Qed.

Section Cache.
Context {Geo : Geometry} {Txt : Text} {Tiles : TileData} {Rk : Ranking}.

Lemma UpdateViewportOffsets_mwm_sorted q mwm :
  StronglySorted Z.le (UpdateViewportOffsets_mwm q mwm).
Proof.
  unfold UpdateViewportOffsets_mwm.
  destruct (IsIntersect _ _); [|constructor].
  destruct (MwmLock_GetValue mwm) as [pMwm|]; [|constructor].
  destruct (MapType_eqb _ _); [|constructor].
  apply ordered_Zltb, (sort_ordered _ _ Zltb_swo), Forall_forall. auto.
Qed.

Lemma UpdateViewportOffsets_cache w mwmInfo :
  m_pIndex (query w) = Some mwmInfo ->
  m_offsetsInViewport (query (snd (UpdateViewportOffsets w))) =
  map (UpdateViewportOffsets_mwm (query w)) mwmInfo.
Proof.
  intros Hidx. unfold UpdateViewportOffsets, bind, get. simpl. rewrite Hidx. reflexivity.
Qed.

(** C5, as the code has it.  After [UpdateViewportOffsets] every entry of
    the offsets cache is in ascending order.  Nothing is dropped from an
    entry: the entry of a country tile that meets the extended viewport is a
    rearrangement of all the offsets the geometry index reported, so an
    offset reported more than once stays in the entry as often. *)
Theorem UpdateViewportOffsets_sorted (w : World) :
  Forall (StronglySorted Z.le)
         (m_offsetsInViewport (query (snd (UpdateViewportOffsets w)))) /\
  (forall (mwmInfo : list Mwm) i mwm pMwm,
      m_pIndex (query w) = Some mwmInfo ->
      mwmInfo !! i = Some mwm ->
      IsIntersect (m_viewportExtended (query w)) (m_limitRect mwm) = true ->
      MwmLock_GetValue mwm = Some pMwm ->
      header_GetType pMwm = country ->
      exists entry,
        m_offsetsInViewport (query (snd (UpdateViewportOffsets w))) !! i = Some entry /\
        Permutation entry (reported_offsets (query w) pMwm)).
Proof.
  split.
  - unfold UpdateViewportOffsets, bind, get. simpl.
    destruct (m_pIndex (query w)) as [mwmInfo|]; simpl; [|constructor].
    apply Forall_map, Forall_forall. intros mwm _. apply UpdateViewportOffsets_mwm_sorted.
  - intros mwmInfo i mwm pMwm Hidx Hi Hint Hval Hty.
    rewrite (UpdateViewportOffsets_cache w mwmInfo Hidx).
    rewrite lookup_map, Hi. simpl. eexists. split; [reflexivity|].
    unfold UpdateViewportOffsets_mwm. rewrite Hint, Hval, Hty. simpl.
    apply sort_Permutation.
Qed.

Lemma Search_stages_core w : query_core (snd (Search_stages w)) = query_core w.
Proof.
  apply (keeps_Search_stages (fun w' => query_core w' = query_core w));
    try (intros; intros w' Hw'; exact Hw'); try (intros w' Hw'; exact Hw').
  reflexivity.
Qed.

Lemma Search_core rawQuery resultsNeeded w :
  query_core (snd (Search rawQuery resultsNeeded w)) =
  query_core (initialized rawQuery resultsNeeded w).
Proof. rewrite Search_unfold. apply Search_stages_core. Qed.

(** C4, as the code has it.  [SetViewport] with a rectangle different from
    the current viewport rebuilds the offsets cache itself, at once: on
    return the cache is the one computed for the new viewport and is marked
    valid.  [Search] never touches the cache or its validity mark. *)
Theorem SetViewport_rebuilds_cache (viewport : RectD) (w : World) (mwmInfo : Index) :
  RectD_ne (m_viewport (query w)) viewport = true ->
  m_pIndex (query w) = Some mwmInfo ->
  let q1 := query (snd (SetViewport viewport w)) in
  fst (SetViewport viewport w) = Done tt /\
  m_viewport q1 = viewport /\
  m_viewportExtended q1 = RectD_Scale3 viewport /\
  m_offsetsInViewport q1 = map (UpdateViewportOffsets_mwm q1) mwmInfo /\
  m_bOffsetsCacheIsValid q1 = true /\
  (forall rawQuery resultsNeeded w2,
      let q2 := query (snd (Search rawQuery resultsNeeded w2)) in
      m_offsetsInViewport q2 = m_offsetsInViewport (query w2) /\
      m_bOffsetsCacheIsValid q2 = m_bOffsetsCacheIsValid (query w2)).
Proof.
  intros Hne Hidx. simpl.
  unfold SetViewport, bind, get. simpl. rewrite Hne. simpl.
  unfold UpdateViewportOffsets, bind, get. simpl. rewrite Hidx. simpl.
  repeat split.
  - pose proof (Search_core rawQuery resultsNeeded w2) as Hc.
    apply (f_equal m_offsetsInViewport) in Hc. exact Hc.
  - pose proof (Search_core rawQuery resultsNeeded w2) as Hc.
    apply (f_equal m_bOffsetsCacheIsValid) in Hc. exact Hc.
Qed.
End Cache.

(** ** The prefix rule *)

Section Prefix.
Context {Geo : Geometry} {Txt : Text} {Tiles : TileData} {Rk : Ranking}.

Lemma SplitUniString_from_nonempty delims s : forall cur,
  Forall (fun t => t <> []) (SplitUniString_from delims cur s).
Proof.
  induction s as [|c s IH]; intros cur; simpl.
  - destruct cur; repeat constructor. discriminate.
  - destruct (delims c).
    + destruct cur; [apply IH|]. constructor; [discriminate|apply IH].
    + apply IH.
Qed.

Lemma split_prefix_spec rawQuery :
  let tokens := SplitUniString (NormalizeAndSimplifyString rawQuery) Delimiters in
  (snd (split_prefix rawQuery) <> [] <->
   Delimiters (LastUniChar rawQuery) = false /\ tokens <> []) /\
  (snd (split_prefix rawQuery) <> [] ->
   tokens = fst (split_prefix rawQuery) ++ [snd (split_prefix rawQuery)]).
Proof.
  simpl. unfold split_prefix.
  pose proof (SplitUniString_from_nonempty Delimiters
                (NormalizeAndSimplifyString rawQuery) []) as Hne.
  fold (SplitUniString (NormalizeAndSimplifyString rawQuery) Delimiters) in Hne.
  destruct (SplitUniString _ _) as [|t tokens] eqn:Htok.
  - simpl. split; [split; [congruence|intros [_ Hc]; congruence]|congruence].
  - cbn [length Nat.eqb negb andb].
    destruct (Delimiters (LastUniChar rawQuery)); cbn [negb fst snd].
    + split; [split; [congruence|intros [Hc _]; discriminate]|congruence].
    + assert (Hlast : List.last (t :: tokens) [] <> []).
      { rewrite Forall_forall in Hne. apply Hne.
        apply list_elem_of_In.
        rewrite (app_removelast_last (l := t :: tokens) []) at 2 by discriminate.
        apply in_or_app. right. left. reflexivity. }
      split; [split; [intros _; split; [reflexivity|discriminate]|intros _; exact Hlast]|].
      intros _. apply app_removelast_last. discriminate.
Qed.

(** C3.  The prefix rule.  After [Search] on the raw query [rawQuery] the
    prefix is not empty exactly when the last code point of the raw query is
    not a delimiter and the split of the normalized query has a token; the
    prefix then is the last token of that split, removed from the token
    list (which is afterwards capped at 31). *)
Theorem Search_prefix_rule (rawQuery : string) (resultsNeeded : Z) (w : World) :
  let q' := query (snd (Search rawQuery resultsNeeded w)) in
  let tokens := SplitUniString (NormalizeAndSimplifyString rawQuery) Delimiters in
  (m_prefix q' <> [] <->
   Delimiters (LastUniChar rawQuery) = false /\ tokens <> []) /\
  (m_prefix q' <> [] ->
   exists rest, tokens = rest ++ [m_prefix q'] /\ m_tokens q' = cap_tokens rest).
Proof.
  simpl.
  pose proof (Search_core rawQuery resultsNeeded w) as Hc.
  assert (Hp : m_prefix (query (snd (Search rawQuery resultsNeeded w))) =
               snd (split_prefix rawQuery)).
  { apply (f_equal m_prefix) in Hc. exact Hc. }
  assert (Ht : m_tokens (query (snd (Search rawQuery resultsNeeded w))) =
               cap_tokens (fst (split_prefix rawQuery))).
  { apply (f_equal m_tokens) in Hc. exact Hc. }
  rewrite Hp, Ht. destruct (split_prefix_spec rawQuery) as [Hiff Hlast].
  split; [exact Hiff|].
  intros Hne. exists (fst (split_prefix rawQuery)). split; [apply Hlast, Hne|reflexivity].
Qed.
End Prefix.

(** ** Cancellation at entry *)

Section Cancel.
Context {Geo : Geometry} {Txt : Text} {Tiles : TileData} {Rk : Ranking}.

(** The results the stages before the feature search add for a lat/lon
    literal. *)
Let latlon_results (rawQuery : string) (q : Query) : list Result :=
  match MatchLatLon rawQuery with
  | Some (lat, lon, _, _) =>
      [GenerateFinalResult (PreResult2_latlon (m_viewport q) (m_position q) lat lon)]
  | None => []
  end.

(** C6, as the code has it.  [Search] clears the cancel flag on entry: a
    flag set before the call is discarded and the search runs exactly as if
    it had not been set.  A search returns without feature results (and
    without suggestions) when the flag is set after that reset and before
    the first check: the sink then gets at most the lat/lon result. *)
Theorem Search_resets_cancel (rawQuery : string) (resultsNeeded : Z)
    (q : Query) (r : list Result) (signals : list bool) :
  Search rawQuery resultsNeeded
    {| query := set_cancel true q; res := r; cancelSignals := signals |} =
  Search rawQuery resultsNeeded
    {| query := set_cancel false q; res := r; cancelSignals := signals |} /\
  (let w' := snd (Search rawQuery resultsNeeded
                    {| query := q; res := r; cancelSignals := true :: signals |}) in
   fst (Search rawQuery resultsNeeded
          {| query := q; res := r; cancelSignals := true :: signals |}) = Done tt /\
   res w' = r ++ latlon_results rawQuery q).
Proof.
  split; [reflexivity|].
  rewrite Search_unfold. unfold latlon_results, Search_stages, initialized, bind, get.
  simpl. destruct (MatchLatLon rawQuery) as [[[[lat lon] latPrec] lonPrec]|]; simpl.
  - auto.
  - rewrite app_nil_r. auto.
Qed.
End Cancel.

(** ** The candidate queues *)

Section QueueFacts.
Context {Geo : Geometry} {Txt : Text} {Tiles : TileData} {Rk : Ranking}.

Lemma FeatureID_eqb_eq a b : FeatureID_eqb a b = true <-> a = b.
Proof.
  unfold FeatureID_eqb. destruct a as [a1 a2], b as [b1 b2]. simpl.
  rewrite andb_true_iff, Z.eqb_eq, Nat.eqb_eq. split; [intros [-> ->]|intros [= -> ->]]; auto.
Qed.

Lemma found_EqualFeature t l :
  Std.found (EqualFeature t) l = false <-> ~ In (GetID t) (map GetID l).
Proof.
  unfold Std.found. induction l as [|x l IH]; simpl.
  - split; auto.
  - rewrite orb_false_iff, IH. unfold EqualFeature. split.
    + intros [Hx Hl] [Heq|Hin]; [|auto].
      symmetry in Heq. apply FeatureID_eqb_eq in Heq. congruence.
    + intros Hn. split; [|tauto].
      destruct (FeatureID_eqb (GetID t) (GetID x)) eqn:E; [|reflexivity].
      apply FeatureID_eqb_eq in E. exfalso. apply Hn. left. congruence.
Qed.

Lemma pop_worst_None comp l : pop_worst comp l = None -> l = [].
Proof.
  destruct l as [|x l]; simpl; [reflexivity|].
  destruct (pop_worst comp l) as [[w rest]|]; [destruct (comp w x)|]; discriminate.
Qed.

Lemma pop_worst_Permutation comp l : forall w rest,
  pop_worst comp l = Some (w, rest) -> Permutation l (w :: rest).
Proof.
  induction l as [|x l IH]; intros w rest; simpl; [discriminate|].
  destruct (pop_worst comp l) as [[w0 rest0]|] eqn:Hpop.
  - specialize (IH w0 rest0 eq_refl).
    destruct (comp w0 x); intros [= <- <-].
    + constructor. exact IH.
    + rewrite IH. apply perm_swap.
  - apply pop_worst_None in Hpop. subst l. intros [= <- <-]. reflexivity.
Qed.

Lemma push_ok resultsNeeded qu t :
  queue_ok resultsNeeded qu ->
  ~ In (GetID t) (map GetID (q_queue qu)) ->
  queue_ok resultsNeeded (push qu t).
Proof.
  intros (Hnd & Hlen & Hmax) Hfresh. unfold push.
  destruct (Z.ltb_spec (Z.of_nat (length (q_queue qu))) (q_maxSize qu)) as [Hlt|Hge].
  - repeat split; simpl; [| |exact Hmax].
    + rewrite map_app. simpl. apply NoDup_app. repeat split; [exact Hnd| |].
      * intros x Hx Hx'. apply list_elem_of_In in Hx. apply list_elem_of_singleton in Hx'.
        subst x. contradiction.
      * apply NoDup_singleton.
    + rewrite length_app. simpl. lia.
  - destruct (pop_worst (q_compare qu) (q_queue qu)) as [[w0 rest]|] eqn:Hpop;
      [|repeat split; assumption].
    destruct (q_compare qu t w0); [|repeat split; assumption].
    apply pop_worst_Permutation in Hpop.
    repeat split; simpl; [| |exact Hmax].
    + rewrite map_app. simpl. apply NoDup_app. repeat split.
      * rewrite (Permutation_map GetID Hpop) in Hnd. simpl in Hnd.
        apply NoDup_cons in Hnd as [_ Hnd]. exact Hnd.
      * intros x Hx Hx'. apply list_elem_of_singleton in Hx'. subst x.
        apply Hfresh. rewrite (Permutation_map GetID Hpop). simpl. right.
        apply list_elem_of_In. exact Hx.
      * apply NoDup_singleton.
    + rewrite length_app. simpl.
      rewrite (Permutation_length Hpop) in Hlen. simpl in Hlen. lia.
Qed.

Lemma AddResultFromTrie_ok resultsNeeded val mwmID :
  keeps (queues_ok resultsNeeded) (AddResultFromTrie val mwmID).
Proof.
  intros w Hw. unfold queues_ok, AddResultFromTrie, modify in *. simpl.
  apply Forall_map. eapply Forall_impl; [exact Hw|]. simpl. intros qu Hqu.
  destruct (Std.found _ (q_queue qu)) eqn:Hf; [exact Hqu|].
  apply push_ok; [exact Hqu|]. apply found_EqualFeature in Hf. exact Hf.
Qed.

Lemma clear_ok resultsNeeded :
  0 <= resultsNeeded ->
  keeps (queues_ok resultsNeeded)
        (modify (fun q => set_results (map clear (m_results q)) q)).
Proof.
  intros Hr w Hw. unfold queues_ok, modify in *. simpl.
  apply Forall_map. eapply Forall_impl; [exact Hw|]. simpl.
  intros qu (_ & _ & Hmax). repeat split; simpl; [constructor|lia|exact Hmax].
Qed.

Lemma initialized_ok rawQuery resultsNeeded w :
  0 <= resultsNeeded -> queues_ok resultsNeeded (initialized rawQuery resultsNeeded w).
Proof.
  intros Hr.
  assert (Hq : forall comp,
             queue_ok resultsNeeded {| q_maxSize := to_uint32 (2 * resultsNeeded);
                                       q_compare := comp; q_queue := [] |}).
  { intros comp. repeat split; simpl.
    - constructor.
    - lia.
    - unfold to_uint32. apply Z.mod_le; lia. }
  unfold queues_ok, initialized, Search_Initialize, g_arrCompare1. simpl.
  constructor; [apply Hq|]. constructor; [apply Hq|]. constructor; [apply Hq|].
  constructor.
Qed.

(** C7.  During a [Search] call every candidate queue holds any feature id
    at most once and at most [2 * resultsNeeded] elements: this holds for
    the queues [Search] sets up, is kept by every [AddResultFromTrie] (which
    leaves alone a queue that already holds the id of the hit) and so holds
    after any sequence of hits, and it holds when [Search] is over. *)
Theorem queues_hold_each_id_once (rawQuery : string) (resultsNeeded : Z) (w : World) :
  0 <= resultsNeeded ->
  queues_ok resultsNeeded (initialized rawQuery resultsNeeded w) /\
  (forall w1 val mwmID,
      queues_ok resultsNeeded w1 ->
      queues_ok resultsNeeded (snd (AddResultFromTrie val mwmID w1))) /\
  (forall w1 val mwmID i qu,
      m_results (query w1) !! i = Some qu ->
      In (m_featureId val, mwmID) (map GetID (q_queue qu)) ->
      m_results (query (snd (AddResultFromTrie val mwmID w1))) !! i = Some qu) /\
  (forall hits : list (TrieValueT * nat),
      queues_ok resultsNeeded
        (snd (for_each hits (fun h => AddResultFromTrie (fst h) (snd h))
                       (initialized rawQuery resultsNeeded w)))) /\
  queues_ok resultsNeeded (snd (Search rawQuery resultsNeeded w)).
Proof.
  intros Hr. split; [apply initialized_ok, Hr|]. split; [|split; [|split]].
  - intros w1 val mwmID. apply AddResultFromTrie_ok.
  - intros w1 val mwmID i qu Hi Hin. unfold AddResultFromTrie, modify. simpl.
    rewrite lookup_map, Hi. simpl. f_equal.
    destruct (Std.found _ (q_queue qu)) eqn:Hf; [reflexivity|].
    apply found_EqualFeature in Hf. contradiction.
  - intros hits. apply keeps_for_each; [|apply initialized_ok, Hr].
    intros h. apply AddResultFromTrie_ok.
  - rewrite Search_unfold. apply keeps_Search_stages.
    + intros w1 Hw1. exact Hw1.
    + intros r1 w1 Hw1. exact Hw1.
    + intros val mwmID. apply AddResultFromTrie_ok.
    + apply clear_ok, Hr.
    + apply initialized_ok, Hr.
Qed.
End QueueFacts.

(** ** Binary search over a cache entry *)

Lemma sorted_nth_le (v : list Z) : forall j k,
  StronglySorted Z.le v -> (j <= k)%nat -> (k < length v)%nat ->
  nth j v 0 <= nth k v 0.
Proof.
  intros j k Hs. revert j k. induction Hs as [|x v Hs IH Hx]; intros j k Hjk Hk.
  - simpl in Hk. lia.
  - destruct k as [|k]; [replace j with 0%nat by lia; simpl; lia|].
    destruct j as [|j]; simpl in *.
    + rewrite Forall_forall in Hx. apply Hx. apply list_elem_of_In, nth_In. lia.
    + apply IH; lia.
Qed.

Lemma lower_bound_spec (v : list Z) (value : Z) : forall fuel first count,
  StronglySorted Z.le v ->
  (count <= fuel)%nat ->
  (first + count <= length v)%nat ->
  (forall j, (j < first)%nat -> nth j v 0 < value) ->
  (forall j, (first + count <= j < length v)%nat -> value <= nth j v 0) ->
  (Std.lower_bound fuel v first count value <= length v)%nat /\
  (forall j, (j < Std.lower_bound fuel v first count value)%nat -> nth j v 0 < value) /\
  (forall j, (Std.lower_bound fuel v first count value <= j < length v)%nat ->
             value <= nth j v 0).
Proof.
  intros fuel. induction fuel as [|fuel IH]; intros first count Hs Hfuel Hlen Hlo Hhi;
    cbn [Std.lower_bound].
  - replace count with 0%nat in * by lia.
    repeat split; [lia|exact Hlo|]. intros j Hj. apply Hhi. lia.
  - destruct (Nat.eqb_spec count 0) as [->|Hc].
    + repeat split; [lia|exact Hlo|]. intros j Hj. apply Hhi. lia.
    + pose proof (Nat.div_lt count 2 ltac:(lia) ltac:(lia)) as Hstep.
      set (step := Nat.div count 2) in *.
      destruct (Z.ltb_spec (nth (first + step) v 0) value) as [Hlt|Hge].
      * apply IH; auto; try lia.
        -- intros j Hj.
           pose proof (sorted_nth_le v j (first + step) Hs ltac:(lia) ltac:(lia)). lia.
        -- intros j Hj. apply Hhi. lia.
      * apply IH; auto; try lia.
        intros j Hj.
        pose proof (sorted_nth_le v (first + step) j Hs ltac:(lia) ltac:(lia)). lia.
Qed.

(** On an ascending vector, with or without repeated elements,
    [binary_search] decides membership. *)
Lemma binary_search_In (v : list Z) (value : Z) :
  StronglySorted Z.le v -> (Std.binary_search v value = true <-> In value v).
Proof.
  intros Hs. unfold Std.binary_search.
  destruct (lower_bound_spec v value (length v) 0 (length v) Hs) as (Hi & Hlo & Hhi);
    try lia.
  set (i := Std.lower_bound _ _ _ _ _) in *.
  rewrite andb_true_iff, negb_true_iff, Nat.ltb_lt, Z.ltb_ge. split.
  - intros [Hlt Hle]. pose proof (Hhi i ltac:(lia)).
    replace value with (nth i v 0) by lia. apply nth_In. exact Hlt.
  - intros Hin. apply (In_nth _ _ 0) in Hin as (j & Hj & Hv).
    assert (Hij : (i <= j)%nat).
    { destruct (le_lt_dec i j) as [|Hlt]; [assumption|]. specialize (Hlo j Hlt). lia. }
    split; [lia|]. rewrite <- Hv. apply sorted_nth_le; auto.
Qed.

Section FilterMembership.
Context {Geo : Geometry} {Txt : Text} {Tiles : TileData} {Rk : Ranking}.

(** X27.  For a tile that is not a world tile the filter built on an entry
    that [UpdateViewportOffsets] has filled admits exactly the offsets of
    the entry, as long as no cancellation is observed: the binary search
    of the filter is exact on the entry the update has sorted. *)
Lemma FeaturesFilter_membership q mwm offset w :
  m_cancel (query w) = false -> head (cancelSignals w) <> Some true ->
  exists pass,
    fst (FeaturesFilter (UpdateViewportOffsets_mwm q mwm) false offset w) = Done pass /\
    (pass = true <-> In offset (UpdateViewportOffsets_mwm q mwm)).
Proof.
  intros Hm Hsig. unfold FeaturesFilter, bind.
  pose proof (read_cancel_clear w Hm Hsig) as Hr.
  destruct (read_cancel w) as [o w']. simpl in Hr. subst o. simpl.
  eexists. split; [reflexivity|].
  apply binary_search_In, UpdateViewportOffsets_mwm_sorted.
Qed.
End FilterMembership.

(** ** The viewport and its cache over the calls of the interface *)

Section ViewportCalls.
Context {Geo : Geometry} {Txt : Text} {Tiles : TileData} {Rk : Ranking}.

Lemma UpdateViewportOffsets_mwm_ext q q' mwm :
  m_viewport q = m_viewport q' -> m_viewportExtended q = m_viewportExtended q' ->
  UpdateViewportOffsets_mwm q mwm = UpdateViewportOffsets_mwm q' mwm.
Proof.
  intros Hv He. unfold UpdateViewportOffsets_mwm, reported_offsets. rewrite Hv, He.
  reflexivity.
Qed.

Lemma cache_consistent_ext q q' :
  m_viewport q = m_viewport q' -> m_viewportExtended q = m_viewportExtended q' ->
  m_pIndex q = m_pIndex q' -> m_offsetsInViewport q = m_offsetsInViewport q' ->
  m_bOffsetsCacheIsValid q = m_bOffsetsCacheIsValid q' ->
  cache_consistent q -> cache_consistent q'.
Proof.
  intros Hv He Hi Ho Hb Hc Hvalid. rewrite <- Hb in Hvalid.
  destruct (Hc Hvalid) as (Hext & mwmInfo & Hidx & Hcache).
  split; [congruence|]. exists mwmInfo. split; [congruence|].
  rewrite <- Ho, Hcache. apply map_ext. intros mwm.
  apply UpdateViewportOffsets_mwm_ext; assumption.
Qed.

Lemma SetViewport_consistent viewport w :
  cache_consistent (query w) -> cache_consistent (query (snd (SetViewport viewport w))).
Proof.
  intros Hc. unfold SetViewport, bind, get. simpl.
  destruct (RectD_ne (m_viewport (query w)) viewport || negb (m_bOffsetsCacheIsValid (query w)))
    eqn:Hgo; [|exact Hc].
  unfold UpdateViewportOffsets, bind, get, modify. simpl.
  destruct (m_pIndex (query w)) as [mwmInfo|] eqn:Hidx; simpl.
  - intros _. simpl. split; [reflexivity|]. exists mwmInfo. split; [exact Hidx|].
    apply map_ext. intros mwm. apply UpdateViewportOffsets_mwm_ext; reflexivity.
  - intros Hvalid. simpl in Hvalid.
    destruct (Hc Hvalid) as (_ & mwmInfo & Hsome & _). congruence.
Qed.

(** X1.  Whenever the offsets cache is marked valid it is the cache of the
    current viewport: the extended viewport is the viewport scaled by 3 and
    every tile's entry is what [UpdateViewportOffsets] computes for it.
    [SetViewport], [ClearCache], [SetPreferredLanguage] and [Search] all keep
    this, however they end. *)
Theorem cache_stays_consistent (w : World) :
  cache_consistent (query w) ->
  (forall viewport, cache_consistent (query (snd (SetViewport viewport w)))) /\
  cache_consistent (query (snd (ClearCache w))) /\
  (forall lang, cache_consistent (query (snd (SetPreferredLanguage lang w)))) /\
  (forall rawQuery resultsNeeded,
      cache_consistent (query (snd (Search rawQuery resultsNeeded w)))).
Proof.
  intros Hc. split; [|split; [|split]].
  - intros viewport. apply SetViewport_consistent, Hc.
  - intros Hvalid. discriminate Hvalid.
  - intros lang. exact Hc.
  - intros rawQuery resultsNeeded.
    pose proof (Search_core rawQuery resultsNeeded w) as Hcore.
    eapply cache_consistent_ext; [| | | | |exact Hc].
    + symmetry. exact (f_equal m_viewport Hcore).
    + symmetry. exact (f_equal m_viewportExtended Hcore).
    + symmetry. exact (f_equal m_pIndex Hcore).
    + symmetry. exact (f_equal m_offsetsInViewport Hcore).
    + symmetry. exact (f_equal m_bOffsetsCacheIsValid Hcore).
Qed.

(** X2.  [SetViewport] is idempotent: with an index at hand and a rectangle
    that [operator !=] does not tell from itself, a second call with the same
    rectangle changes nothing and returns normally. *)
Theorem SetViewport_idempotent (viewport : RectD) (w : World) (mwmInfo : Index) :
  RectD_ne viewport viewport = false ->
  m_pIndex (query w) = Some mwmInfo ->
  SetViewport viewport (snd (SetViewport viewport w)) =
  (Done tt, snd (SetViewport viewport w)).
Proof.
  intros Hrefl Hidx. unfold SetViewport at 2 3. unfold bind, get. simpl.
  destruct (RectD_ne (m_viewport (query w)) viewport || negb (m_bOffsetsCacheIsValid (query w)))
    eqn:Hgo.
  - unfold UpdateViewportOffsets, bind, get, modify. simpl. rewrite Hidx. simpl.
    unfold SetViewport, bind, get. simpl. rewrite Hrefl. reflexivity.
  - simpl. unfold SetViewport, bind, get. rewrite Hgo. reflexivity.
Qed.

(** X3.  After [ClearCache] the cache is empty and marked invalid, nothing
    else of the query object changes, and the next [SetViewport] rebuilds the
    cache even for the rectangle that is already the viewport. *)
Theorem ClearCache_then_SetViewport (w : World) (mwmInfo : Index) :
  m_pIndex (query w) = Some mwmInfo ->
  let w1 := snd (ClearCache w) in
  let q2 := query (snd (SetViewport (m_viewport (query w)) w1)) in
  m_offsetsInViewport (query w1) = [] /\
  m_bOffsetsCacheIsValid (query w1) = false /\
  set_offsets [] false (query w) = query w1 /\
  res w1 = res w /\
  fst (SetViewport (m_viewport (query w)) w1) = Done tt /\
  m_bOffsetsCacheIsValid q2 = true /\
  m_offsetsInViewport q2 = map (UpdateViewportOffsets_mwm q2) mwmInfo /\
  length (m_offsetsInViewport q2) = length mwmInfo.
Proof.
  intros Hidx. simpl. unfold ClearCache, modify. simpl.
  unfold SetViewport, bind, get. simpl. rewrite orb_true_r. simpl.
  unfold UpdateViewportOffsets, bind, get, modify. simpl. rewrite Hidx. simpl.
  repeat split. apply length_map.
Qed.
End ViewportCalls.

(** ** Shape of the cache *)

Section CacheShape.
Context {Geo : Geometry} {Txt : Text} {Tiles : TileData} {Rk : Ranking}.

(** X4.  [UpdateViewportOffsets] with an index at hand returns normally,
    marks the cache valid and leaves one entry per tile.  An entry is empty
    unless its tile meets the extended viewport, can be locked to a value
    and is of type country; every offset of an entry was reported by the
    tile's geometry index. *)
Theorem UpdateViewportOffsets_entries (w : World) (mwmInfo : list Mwm) :
  m_pIndex (query w) = Some mwmInfo ->
  let q1 := query (snd (UpdateViewportOffsets w)) in
  fst (UpdateViewportOffsets w) = Done tt /\
  m_bOffsetsCacheIsValid q1 = true /\
  length (m_offsetsInViewport q1) = length mwmInfo /\
  (forall i mwm, mwmInfo !! i = Some mwm ->
     exists entry,
       m_offsetsInViewport q1 !! i = Some entry /\
       forall offset, In offset entry ->
         IsIntersect (m_viewportExtended (query w)) (m_limitRect mwm) = true /\
         exists pMwm, MwmLock_GetValue mwm = Some pMwm /\
                      header_GetType pMwm = country /\
                      In offset (reported_offsets (query w) pMwm)).
Proof.
  intros Hidx. simpl.
  rewrite (UpdateViewportOffsets_cache w mwmInfo Hidx).
  unfold UpdateViewportOffsets, bind, get, modify. simpl. rewrite Hidx. simpl.
  split; [reflexivity|]. split; [reflexivity|]. split; [apply length_map|].
  intros i mwm Hi. rewrite lookup_map, Hi. simpl. eexists. split; [reflexivity|].
  intros offset. unfold UpdateViewportOffsets_mwm.
  destruct (IsIntersect _ _); [|intros []].
  destruct (MwmLock_GetValue mwm) as [pMwm|]; [|intros []].
  destruct (header_GetType pMwm) eqn:Hty; simpl; try (intros []).
  intros Hin. split; [reflexivity|]. exists pMwm. repeat split; auto.
  eapply Permutation_in; [apply sort_Permutation|exact Hin].
Qed.
End CacheShape.

(** ** The best name is the first of least penalty *)

Section BestNameOrder.
Context {Geo : Geometry} {Txt : Text} {Tiles : TileData} {Rk : Ranking}.

Lemma ForEachNameRef_first_least sc names : forall penalty name b p n,
  ForEachNameRef names (BestNameFinder sc) (penalty, name) = (b, (p, n)) ->
  b = true /\ p <= penalty /\
  (forall lang nm, In (lang, nm) names -> p <= Score sc lang nm) /\
  (p = penalty -> n = name) /\
  (p < penalty ->
   exists before lang after,
     names = before ++ (lang, n) :: after /\ Score sc lang n = p /\
     forall lang' nm', In (lang', nm') before -> p < Score sc lang' nm').
Proof.
  induction names as [|[lang0 n0] names IH]; intros penalty name b p n; simpl.
  - intros [= <- <- <-]. repeat split; auto; try lia.
  - unfold BestNameFinder at 1. simpl.
    destruct (Z.ltb_spec (Score sc lang0 n0) penalty) as [Hlt|Hge]; intros Hrun;
      destruct (IH _ _ _ _ _ Hrun) as (Hb & Hle & Hall & Hsame & Hfirst).
    + split; [exact Hb|]. split; [lia|]. split; [|split; [lia|]].
      * intros lang nm [[= <- <-]|Hin]; [exact Hle|apply Hall, Hin].
      * intros _. destruct (Z.eq_dec p (Score sc lang0 n0)) as [Heq|Hne].
        -- exists [], lang0, names. rewrite (Hsame Heq). repeat split; auto.
           intros lang' nm' [].
        -- destruct (Hfirst ltac:(lia)) as (before & lang & after & -> & Hs & Hbefore).
           exists ((lang0, n0) :: before), lang, after. repeat split; auto.
           intros lang' nm' [[= <- <-]|Hin]; [lia|apply Hbefore, Hin].
    + split; [exact Hb|]. split; [exact Hle|]. split; [|split; [exact Hsame|]].
      * intros lang nm [[= <- <-]|Hin]; [lia|apply Hall, Hin].
      * intros Hp. destruct (Hfirst Hp) as (before & lang & after & -> & Hs & Hbefore).
        exists ((lang0, n0) :: before), lang, after. repeat split; auto.
        intros lang' nm' [[= <- <-]|Hin]; [lia|apply Hbefore, Hin].
Qed.

(** X5.  The penalty [GetBestMatchName] returns is the least score over the
    names of the feature, capped at [2^32 - 1]; when it is below the cap, the
    returned name is the first name of the feature, in iteration order, that
    reaches it: every name before it scores strictly more. *)
Theorem GetBestMatchName_first_least sc (f : FeatureType) (name0 : string) :
  let r := GetBestMatchName sc f name0 in
  fst r <= uint32_max /\
  (forall lang name, In (lang, name) (feature_names f) -> fst r <= Score sc lang name) /\
  (fst r < uint32_max ->
   exists before lang after,
     feature_names f = before ++ (lang, snd r) :: after /\
     Score sc lang (snd r) = fst r /\
     forall lang' name', In (lang', name') before -> fst r < Score sc lang' name').
Proof.
  simpl. unfold GetBestMatchName.
  destruct (ForEachNameRef _ _ _) as [b [p n]] eqn:Hrun. simpl.
  destruct (ForEachNameRef_first_least _ _ _ _ _ _ _ Hrun) as (_ & Hle & Hall & _ & Hfirst).
  auto.
Qed.
End BestNameOrder.

(** ** The comparison and the ranks of indexed values *)

Section IndexOrder.
Context {Geo : Geometry} {Txt : Text} {Tiles : TileData} {Rk : Ranking}.

(** X6.  On index arrays of one size [IndexedValue::operator<] is a strict
    total order of the arrays: never both ways, transitive, and two values
    are incomparable exactly when their arrays are equal.  So it is a
    comparator [std::sort] may be given. *)
Theorem IndexedValue_less_total_order (x y z : IndexedValue) :
  length (m_ind x) = length (m_ind y) ->
  length (m_ind y) = length (m_ind z) ->
  IndexedValue_less x x = false /\
  (IndexedValue_less x y = true -> IndexedValue_less y x = false) /\
  (IndexedValue_less x y = true -> IndexedValue_less y z = true ->
   IndexedValue_less x z = true) /\
  (IndexedValue_less x y = false /\ IndexedValue_less y x = false <->
   m_ind x = m_ind y).
Proof.
  intros Hxy Hyz. unfold IndexedValue_less.
  split; [apply ind_less_irrefl|]. split; [|split].
  - intros Hlt. destruct (ind_less (m_ind y) (m_ind x)) eqn:Hrev; [|reflexivity].
    pose proof (ind_less_trans _ _ _ Hxy (eq_sym Hxy) Hlt Hrev) as Hxx.
    rewrite ind_less_irrefl in Hxx. discriminate.
  - apply ind_less_trans; assumption.
  - split.
    + intros [H1 H2]. apply ind_less_incomp; assumption.
    + intros ->. rewrite ind_less_irrefl. auto.
Qed.

Lemma assign_ranks_from_bound i comp l : forall prev rank,
  Forall (fun x => (i < length (m_ind x))%nat) l ->
  Forall (fun e => exists k, m_ind e !! i = Some k /\
                             rank <= k <= rank + Z.of_nat (length l))
         (assign_ranks_from i comp prev rank l).
Proof.
  induction l as [|x l IH]; intros prev rank Hlen; simpl; [constructor|].
  apply Forall_cons in Hlen as [Hx Hlen].
  set (rank' := if comp prev x then rank + 1 else rank).
  assert (Hr : rank <= rank' <= rank + 1) by (unfold rank'; destruct (comp prev x); lia).
  constructor.
  - exists rank'. split; [|lia]. unfold SetIndex; simpl.
    apply list_lookup_insert_eq. exact Hx.
  - eapply Forall_impl; [apply (IH _ rank' Hlen)|]. simpl.
    intros e (k & Hk & Hb). exists k. split; [exact Hk|lia].
Qed.

(** X7.  One turn of the ranking loop.  After the turn for criterion [i]
    with a strict weak ordering [less], the positions in slot [i] start at 0
    and stay below the number of candidates; a candidate has a smaller
    position than another exactly when it is strictly better, and two
    candidates share a position exactly when neither is better. *)
Theorem rank_by_positions (i : nat) (less : PreResult2 -> PreResult2 -> bool)
    (indV : list IndexedValue) (x y : IndexedValue) :
  StrictWeakOrder less ->
  (i < m_qCount)%nat ->
  well_formed indV ->
  x ∈ rank_by i less indV ->
  y ∈ rank_by i less indV ->
  exists kx ky,
    m_ind x !! i = Some kx /\ m_ind y !! i = Some ky /\
    0 <= kx < Z.of_nat (length indV) /\
    (less (m_val x) (m_val y) = true <-> kx < ky) /\
    (less (m_val x) (m_val y) = false /\ less (m_val y) (m_val x) = false <-> kx = ky).
Proof.
  intros Hswo Hi Hwf Hx Hy.
  destruct (rank_by_Ranked i less Hswo indV Hi Hwf x y Hx Hy) as (kx & ky & Hkx & Hky & Hlt & Hle).
  destruct (rank_by_Ranked i less Hswo indV Hi Hwf y x Hy Hx) as (ky' & kx' & Hky' & Hkx' & Hlt' & Hle').
  rewrite Hky in Hky'. rewrite Hkx in Hkx'. injection Hky' as <-. injection Hkx' as <-.
  exists kx, ky. split; [exact Hkx|]. split; [exact Hky|]. split; [|split].
  - assert (Hlen : Forall (fun e => (i < length (m_ind e))%nat)
                          (Std.sort (CompareT less) indV)).
    { rewrite (sort_Permutation (CompareT less) indV).
      eapply Forall_impl; [exact Hwf|]. simpl. intros e ->. exact Hi. }
    unfold rank_by in Hx.
    rewrite <- (Permutation_length (sort_Permutation (CompareT less) indV)).
    destruct (Std.sort (CompareT less) indV) as [|e l]; simpl in Hx; [inversion Hx|].
    apply Forall_cons in Hlen as [He Hl].
    apply elem_of_cons in Hx as [->|Hx].
    + unfold SetIndex in Hkx; simpl in Hkx.
      rewrite list_lookup_insert_eq in Hkx by exact He. injection Hkx as <-.
      simpl. lia.
    + pose proof (assign_ranks_from_bound i (CompareT less) l (SetIndex i 0 e) 0 Hl) as Hb.
      rewrite Forall_forall in Hb. destruct (Hb x Hx) as (k & Hk & Hrange).
      rewrite Hkx in Hk. injection Hk as <-. simpl. lia.
  - split; [exact Hlt|]. intros Hk.
    destruct (less (m_val x) (m_val y)) eqn:E; [reflexivity|]. specialize (Hle' eq_refl). lia.
  - split.
    + intros [H1 H2]. specialize (Hle H2). specialize (Hle' H1). lia.
    + intros Heq. split.
      * destruct (less (m_val x) (m_val y)) eqn:E; [specialize (Hlt eq_refl); lia|reflexivity].
      * destruct (less (m_val y) (m_val x)) eqn:E; [specialize (Hlt' eq_refl); lia|reflexivity].
Qed.

Lemma SortIndex_sorted x : StronglySorted Z.le (m_ind (SortIndex x)).
Proof.
  unfold SortIndex; simpl. apply ordered_Zltb, (sort_ordered _ _ Zltb_swo), Forall_forall.
  auto.
Qed.

(** X8.  The ranking stage neither drops nor invents a candidate: the
    vector in emission order holds the candidates it was given, each as often
    as before.  Every index array in it is in ascending order, and the vector
    is in order under [IndexedValue::operator<]: no element is less than an
    earlier one. *)
Theorem combined_order_arrangement (indV : list IndexedValue) :
  well_formed indV ->
  Permutation (map m_val (combined_order indV)) (map m_val indV) /\
  length (combined_order indV) = length indV /\
  Forall (fun x => StronglySorted Z.le (m_ind x) /\ length (m_ind x) = m_qCount)
         (combined_order indV) /\
  (forall i j a b, combined_order indV !! i = Some a -> combined_order indV !! j = Some b ->
                   (i < j)%nat -> IndexedValue_less b a = false).
Proof.
  intros Hwf.
  assert (HwfS : well_formed (map SortIndex (rank_by_all 0 g_arrCompare2 indV))).
  { apply SortIndex_well_formed, rank_by_all_well_formed, Hwf. }
  split; [apply combined_order_val|]. split; [|split].
  - rewrite <- (length_map m_val), (Permutation_length (combined_order_val indV)).
    apply length_map.
  - unfold combined_order. rewrite sort_Permutation.
    unfold well_formed in HwfS. rewrite Forall_forall in HwfS |- *.
    intros x Hx. split; [|apply HwfS, Hx].
    apply list_elem_of_In, in_map_iff in Hx as (x0 & <- & _). apply SortIndex_sorted.
  - intros i j a b Hi Hj Hij.
    pose proof (sort_ordered _ _ IndexedValue_less_swo _ HwfS) as Hord.
    exact (ordered_lookup _ _ _ _ _ _ Hord Hi Hj Hij).
Qed.
End IndexOrder.

(** ** Rules for triples *)

Section TripleRules.
Context {Geo : Geometry} {Txt : Text} {Tiles : TileData} {Rk : Ranking}.

Lemma hoare_conseq {A} (P P' : World -> Prop) (m : M A)
    (Qd Qd' : A -> World -> Prop) (Qc Qc' Qf Qf' : World -> Prop) :
  hoare P m Qd Qc Qf ->
  (forall w, P' w -> P w) ->
  (forall a w, Qd a w -> Qd' a w) ->
  (forall w, Qc w -> Qc' w) ->
  (forall w, Qf w -> Qf' w) ->
  hoare P' m Qd' Qc' Qf'.
Proof.
  intros Hm HP Hd Hc Hf w Hw. specialize (Hm w (HP w Hw)).
  destruct (fst (m w)); simpl in *; auto.
Qed.

Lemma hoare_ret {A} (P : World -> Prop) (a : A) Qd Qc Qf :
  (forall w, P w -> Qd a w) -> hoare P (ret a) Qd Qc Qf.
Proof. intros H w Hw. simpl. auto. Qed.

Lemma hoare_throw {A} (P : World -> Prop) (Qd : A -> World -> Prop) Qc Qf :
  (forall w, P w -> Qc w) -> hoare P throw Qd Qc Qf.
Proof. intros H w Hw. simpl. auto. Qed.

Lemma hoare_fault {A} (P : World -> Prop) (Qd : A -> World -> Prop) Qc Qf :
  (forall w, P w -> Qf w) -> hoare P fault Qd Qc Qf.
Proof. intros H w Hw. simpl. auto. Qed.

Lemma hoare_bind {A B} (P : World -> Prop) (m : M A) (k : A -> M B)
    (R : A -> World -> Prop) Qd Qc Qf :
  hoare P m R Qc Qf ->
  (forall a, hoare (R a) (k a) Qd Qc Qf) ->
  hoare P (bind m k) Qd Qc Qf.
Proof.
  intros Hm Hk w Hw. specialize (Hm w Hw). unfold bind.
  destruct (m w) as [[a| |] w1]; simpl in *; auto.
  apply Hk. exact Hm.
Qed.

Lemma hoare_get_bind {B} (P : World -> Prop) (k : Query -> M B) Qd Qc Qf :
  (forall q, hoare (fun w => P w /\ query w = q) (k q) Qd Qc Qf) ->
  hoare P (bind get k) Qd Qc Qf.
Proof. intros Hk w Hw. unfold bind, get. apply (Hk (query w) w). auto. Qed.

Lemma hoare_for_each {A} (I : World -> Prop) (l : list A) (body : A -> M unit) Qc Qf :
  (forall x, In x l -> hoare I (body x) (fun _ => I) Qc Qf) ->
  hoare I (for_each l body) (fun _ => I) Qc Qf.
Proof.
  induction l as [|x l IH]; intros Hb; simpl.
  - apply hoare_ret. auto.
  - eapply hoare_bind; [apply Hb; left; reflexivity|].
    intros []. apply IH. intros y Hy. apply Hb. right. exact Hy.
Qed.

Lemma hoare_pre {A} (P P' : World -> Prop) (m : M A) Qd Qc Qf :
  hoare P m Qd Qc Qf -> (forall w, P' w -> P w) -> hoare P' m Qd Qc Qf.
Proof. intros Hm HP w Hw. apply Hm, HP, Hw. Qed.

Lemma hoare_pre_fact {A} (F : Prop) (P : World -> Prop) (m : M A) Qd Qc Qf :
  (forall w, P w -> F) -> (F -> hoare P m Qd Qc Qf) -> hoare P m Qd Qc Qf.
Proof. intros HF Hm w Hw. apply (Hm (HF w Hw)). exact Hw. Qed.

Lemma hoare_keeps {A} (P : World -> Prop) (m : M A) :
  keeps P m -> hoare P m (fun _ => P) P P.
Proof.
  intros Hk w Hw. specialize (Hk w Hw). destruct (fst (m w)); simpl; exact Hk.
Qed.
End TripleRules.

(** ** The feature search under an invariant *)

Section SearchInvariant.
Context {Geo : Geometry} {Txt : Text} {Tiles : TileData} {Rk : Ranking}.
Variable c : Query.
Variable J Bad : World -> Prop.
Hypothesis J_read_cancel : keeps J read_cancel.
Hypothesis J_add : forall val mwmID,
    passes c mwmID (m_featureId val) -> keeps J (AddResultFromTrie val mwmID).
Hypothesis Hsafe : searchable c \/ (forall w, query_core w = c -> J w -> Bad w).

Let Inv (w : World) : Prop := query_core w = c /\ J w.
Let Thrown (w : World) : Prop := Inv w /\ m_cancel (query w) = true.

Lemma Inv_fault {A} (Qd : A -> World -> Prop) Qc :
  (searchable c -> False) -> hoare Inv fault Qd Qc Bad.
Proof.
  intros Hno. apply hoare_fault. intros w [Hc HJ].
  destruct Hsafe as [Hs|Hb]; [destruct (Hno Hs)|apply Hb; assumption].
Qed.

Lemma Inv_read_cancel Qc Qf :
  hoare Inv read_cancel (fun b w => Inv w /\ m_cancel (query w) = b) Qc Qf.
Proof.
  intros w [Hc HJ]. simpl. split; [|reflexivity]. split.
  - rewrite <- Hc. unfold query_core. simpl. destruct (query w). reflexivity.
  - apply (J_read_cancel w HJ).
Qed.

Lemma Inv_find_categories edges :
  (searchable c -> Forall (fun e => m_str e <> []) edges) ->
  hoare Inv (find_categories edges)
        (fun r w => Inv w /\
           (r = None -> ~ Exists (fun e => head (m_str e) = Some CATEGORIES_LANG) edges))
        Thrown Bad.
Proof.
  induction edges as [|e edges IH]; intros Hne; simpl.
  - apply hoare_ret. intros w Hw. split; [exact Hw|]. intros _ Hex. inversion Hex.
  - destruct (m_str e) as [|c0 rest] eqn:Hstr.
    + apply Inv_fault. intros Hs. specialize (Hne Hs).
      apply Forall_cons in Hne as [He _]. congruence.
    + destruct (Z.eqb_spec c0 CATEGORIES_LANG) as [->|Hc0].
      * apply hoare_ret. intros w Hw. split; [exact Hw|discriminate].
      * eapply hoare_conseq; [apply IH| | |auto|auto].
        -- intros Hs. specialize (Hne Hs). apply Forall_cons in Hne as [_ Hne]. exact Hne.
        -- auto.
        -- intros r w [Hw Hr]. split; [exact Hw|]. intros -> Hex.
           apply Exists_cons in Hex as [Hhd|Hex]; [|exact (Hr eq_refl Hex)].
           rewrite Hstr in Hhd. simpl in Hhd. congruence.
Qed.

Lemma Inv_SearchFeatures_mwm (mwmInfo : list Mwm) tokens langs mwmId mwm :
  m_pIndex c = Some mwmInfo ->
  mwmInfo !! mwmId = Some mwm ->
  hoare Inv (SearchFeatures_mwm tokens langs true mwmId mwm) (fun _ => Inv) Thrown Bad.
Proof.
  intros Hidx Hmwm. unfold SearchFeatures_mwm. apply hoare_get_bind. intros q.
  apply hoare_pre_fact with (F := set_results [] (set_cancel false q) = c).
  { intros w [[Hcore _] Hq]. subst q. exact Hcore. }
  intros Hqc.
  apply hoare_conseq with (P := Inv) (Qd := fun _ => Inv) (Qc := Thrown) (Qf := Bad);
    try tauto.
  simpl negb. rewrite orb_false_l.
  destruct (IsIntersect (m_viewportExtended q) (m_limitRect mwm)) eqn:Hint;
    [|apply hoare_ret; tauto].
  destruct (MwmLock_GetValue mwm) as [pMwm|] eqn:Hval; [|apply hoare_ret; tauto].
  destruct (search_trie pMwm) as [edges|] eqn:Htrie; [|apply hoare_ret; tauto].
  assert (Hwf : searchable c ->
            Forall (fun e => m_str e <> []) edges /\
            Exists (fun e => head (m_str e) = Some CATEGORIES_LANG) edges /\
            length (m_offsetsInViewport c) = length mwmInfo).
  { intros (mwmInfo' & Hidx' & Hlen & Htries).
    assert (mwmInfo' = mwmInfo) by congruence. subst mwmInfo'.
    destruct (Htries mwm pMwm edges) as [Hne Hcat]; auto.
    apply list_elem_of_In. eapply list_elem_of_lookup_2. exact Hmwm. }
  eapply hoare_bind; [apply Inv_find_categories; intros Hs; apply (Hwf Hs)|].
  intros r.
  apply hoare_pre_fact
    with (F := r = None ->
               ~ Exists (fun e => head (m_str e) = Some CATEGORIES_LANG) edges);
    [tauto|].
  intros Hr.
  apply hoare_conseq with (P := Inv) (Qd := fun _ => Inv) (Qc := Thrown) (Qf := Bad);
    try tauto.
  apply hoare_for_each. intros e He.
  destruct (m_str e) as [|c0 rest] eqn:Hstr.
  { apply Inv_fault. intros Hs. destruct (Hwf Hs) as (Hne & _ & _).
    rewrite Forall_forall in Hne.
    apply (Hne e (proj2 (list_elem_of_In _ _) He)). exact Hstr. }
  destruct ((c0 <? CATEGORIES_LANG) && _); [|apply hoare_ret; tauto].
  destruct r as [catRoot|].
  2:{ apply Inv_fault. intros Hs. destruct (Hwf Hs) as (_ & Hcat & _).
      exact (Hr eq_refl Hcat). }
  unfold SearchFeatures_filter.
  destruct (m_offsetsInViewport q !! mwmId) as [offsets|] eqn:Hoff.
  2:{ apply Inv_fault. intros Hs. destruct (Hwf Hs) as (_ & _ & Hlen).
      apply lookup_ge_None in Hoff.
      replace (m_offsetsInViewport q) with (m_offsetsInViewport c) in Hoff
        by (rewrite <- Hqc; reflexivity).
      apply lookup_lt_Some in Hmwm. lia. }
  unfold MatchFeaturesInTrie. apply hoare_for_each. intros v _.
  eapply hoare_bind with
    (R := fun pass w => Inv w /\
            pass = MapType_eqb (header_GetType pMwm) world ||
                   Std.binary_search offsets (m_featureId v)).
  - unfold FeaturesFilter. eapply hoare_bind; [apply Inv_read_cancel|].
    intros [|]; [apply hoare_throw; unfold Thrown; tauto|apply hoare_ret; tauto].
  - intros pass. destruct pass.
    + intros w [[Hcore HJ] Hpass]. unfold FeatureLoader.
      assert (Hp : passes c mwmId (m_featureId v)).
      { exists mwmInfo, mwm, pMwm, offsets.
        split; [exact Hidx|]. split; [exact Hmwm|]. split.
        { rewrite <- Hqc. exact Hint. }
        split; [exact Hval|]. split; [congruence|]. split.
        { rewrite <- Hqc. exact Hoff. }
        symmetry in Hpass. apply orb_true_iff in Hpass as [Hw|Hb]; [left|right; exact Hb].
        destruct (header_GetType pMwm); try discriminate. reflexivity. }
      split; [|apply (J_add v mwmId Hp w HJ)].
      rewrite <- Hcore. unfold AddResultFromTrie, modify, query_core. simpl.
      destruct (query w). reflexivity.
    + apply hoare_ret. tauto.
Qed.

Lemma Inv_SearchFeatures_from (mwmInfo : list Mwm) tokens langs l : forall mwmId,
  m_pIndex c = Some mwmInfo ->
  (forall i mwm, l !! i = Some mwm -> mwmInfo !! (mwmId + i)%nat = Some mwm) ->
  hoare Inv (SearchFeatures_from tokens langs true mwmId l) (fun _ => Inv) Thrown Bad.
Proof.
  induction l as [|mwm l IH]; intros mwmId Hidx Hl; simpl.
  - apply hoare_ret. auto.
  - eapply hoare_bind.
    + apply (Inv_SearchFeatures_mwm mwmInfo); [exact Hidx|].
      specialize (Hl 0%nat mwm eq_refl).
      rewrite Nat.add_0_r in Hl. exact Hl.
    + intros []. apply IH; [exact Hidx|]. intros i mwm' Hi.
      replace (S mwmId + i)%nat with (mwmId + S i)%nat by lia. apply Hl. exact Hi.
Qed.

(** The feature search keeps the invariant however it ends; it throws only
    with the flag set, and on a searchable query it does not run into
    undefined behaviour. *)
Lemma Inv_SearchFeatures :
  hoare Inv SearchFeatures (fun _ => Inv) Thrown Bad.
Proof.
  unfold SearchFeatures. apply hoare_get_bind. intros q.
  apply hoare_pre_fact with (F := set_results [] (set_cancel false q) = c).
  { intros w [[Hcore _] Hq]. subst q. exact Hcore. }
  intros Hqc.
  apply hoare_conseq with (P := Inv) (Qd := fun _ => Inv) (Qc := Thrown) (Qf := Bad);
    try tauto.
  destruct (m_pIndex q) as [mwmInfo|] eqn:Hqi; [|apply hoare_ret; tauto].
  unfold SearchFeatures_in.
  apply (Inv_SearchFeatures_from mwmInfo).
  - rewrite <- Hqc. exact Hqi.
  - intros i mwm Hi. exact Hi.
Qed.
End SearchInvariant.

(** ** Removal of adjacent duplicates *)

Section UniqueFacts.
Context {A : Type} (pred : A -> A -> bool).

Lemma unique_from_sublist l : forall kept, sublist (Std.unique_from pred kept l) l.
Proof.
  induction l as [|x l IH]; intros kept; simpl; [constructor|].
  destruct (pred kept x); [apply sublist_cons|apply sublist_skip]; apply IH.
Qed.

Lemma unique_sublist l : sublist (Std.unique pred l) l.
Proof.
  destruct l as [|x l]; simpl; [constructor|].
  apply sublist_skip, unique_from_sublist.
Qed.

Lemma unique_from_adjacent l : forall kept,
  (forall b, head (Std.unique_from pred kept l) = Some b -> pred kept b = false) /\
  (forall i a b, Std.unique_from pred kept l !! i = Some a ->
                 Std.unique_from pred kept l !! S i = Some b -> pred a b = false).
Proof.
  induction l as [|x l IH]; intros kept; simpl.
  - split; intros; discriminate.
  - destruct (pred kept x) eqn:Hp; [apply IH|].
    destruct (IH x) as [Hhd Hadj]. split.
    + simpl. intros b [= <-]. exact Hp.
    + intros [|i] a b; simpl.
      * intros [= <-] Hb. apply Hhd.
        destruct (Std.unique_from pred x l); simpl in *; congruence.
      * apply Hadj.
Qed.

Lemma unique_from_represented l : forall kept x,
  x ∈ l ->
  exists k, k ∈ kept :: Std.unique_from pred kept l /\ (k = x \/ pred k x = true).
Proof.
  induction l as [|y l IH]; intros kept x Hx; [inversion Hx|].
  simpl. apply elem_of_cons in Hx as [->|Hx].
  - destruct (pred kept y) eqn:Hp.
    + exists kept. split; [left|right; exact Hp].
    + exists y. split; [right; left|left; reflexivity].
  - destruct (pred kept y).
    + apply IH, Hx.
    + destruct (IH y x Hx) as (k & Hk & Hrel). exists k. split; [right; exact Hk|exact Hrel].
Qed.
End UniqueFacts.

Lemma sublist_map {A B} (f : A -> B) (l1 l2 : list A) :
  sublist l1 l2 -> sublist (map f l1) (map f l2).
Proof.
  induction 1; simpl; [constructor|apply sublist_skip|apply sublist_cons]; assumption.
Qed.

Section LinearDuplicates.
Context {Geo : Geometry} {Txt : Text} {Tiles : TileData} {Rk : Ranking}.

(** X9.  The step [// remove duplicating linear objects] of [FlushResults]
    keeps a subsequence of the vector sorted by [LessLinearTypesF], starting
    with its first element; no two neighbours of what is kept are equal
    under [EqualLinearTypesF]; and every candidate is kept or is equal,
    under [EqualLinearTypesF], to a kept one. *)
Theorem remove_duplicating_linear_spec (indV : list IndexedValue) :
  let sorted := Std.sort (CompareT LessLinearTypesF) indV in
  let kept := remove_duplicating_linear indV in
  sublist kept sorted /\
  head kept = head sorted /\
  (forall i a b, kept !! i = Some a -> kept !! S i = Some b ->
                 EqualLinearTypesF (m_val a) (m_val b) = false) /\
  (forall x, x ∈ indV ->
     exists k, k ∈ kept /\ (k = x \/ EqualLinearTypesF (m_val k) (m_val x) = true)).
Proof.
  intros sorted kept.
  assert (Hk : kept = Std.unique (fun a b => EqualLinearTypesF (m_val a) (m_val b)) sorted)
    by reflexivity.
  split; [|split; [|split]].
  - rewrite Hk. apply unique_sublist.
  - rewrite Hk. destruct sorted; reflexivity.
  - rewrite Hk. destruct sorted as [|x l]; simpl; [intros; discriminate|].
    destruct (unique_from_adjacent (fun a b => EqualLinearTypesF (m_val a) (m_val b)) l x)
      as [Hhd Hadj].
    intros [|i] a b; simpl.
    + intros [= <-] Hb. apply Hhd.
      destruct (Std.unique_from _ x l); simpl in *; congruence.
    + apply Hadj.
  - intros x Hx.
    assert (Hs : x ∈ sorted).
    { unfold sorted. rewrite sort_Permutation. exact Hx. }
    rewrite Hk. destruct sorted as [|y l]; [inversion Hs|]. simpl.
    apply elem_of_cons in Hs as [->|Hs].
    + exists y. split; [left|left; reflexivity].
    + apply unique_from_represented. exact Hs.
Qed.
End LinearDuplicates.

(** ** The unique set of hits *)

Section UniqueSet.
Context {Geo : Geometry} {Txt : Text} {Tiles : TileData} {Rk : Ranking}.

Lemma FeatureID_less_irrefl a : FeatureID_less a a = false.
Proof. unfold FeatureID_less. destruct a as [x n]. simpl. rewrite Z.ltb_irrefl, Nat.ltb_irrefl. reflexivity. Qed.

Lemma FeatureID_less_trans a b c :
  FeatureID_less a b = true -> FeatureID_less b c = true -> FeatureID_less a c = true.
Proof.
  unfold FeatureID_less. destruct a as [x n], b as [y m], c as [z k]. simpl.
  rewrite !orb_true_iff, !andb_true_iff, !negb_true_iff, !Z.ltb_lt, !Z.ltb_ge, !Nat.ltb_lt.
  lia.
Qed.

Lemma FeatureID_less_total a b :
  FeatureID_less a b = false -> FeatureID_less b a = false -> a = b.
Proof.
  unfold FeatureID_less. destruct a as [x n], b as [y m]. simpl.
  rewrite !orb_false_iff, !andb_false_iff, !negb_false_iff, !Z.ltb_lt, !Z.ltb_ge, !Nat.ltb_ge.
  intros [? ?] [? ?]. f_equal; lia.
Qed.

Let before (a b : PreResult1) : Prop := LessByFeatureID a b = true.

Lemma set_insert_elem x s y : y ∈ set_insert x s -> y = x \/ y ∈ s.
Proof.
  induction s as [|z s IH]; simpl.
  - intros Hy. apply list_elem_of_singleton in Hy. auto.
  - destruct (LessByFeatureID x z).
    + intros Hy. apply elem_of_cons in Hy as [->|Hy]; auto.
    + destruct (LessByFeatureID z x).
      * intros Hy. apply elem_of_cons in Hy as [->|Hy]; [right; left|].
        destruct (IH Hy) as [->|Hs]; [left; reflexivity|right; right; exact Hs].
      * auto.
Qed.

Lemma set_insert_sorted x s :
  StronglySorted before s -> StronglySorted before (set_insert x s).
Proof.
  induction s as [|z s IH]; simpl; intros Hs.
  - repeat constructor.
  - apply StronglySorted_inv in Hs as [Hs Hz].
    destruct (LessByFeatureID x z) eqn:Hxz.
    + constructor; [constructor; assumption|].
      constructor; [exact Hxz|].
      rewrite Forall_forall in Hz |- *. intros y Hy.
      unfold before, LessByFeatureID in *. eapply FeatureID_less_trans; [exact Hxz|auto].
    + destruct (LessByFeatureID z x) eqn:Hzx.
      * constructor; [apply IH, Hs|].
        rewrite Forall_forall in Hz |- *. intros y Hy.
        apply set_insert_elem in Hy as [->|Hy]; [exact Hzx|auto].
      * constructor; assumption.
Qed.

Lemma set_insert_holds x s :
  exists y, y ∈ set_insert x s /\ GetID y = GetID x.
Proof.
  induction s as [|z s IH]; simpl.
  - exists x. split; [left|reflexivity].
  - destruct (LessByFeatureID x z) eqn:Hxz.
    + exists x. split; [left|reflexivity].
    + destruct (LessByFeatureID z x) eqn:Hzx.
      * destruct IH as (y & Hy & Hid). exists y. split; [right; exact Hy|exact Hid].
      * exists z. split; [left|]. symmetry. apply FeatureID_less_total; assumption.
Qed.

Lemma set_insert_keeps x s y : y ∈ s -> y ∈ set_insert x s.
Proof.
  induction s as [|z s IH]; simpl; [inversion 1|].
  intros Hy. destruct (LessByFeatureID x z).
  - right. exact Hy.
  - destruct (LessByFeatureID z x); [|exact Hy].
    apply elem_of_cons in Hy as [->|Hy]; [left|right; auto].
Qed.

Lemma set_insert_length x s : (length (set_insert x s) <= S (length s))%nat.
Proof.
  induction s as [|z s IH]; simpl; [lia|].
  destruct (LessByFeatureID x z); simpl; [lia|].
  destruct (LessByFeatureID z x); simpl; lia.
Qed.

Let insert_range (l : list PreResult1) (s : list PreResult1) : list PreResult1 :=
  fold_left (fun s x => set_insert x s) l s.

Lemma insert_range_facts l : forall s,
  StronglySorted before s ->
  StronglySorted before (insert_range l s) /\
  (forall y, y ∈ insert_range l s -> y ∈ s \/ y ∈ l) /\
  (forall y, y ∈ s -> y ∈ insert_range l s) /\
  (forall x, x ∈ l -> exists y, y ∈ insert_range l s /\ GetID y = GetID x) /\
  (length (insert_range l s) <= length s + length l)%nat.
Proof.
  induction l as [|x l IH]; intros s Hs; simpl.
  - split; [exact Hs|]. split; [auto|]. split; [auto|]. split; [inversion 1|lia].
  - destruct (IH (set_insert x s) (set_insert_sorted x s Hs)) as (H1 & H2 & H3 & H4 & H5).
    split; [exact H1|]. split; [|split; [|split]].
    + intros y Hy. destruct (H2 y Hy) as [Hy'|Hy']; [|right; right; exact Hy'].
      apply set_insert_elem in Hy' as [->|Hy']; [right; left|left; exact Hy'].
    + intros y Hy. apply H3, set_insert_keeps, Hy.
    + intros x' Hx'. apply elem_of_cons in Hx' as [->|Hx']; [|apply H4, Hx'].
      destruct (set_insert_holds x s) as (y & Hy & Hid). exists y. split; [apply H3, Hy|exact Hid].
    + pose proof (set_insert_length x s). lia.
Qed.

(** [theSet] is strictly ascending by feature id; its elements are queued
    hits, every queued hit has its id in it, and it is no longer than the
    queues together. *)
Lemma make_theSet_facts results :
  StronglySorted before (make_theSet results) /\
  (forall y, y ∈ make_theSet results -> exists qu, qu ∈ results /\ y ∈ q_queue qu) /\
  (forall qu x, qu ∈ results -> x ∈ q_queue qu ->
     exists y, y ∈ make_theSet results /\ GetID y = GetID x) /\
  (length (make_theSet results) <=
     list_sum (map (fun qu => length (q_queue qu)) results))%nat.
Proof.
  unfold make_theSet.
  assert (Hgen : forall results s,
    StronglySorted before s ->
    let r := fold_left (fun theSet qu => insert_range (q_queue qu) theSet) results s in
    StronglySorted before r /\
    (forall y, y ∈ r -> y ∈ s \/ exists qu, qu ∈ results /\ y ∈ q_queue qu) /\
    (forall y, y ∈ s -> y ∈ r) /\
    (forall qu x, qu ∈ results -> x ∈ q_queue qu -> exists y, y ∈ r /\ GetID y = GetID x) /\
    (length r <= length s + list_sum (map (fun qu => length (q_queue qu)) results))%nat).
  { clear results. induction results as [|qu results IH]; intros s Hs; simpl.
    - split; [exact Hs|]. split; [auto|]. split; [auto|].
      split; [intros qu x Hqu; inversion Hqu|lia].
    - destruct (insert_range_facts (q_queue qu) s Hs) as (I1 & I2 & I3 & I4 & I5).
      destruct (IH _ I1) as (H1 & H2 & H3 & H4 & H5).
      split; [exact H1|]. split; [|split; [|split]].
      + intros y Hy. destruct (H2 y Hy) as [Hy'|(qu' & Hqu' & Hy')].
        * destruct (I2 y Hy') as [?|?]; [left; assumption|].
          right. exists qu. split; [left|assumption].
        * right. exists qu'. split; [right; exact Hqu'|exact Hy'].
      + intros y Hy. apply H3, I3, Hy.
      + intros qu' x Hqu' Hx. apply elem_of_cons in Hqu' as [->|Hqu'].
        * destruct (I4 x Hx) as (y & Hy & Hid). exists y. split; [apply H3, Hy|exact Hid].
        * eapply H4; eassumption.
      + lia. }
  destruct (Hgen results [] (SSorted_nil _)) as (H1 & H2 & H3 & H4 & H5).
  split; [exact H1|]. split; [|split; [exact H4|simpl in H5; exact H5]].
  intros y Hy. destruct (H2 y Hy) as [Hy'|Hy']; [inversion Hy'|exact Hy'].
Qed.

Lemma sorted_ids_NoDup s : StronglySorted before s -> NoDup (map GetID s).
Proof.
  induction 1 as [|x s Hs IH Hx]; simpl; [constructor|].
  apply NoDup_cons. split; [|exact IH].
  intros Hin. apply list_elem_of_In, in_map_iff in Hin as (y & Hid & Hy).
  rewrite Forall_forall in Hx. specialize (Hx y (proj2 (list_elem_of_In _ _) Hy)).
  unfold before, LessByFeatureID in Hx. rewrite Hid, FeatureID_less_irrefl in Hx.
  discriminate.
Qed.
End UniqueSet.

(** ** Promotion and emission in [FlushResults] *)

Lemma submseteq_map {A B} (f : A -> B) (l1 l2 : list A) :
  l1 ⊆+ l2 -> map f l1 ⊆+ map f l2.
Proof.
  induction 1; simpl.
  - constructor.
  - apply submseteq_skip. assumption.
  - apply submseteq_swap.
  - apply submseteq_cons. assumption.
  - etransitivity; eassumption.
Qed.

Lemma submseteq_NoDup {A} (l1 l2 : list A) : l1 ⊆+ l2 -> NoDup l2 -> NoDup l1.
Proof.
  intros Hsub Hnd. apply submseteq_Permutation in Hsub as [k Hk].
  rewrite Hk in Hnd. apply NoDup_app in Hnd as [Hnd _]. exact Hnd.
Qed.

Lemma NoDup_map_Some {A} (l : list A) : NoDup l -> NoDup (map Some l).
Proof.
  induction 1 as [|x l Hx Hl IH]; simpl; [constructor|].
  apply NoDup_cons. split; [|exact IH].
  intros Hin. apply list_elem_of_In, in_map_iff in Hin as (y & [= ->] & Hy).
  apply Hx, list_elem_of_In, Hy.
Qed.

Section PromotionFacts.
Context {Geo : Geometry} {Txt : Text} {Tiles : TileData} {Rk : Ranking}.

(** The maker leaves the world alone, never throws, needs the scorer only,
    and what it makes is a feature candidate of the hit it was given. *)
Lemma PreResult2Maker_run m_mwmInfo m_features r w :
  snd (PreResult2Maker m_mwmInfo m_features r w) = w /\
  fst (PreResult2Maker m_mwmInfo m_features r w) <> CancelException /\
  (m_pKeywordsScorer (query w) <> None ->
   fst (PreResult2Maker m_mwmInfo m_features r w) <> Fault) /\
  (forall p m_features',
     fst (PreResult2Maker m_mwmInfo m_features r w) = Done (Some p, m_features') ->
     feature_id p = Some (GetID r)).
Proof.
  unfold PreResult2Maker.
  destruct (match m_features !! snd (GetID r) with Some v => v | None => None end)
    as [v|].
  - unfold bind, get. simpl.
    destruct (m_pKeywordsScorer (query w)); simpl.
    + repeat split; try discriminate. intros p mf [= <- _]. reflexivity.
    + repeat split; try discriminate. congruence.
  - destruct (m_mwmInfo !! snd (GetID r)) as [mwm|];
      [destruct (MwmLock_GetValue mwm) as [pMwm|]|].
    + unfold bind, get. simpl.
      destruct (m_pKeywordsScorer (query w)); simpl.
      * repeat split; try discriminate. intros p mf [= <- _]. reflexivity.
      * repeat split; try discriminate. congruence.
    + simpl. repeat split; discriminate.
    + simpl. repeat split; discriminate.
Qed.

Lemma make_indV_run m_mwmInfo theSet : forall m_features indV0 w,
  snd (make_indV m_mwmInfo theSet m_features indV0 w) = w /\
  fst (make_indV m_mwmInfo theSet m_features indV0 w) <> CancelException /\
  (m_pKeywordsScorer (query w) <> None ->
   fst (make_indV m_mwmInfo theSet m_features indV0 w) <> Fault) /\
  (forall indV,
     fst (make_indV m_mwmInfo theSet m_features indV0 w) = Done indV ->
     exists sub,
       sublist sub theSet /\
       map (fun x => feature_id (m_val x)) indV =
         map (fun x => feature_id (m_val x)) indV0 ++ map (fun r => Some (GetID r)) sub).
Proof.
  induction theSet as [|r theSet IH]; intros m_features indV0 w; simpl.
  - repeat split; try discriminate. intros indV [= <-]. exists []. split; [constructor|].
    simpl. rewrite app_nil_r. reflexivity.
  - unfold bind.
    destruct (PreResult2Maker_run m_mwmInfo m_features r w) as (Hw & Hc & Hf & Hid).
    destruct (PreResult2Maker m_mwmInfo m_features r w) as [[[[p|] mf]| |] w1];
      simpl in *; subst w1.
    + specialize (Hid p mf eq_refl).
      destruct (Std.found _ indV0).
      * destruct (IH mf indV0 w) as (I1 & I2 & I3 & I4).
        repeat split; try assumption. intros indV HindV.
        destruct (I4 indV HindV) as (sub & Hsub & Hids).
        exists sub. split; [apply sublist_cons, Hsub|exact Hids].
      * destruct (IH mf (indV0 ++ [IndexedValue_ctor p]) w) as (I1 & I2 & I3 & I4).
        repeat split; try assumption. intros indV HindV.
        destruct (I4 indV HindV) as (sub & Hsub & Hids).
        exists (r :: sub). split; [apply sublist_skip, Hsub|].
        rewrite Hids, map_app. simpl. rewrite Hid, <- app_assoc. reflexivity.
    + destruct (IH mf indV0 w) as (I1 & I2 & I3 & I4).
      repeat split; try assumption. intros indV HindV.
      destruct (I4 indV HindV) as (sub & Hsub & Hids).
      exists sub. split; [apply sublist_cons, Hsub|exact Hids].
    + congruence.
    + repeat split; try discriminate. intros Hs. exfalso. apply (Hf Hs). reflexivity.
Qed.

Lemma emit_frame indV :
  stable (fun w => (query_core w, m_results (query w))) (emit indV).
Proof.
  induction indV as [|x indV IH]; simpl; [apply stable_ret|].
  apply stable_bind; [intros w; reflexivity|]. intros [|]; [apply stable_ret|].
  apply stable_bind; [intros w; reflexivity|]. intros _. exact IH.
Qed.

(** What is emitted comes, up to the order, from the promoted vector. *)
Lemma emitted_submseteq indV k :
  map m_val (take k (combined_order (remove_duplicating_linear indV))) ⊆+ map m_val indV.
Proof.
  etransitivity; [apply submseteq_map, submseteq_take|].
  etransitivity; [apply Permutation_submseteq, combined_order_val|].
  apply submseteq_map. etransitivity.
  - apply sublist_submseteq. unfold remove_duplicating_linear. apply unique_sublist.
  - apply Permutation_submseteq, sort_Permutation.
Qed.

(** [FlushResults], however the flag behaves: the sink gets the final
    results of feature candidates with pairwise different ids, each made
    from a hit some queue held, no more of them than hits were queued; the
    queues end up empty; the call never throws, and with an index and a
    scorer it ends normally. *)
Lemma FlushResults_structure w :
  exists emitted,
    res (snd (FlushResults w)) = res w ++ map GenerateFinalResult emitted /\
    NoDup (map feature_id emitted) /\
    Forall (fun p => exists r qu, feature_id p = Some (GetID r) /\
                       qu ∈ m_results (query w) /\ r ∈ q_queue qu) emitted /\
    (length emitted <= queued (query w))%nat /\
    fst (FlushResults w) <> CancelException /\
    (m_pIndex (query w) <> None -> m_pKeywordsScorer (query w) <> None ->
     fst (FlushResults w) = Done tt) /\
    Forall (fun qu => q_queue qu = []) (m_results (query (snd (FlushResults w)))) /\
    query_core (snd (FlushResults w)) = query_core w /\
    (fst (FlushResults w) <> Done tt -> emitted = []).
Proof.
  set (w0 := {| query := set_results (map clear (m_results (query w))) (query w);
                res := res w; cancelSignals := cancelSignals w |}).
  assert (Hempty : Forall (fun qu => q_queue qu = []) (m_results (query w0))).
  { simpl. apply Forall_map. apply Forall_forall. intros; reflexivity. }
  assert (Hnone : forall o,
            FlushResults w = (o, w0) -> o <> CancelException ->
            (m_pIndex (query w) <> None -> m_pKeywordsScorer (query w) <> None ->
             o = Done tt) ->
            exists emitted,
              res (snd (FlushResults w)) = res w ++ map GenerateFinalResult emitted /\
              NoDup (map feature_id emitted) /\
              Forall (fun p => exists r qu, feature_id p = Some (GetID r) /\
                                 qu ∈ m_results (query w) /\ r ∈ q_queue qu) emitted /\
              (length emitted <= queued (query w))%nat /\
              fst (FlushResults w) <> CancelException /\
              (m_pIndex (query w) <> None -> m_pKeywordsScorer (query w) <> None ->
               fst (FlushResults w) = Done tt) /\
              Forall (fun qu => q_queue qu = []) (m_results (query (snd (FlushResults w)))) /\
              query_core (snd (FlushResults w)) = query_core w /\
              (fst (FlushResults w) <> Done tt -> emitted = [])).
  { intros o Hrun Hc Hd. exists []. rewrite Hrun. simpl. rewrite app_nil_r.
    split; [reflexivity|]. split; [constructor|]. split; [constructor|].
    split; [lia|]. split; [exact Hc|]. split; [exact Hd|]. split; [exact Hempty|].
    split; [|reflexivity].
    unfold query_core. simpl. destruct (query w). reflexivity. }
  destruct (m_pIndex (query w)) as [mwmInfo|] eqn:Hidx.
  2:{ apply (Hnone Fault); [|discriminate|congruence].
      unfold FlushResults, FlushResults_promote, bind, get, modify. simpl.
      rewrite Hidx. reflexivity. }
  set (theSet := make_theSet (m_results (query w))).
  assert (Hp : FlushResults_promote w = make_indV mwmInfo theSet ∅ [] w0).
  { unfold FlushResults_promote, bind, get, modify. simpl. rewrite Hidx. reflexivity. }
  destruct (make_indV_run mwmInfo theSet ∅ [] w0) as (Hw & Hc & Hf & Hids).
  destruct (make_indV mwmInfo theSet ∅ [] w0) as [[indV| |] w1] eqn:Hmk;
    simpl in Hw, Hc, Hf, Hids; subst w1.
  - destruct (Hids indV eq_refl) as (sub & Hsub & Hid). simpl in Hid.
    set (final := combined_order (remove_duplicating_linear indV)).
    destruct (emit_spec final w0) as (k & w' & Hrun & Hout & _).
    pose proof (emit_frame final w0) as Hframe. rewrite Hrun in Hframe.
    simpl in Hframe. apply pair_equal_spec in Hframe as [Hcore Hqueues].
    assert (HF : FlushResults w = (Done tt, w')).
    { unfold FlushResults, bind. rewrite Hp. exact Hrun. }
    pose proof (emitted_submseteq indV k) as Hsubm. fold final in Hsubm.
    destruct (make_theSet_facts (m_results (query w))) as (Hsorted & Hfrom & _ & Hlen).
    fold theSet in Hsorted, Hfrom, Hlen.
    exists (map m_val (take k final)). rewrite HF. simpl.
    split; [|split; [|split; [|split; [|split; [|split; [|split; [|split]]]]]]].
    + rewrite Hout. simpl. rewrite map_map. reflexivity.
    + eapply submseteq_NoDup; [apply submseteq_map, Hsubm|].
      rewrite map_map, Hid, <- (map_map GetID Some). apply NoDup_map_Some.
      eapply sublist_NoDup; [|apply sublist_map, Hsub].
      apply sorted_ids_NoDup, Hsorted.
    + apply Forall_forall. intros p Hp'.
      eapply elem_of_submseteq in Hp'; [|exact Hsubm].
      apply list_elem_of_In, in_map_iff in Hp' as (x & <- & Hx).
      assert (Hin : In (feature_id (m_val x)) (map (fun r => Some (GetID r)) sub)).
      { rewrite <- Hid. apply in_map_iff. exists x. auto. }
      apply in_map_iff in Hin as (r & Hr & Hrs).
      apply list_elem_of_In in Hrs. eapply elem_of_sublist in Hrs; [|exact Hsub].
      destruct (Hfrom r Hrs) as (qu & Hqu & Hrq).
      exists r, qu. auto.
    + apply submseteq_length in Hsubm. rewrite !length_map in Hsubm.
      rewrite length_map.
      assert (Hl : length indV = length sub).
      { rewrite <- (length_map (fun x => feature_id (m_val x)) indV), Hid, length_map.
        reflexivity. }
      apply sublist_length in Hsub. unfold queued. lia.
    + discriminate.
    + reflexivity.
    + rewrite Hqueues. exact Hempty.
    + rewrite Hcore. unfold query_core. simpl. destruct (query w). reflexivity.
    + congruence.
  - congruence.
  - apply (Hnone Fault); [|discriminate|].
    + unfold FlushResults, bind. rewrite Hp. reflexivity.
    + intros _ Hs. exfalso. apply Hf; [exact Hs|reflexivity].
Qed.
End PromotionFacts.

(** ** A whole [Search] call *)

Section SearchRun.
Context {Geo : Geometry} {Txt : Text} {Tiles : TileData} {Rk : Ranking}.

Lemma for_each_emit_run {A} (cond : A -> bool) (gen : A -> Result) l : forall w,
  for_each l (fun it => if cond it then AddResult (gen it) else ret tt) w =
  (Done tt, {| query := query w; res := res w ++ map gen (List.filter cond l);
               cancelSignals := cancelSignals w |}).
Proof.
  induction l as [|x l IH]; intros w; simpl.
  - rewrite app_nil_r. destruct w. reflexivity.
  - unfold bind. destruct (cond x); simpl.
    + rewrite IH. simpl. rewrite <- app_assoc. reflexivity.
    + apply IH.
Qed.

(** [SuggestStrings] ends normally and adds the suggestions, nothing else. *)
Lemma SuggestStrings_run w :
  SuggestStrings w =
  (Done tt, {| query := query w; res := res w ++ suggestions (query w);
               cancelSignals := cancelSignals w |}).
Proof.
  assert (Hnil : (Done tt, w) =
                 (Done tt, {| query := query w; res := res w ++ [];
                              cancelSignals := cancelSignals w |})).
  { rewrite app_nil_r. destruct w. reflexivity. }
  unfold SuggestStrings, suggestions, bind, get. simpl.
  destruct (m_pStringsToSuggest (query w)) as [strings|] eqn:Hd; [|exact Hnil].
  destruct (suggest_target _ _) as [target|]; [|exact Hnil].
  unfold MatchForSuggestions, bind, get. simpl. rewrite Hd.
  apply (for_each_emit_run
           (fun it => Nat.leb (snd it) (length target) && StartsWith (fst it) target)
           (fun it => GenerateFinalResult (PreResult2_suggest (ToUtf8 (fst it)) (snd it)))).
Qed.

Lemma queued_bound resultsNeeded w :
  queues_ok resultsNeeded w -> length (m_results (query w)) = m_qCount ->
  Z.of_nat (queued (query w)) <= 6 * resultsNeeded.
Proof.
  unfold queues_ok, queued. intros Hok Hlen.
  destruct (m_results (query w)) as [|q1 [|q2 [|q3 [|q4 l]]]]; try discriminate.
  apply Forall_cons in Hok as [(_ & H1 & _) Hok].
  apply Forall_cons in Hok as [(_ & H2 & _) Hok].
  apply Forall_cons in Hok as [(_ & H3 & _) _].
  simpl. lia.
Qed.

Variables (rawQuery : string) (resultsNeeded : Z) (w : World).
Variable Bad : World -> Prop.

Let w0 : World := initialized rawQuery resultsNeeded w.
Let c : Query := query_core w0.
Let base : list Result := res w ++ latlon_result (query w0).
Let S : list Result := suggestions (query w0).

Let J (sugg : list Result) (w' : World) : Prop :=
  res w' = base ++ sugg /\
  length (m_results (query w')) = m_qCount /\
  (0 <= resultsNeeded -> queues_ok resultsNeeded w') /\
  (Forall (fun s => s = false) (cancelSignals w) -> quiet w').

Let St (sugg : list Result) (w' : World) : Prop := query_core w' = c /\ J sugg w'.

Let Early (w' : World) : Prop :=
  m_cancel (query w') = true /\ (res w' = base \/ res w' = base ++ S) /\
  (Forall (fun s => s = false) (cancelSignals w) -> quiet w').

Let Full (w' : World) : Prop :=
  exists emitted,
    res w' = base ++ S ++ map GenerateFinalResult emitted /\
    NoDup (map feature_id emitted) /\
    Forall (fun p => feature_id p <> None) emitted /\
    (0 <= resultsNeeded -> Z.of_nat (length emitted) <= 6 * resultsNeeded) /\
    Forall (fun qu => q_queue qu = []) (m_results (query w')) /\
    (Forall (fun s => s = false) (cancelSignals w) -> quiet w').

Hypothesis Hsafe : searchable c \/ (forall w', query_core w' = c -> J S w' -> Bad w').

Lemma quiet_read_cancel : keeps quiet read_cancel.
Proof.
  intros w1 [Hm Hs]. unfold quiet. simpl. rewrite Hm. simpl.
  destruct (cancelSignals w1) as [|s l]; simpl; [auto|].
  apply Forall_cons in Hs as [-> Hs]. auto.
Qed.

Lemma J_read_cancel sugg : keeps (J sugg) read_cancel.
Proof.
  intros w1 (Hres & Hlen & Hok & Hq). unfold J. simpl.
  split; [exact Hres|]. split; [exact Hlen|]. split; [exact Hok|].
  intros Hs. apply quiet_read_cancel, Hq, Hs.
Qed.

Lemma J_add sugg val mwmID : keeps (J sugg) (AddResultFromTrie val mwmID).
Proof.
  intros w1 (Hres & Hlen & Hok & Hq). unfold J. simpl.
  split; [exact Hres|]. split; [rewrite length_map; exact Hlen|]. split.
  - intros Hn. apply AddResultFromTrie_ok, Hok, Hn.
  - exact Hq.
Qed.

Lemma St_w0 : St [] {| query := query w0; res := base; cancelSignals := cancelSignals w0 |}.
Proof.
  split; [reflexivity|]. split; [simpl; rewrite app_nil_r; reflexivity|].
  split; [reflexivity|]. split.
  - intros Hn. apply (initialized_ok rawQuery resultsNeeded w Hn).
  - intros Hs. split; [reflexivity|exact Hs].
Qed.

Lemma St_SuggestStrings Qc Qf :
  hoare (St []) SuggestStrings (fun _ => St S) Qc Qf.
Proof.
  intros w1 [Hc (Hres & Hlen & Hok & Hq)]. rewrite SuggestStrings_run. simpl.
  split; [exact Hc|]. split; [|split; [exact Hlen|split; [exact Hok|exact Hq]]].
  simpl. rewrite Hres, app_nil_r. f_equal.
  change (suggestions (query w1)) with (suggestions (query_core w1)).
  rewrite Hc. reflexivity.
Qed.

Lemma St_FlushResults Qc :
  hoare (St S) FlushResults (fun _ w' => query_core w' = c /\ Full w') Qc Bad.
Proof.
  intros w1 [Hc (Hres & Hlen & Hok & Hq)].
  destruct (FlushResults_structure w1)
    as (emitted & E1 & E2 & E3 & E4 & E5 & E6 & E7 & E8 & E9).
  assert (Hquiet : Forall (fun s => s = false) (cancelSignals w) ->
                   quiet (snd (FlushResults w1))).
  { intros Hs. apply keeps_FlushResults; [apply quiet_read_cancel| | |apply Hq, Hs].
    - intros r w2 Hw2. exact Hw2.
    - intros w2 Hw2. exact Hw2. }
  destruct (fst (FlushResults w1)) as [[]| |] eqn:Ho; simpl.
  - split; [congruence|]. exists emitted.
    split; [rewrite E1, Hres, <- app_assoc; reflexivity|]. split; [exact E2|].
    split; [|split; [|split; [exact E7|exact Hquiet]]].
    + eapply Forall_impl; [exact E3|]. simpl. intros p (r & qu & Hp & _). congruence.
    + intros Hn. pose proof (queued_bound resultsNeeded w1 (Hok Hn) Hlen). lia.
  - congruence.
  - destruct Hsafe as [(mwmInfo & Hidx & _)|Hb].
    + assert (Hd : Fault = Done tt); [|discriminate Hd].
      apply E6.
      * change (m_pIndex (query w1)) with (m_pIndex (query_core w1)).
        rewrite Hc, Hidx. discriminate.
      * change (m_pKeywordsScorer (query w1)) with (m_pKeywordsScorer (query_core w1)).
        rewrite Hc. discriminate.
    + apply Hb; [congruence|].
      split; [rewrite E1, Hres, E9 by discriminate; simpl; rewrite app_nil_r; reflexivity|].
      split; [|split; [|exact Hquiet]].
      * apply (keeps_FlushResults (fun w' => length (m_results (query w')) = m_qCount));
          [intros w2 Hw2; exact Hw2|intros r w2 Hw2; exact Hw2| |exact Hlen].
        intros w2 Hw2. simpl. rewrite length_map. exact Hw2.
      * intros Hn. apply keeps_FlushResults; [intros w2 Hw2; exact Hw2
          |intros r w2 Hw2; exact Hw2|apply clear_ok, Hn|apply Hok, Hn].
Qed.

(** The stages of [Search] from the initialised world on: a normal end is
    an early return on an observed flag or a full run; the exception leaves
    the flag set and the sink with the lat/lon result and the suggestions. *)
Lemma Search_stages_run :
  hoare (fun w' => w' = w0) Search_stages
        (fun _ w' => query_core w' = c /\ (Early w' \/ Full w'))
        (fun w' => St S w' /\ m_cancel (query w') = true)
        Bad.
Proof.
  unfold Search_stages. apply hoare_get_bind. intros q.
  apply hoare_pre_fact with (F := q = query w0).
  { intros w' [-> <-]. reflexivity. }
  intros ->.
  apply hoare_bind with (R := fun _ => St []).
  { intros w' [-> _]. pose proof St_w0 as H0. unfold base, latlon_result in H0.
    fold w0. destruct (MatchLatLon (m_rawQuery (query w0))) as [[[[lat lon] p1] p2]|];
      simpl.
    - exact H0.
    - rewrite app_nil_r in H0. exact H0. }
  intros [].
  eapply hoare_bind; [apply (Inv_read_cancel c (J [])), J_read_cancel|].
  intros [|].
  { apply hoare_ret. intros w' [[Hc (Hres & _ & _ & Hq)] Hm]. split; [exact Hc|]. left.
    split; [exact Hm|split; [left|exact Hq]]. rewrite Hres, app_nil_r. reflexivity. }
  apply hoare_bind with (R := fun _ => St S).
  { eapply hoare_pre; [apply St_SuggestStrings|].
    intros w1 [H1 _]. exact H1. }
  intros [].
  eapply hoare_bind; [apply (Inv_read_cancel c (J S)), J_read_cancel|].
  intros [|].
  { apply hoare_ret. intros w' [[Hc (Hres & _ & _ & Hq)] Hm]. split; [exact Hc|]. left.
    split; [exact Hm|split; [right; exact Hres|exact Hq]]. }
  apply hoare_bind with (R := fun _ => St S).
  { eapply hoare_pre;
      [apply (Inv_SearchFeatures c (J S) Bad);
         [apply J_read_cancel|intros val mwmID _; apply J_add|exact Hsafe]|].
    intros w1 [H1 _]. exact H1. }
  intros [].
  eapply hoare_bind; [apply (Inv_read_cancel c (J S)), J_read_cancel|].
  intros [|].
  { apply hoare_ret. intros w' [[Hc (Hres & _ & _ & Hq)] Hm]. split; [exact Hc|]. left.
    split; [exact Hm|split; [right; exact Hres|exact Hq]]. }
  apply hoare_conseq with (P := St S) (Qd := fun _ w' => query_core w' = c /\ Full w')
    (Qc := fun w' => St S w' /\ m_cancel (query w') = true) (Qf := Bad).
  - apply St_FlushResults.
  - intros w1 [H1 _]. exact H1.
  - intros a w1 [H1 H2]. split; [exact H1|right; exact H2].
  - auto.
  - auto.
Qed.
End SearchRun.

(** ** What a search call does to its sink and how it ends *)

Lemma not_all_false (l : list bool) :
  ~ Forall (fun s => s = false) l -> Exists (fun s => s = true) l.
Proof.
  induction l as [|[|] l IH]; intros Hn.
  - destruct Hn. constructor.
  - left. reflexivity.
  - right. apply IH. intros Hl. apply Hn. constructor; [reflexivity|exact Hl].
Qed.

Section SearchOutcome.
Context {Geo : Geometry} {Txt : Text} {Tiles : TileData} {Rk : Ranking}.

(** X10.  [FlushResults] emits every feature at most once: what it adds to
    the sink are the final results of feature candidates with pairwise
    different feature ids, each made from a hit that some queue held on
    entry, and no more of them than hits were queued.  It leaves every
    queue empty and never throws the cancel exception. *)
Theorem FlushResults_emits_each_feature_once (w : World) :
  exists emitted,
    res (snd (FlushResults w)) = res w ++ map GenerateFinalResult emitted /\
    NoDup (map feature_id emitted) /\
    Forall (fun p => exists r qu, feature_id p = Some (GetID r) /\
                       qu ∈ m_results (query w) /\ r ∈ q_queue qu) emitted /\
    (length emitted <= queued (query w))%nat /\
    Forall (fun qu => q_queue qu = []) (m_results (query (snd (FlushResults w)))) /\
    fst (FlushResults w) <> CancelException.
Proof.
  destruct (FlushResults_structure w)
    as (emitted & E1 & E2 & E3 & E4 & E5 & E6 & E7 & E8 & E9).
  exists emitted. auto 10.
Qed.

(** The run of [Search] with nothing assumed about the query object. *)
Lemma Search_run rawQuery resultsNeeded w :
  let w0 := initialized rawQuery resultsNeeded w in
  let base := res w ++ latlon_result (query w0) in
  let S := suggestions (query w0) in
  post (fun _ w' =>
          (m_cancel (query w') = true /\ (res w' = base \/ res w' = base ++ S) /\
           (Forall (fun s => s = false) (cancelSignals w) -> quiet w')) \/
          exists emitted,
            res w' = base ++ S ++ map GenerateFinalResult emitted /\
            NoDup (map feature_id emitted) /\
            Forall (fun p => feature_id p <> None) emitted /\
            (0 <= resultsNeeded -> Z.of_nat (length emitted) <= 6 * resultsNeeded) /\
            Forall (fun qu => q_queue qu = []) (m_results (query w')) /\
            (Forall (fun s => s = false) (cancelSignals w) -> quiet w'))
       (fun w' =>
          res w' = base ++ S /\ m_cancel (query w') = true /\
          (Forall (fun s => s = false) (cancelSignals w) -> quiet w'))
       (fun w' => res w' = base ++ S)
       (fst (Search rawQuery resultsNeeded w)) (snd (Search rawQuery resultsNeeded w)).
Proof.
  intros w0 base S. rewrite Search_unfold.
  pose proof (Search_stages_run rawQuery resultsNeeded w (fun w' => res w' = base ++ S)) as H.
  specialize (H (or_intror (fun w' _ HJ => proj1 HJ)) w0 eq_refl).
  fold w0 in H |- *. destruct (Search_stages w0) as [[a| |] w']; simpl in H |- *.
  - exact (proj2 H).
  - destruct H as [(_ & Hres & _ & _ & Hq) Hm]. auto.
  - exact H.
Qed.

(** X11.  What one [Search] call adds to the sink, in this order: the
    lat/lon result if the raw query is a lat/lon literal, the suggestions
    (or nothing, when the flag is seen before them), the feature results.
    The feature results are final results of feature candidates with
    pairwise different feature ids, at most [6 * resultsNeeded] of them,
    and there are none unless the call ends normally. *)
Theorem Search_sink (rawQuery : string) (resultsNeeded : Z) (w : World) :
  0 <= resultsNeeded ->
  let q0 := Search_Initialize rawQuery resultsNeeded (query w) in
  exists sugg emitted,
    res (snd (Search rawQuery resultsNeeded w)) =
      res w ++ latlon_result q0 ++ sugg ++ map GenerateFinalResult emitted /\
    (sugg = [] \/ sugg = suggestions q0) /\
    Forall (fun p => feature_id p <> None) emitted /\
    NoDup (map feature_id emitted) /\
    Z.of_nat (length emitted) <= 6 * resultsNeeded /\
    (fst (Search rawQuery resultsNeeded w) <> Done tt ->
     sugg = suggestions q0 /\ emitted = []).
Proof.
  intros Hn q0. pose proof (Search_run rawQuery resultsNeeded w) as H.
  simpl in H. fold q0 in H.
  assert (Hnone : forall sugg,
            res (snd (Search rawQuery resultsNeeded w)) =
              (res w ++ latlon_result q0) ++ sugg ->
            res (snd (Search rawQuery resultsNeeded w)) =
              res w ++ latlon_result q0 ++ sugg ++ map GenerateFinalResult []).
  { intros sugg ->. simpl. rewrite app_nil_r, app_assoc. reflexivity. }
  destruct (fst (Search rawQuery resultsNeeded w)) as [[]| |]; simpl in H.
  - destruct H as [(Hm & [Hres|Hres] & _)|(emitted & Hres & Hnd & Hf & Hlen & _)].
    + exists [], []. split; [apply Hnone; rewrite app_nil_r; exact Hres|].
      split; [left; reflexivity|]. split; [constructor|]. split; [constructor|].
      split; [simpl; lia|]. congruence.
    + exists (suggestions q0), []. split; [apply Hnone, Hres|].
      split; [right; reflexivity|]. split; [constructor|]. split; [constructor|].
      split; [simpl; lia|]. congruence.
    + exists (suggestions q0), emitted.
      split; [rewrite Hres, <- app_assoc; reflexivity|].
      split; [right; reflexivity|]. split; [exact Hf|]. split; [exact Hnd|].
      split; [apply Hlen, Hn|]. congruence.
  - destruct H as (Hres & _). exists (suggestions q0), [].
    split; [apply Hnone, Hres|].
    split; [right; reflexivity|]. split; [constructor|]. split; [constructor|].
    split; [simpl; lia|]. auto.
  - exists (suggestions q0), []. split; [apply Hnone, H|].
    split; [right; reflexivity|]. split; [constructor|]. split; [constructor|].
    split; [simpl; lia|]. auto.
Qed.

(** X12.  [Search] throws the cancel exception only when another thread
    has set the flag during the call: the flag is then set in the query
    object, and the sink has got the lat/lon result and the suggestions and
    nothing else. *)
Theorem Search_throws_only_when_cancelled (rawQuery : string) (resultsNeeded : Z)
    (w : World) :
  fst (Search rawQuery resultsNeeded w) = CancelException ->
  let q0 := Search_Initialize rawQuery resultsNeeded (query w) in
  let w' := snd (Search rawQuery resultsNeeded w) in
  Exists (fun s => s = true) (cancelSignals w) /\
  m_cancel (query w') = true /\
  res w' = res w ++ latlon_result q0 ++ suggestions q0.
Proof.
  intros Ho q0 w'. pose proof (Search_run rawQuery resultsNeeded w) as H.
  simpl in H. fold q0 w' in H. rewrite Ho in H. simpl in H.
  destruct H as (Hres & Hm & Hq). split; [|split; [exact Hm|]].
  - apply not_all_false. intros Hs. destruct (Hq Hs) as [Hm' _]. congruence.
  - rewrite Hres, <- app_assoc. reflexivity.
Qed.

(** X13.  On a searchable query object (an index, a cache entry for every
    tile of the index, tries whose root edges have non-empty labels and a
    categories edge) [Search] never runs into undefined behaviour. *)
Theorem Search_never_faults (rawQuery : string) (resultsNeeded : Z) (w : World) :
  searchable (query w) -> fst (Search rawQuery resultsNeeded w) <> Fault.
Proof.
  intros Hs. rewrite Search_unfold.
  pose proof (Search_stages_run rawQuery resultsNeeded w (fun _ => False)) as H.
  specialize (H (or_introl Hs) (initialized rawQuery resultsNeeded w) eq_refl).
  intros Ho. rewrite Ho in H. exact H.
Qed.

(** X14.  An undisturbed search runs to its end: on a searchable query
    object, with no other thread setting the flag, [Search] ends normally
    with the flag clear and every queue empty, and the sink has got the
    lat/lon result, the suggestions and the feature results. *)
Theorem Search_undisturbed (rawQuery : string) (resultsNeeded : Z) (w : World) :
  searchable (query w) ->
  Forall (fun s => s = false) (cancelSignals w) ->
  let q0 := Search_Initialize rawQuery resultsNeeded (query w) in
  let w' := snd (Search rawQuery resultsNeeded w) in
  fst (Search rawQuery resultsNeeded w) = Done tt /\
  quiet w' /\
  Forall (fun qu => q_queue qu = []) (m_results (query w')) /\
  exists emitted,
    res w' = res w ++ latlon_result q0 ++ suggestions q0 ++
             map GenerateFinalResult emitted.
Proof.
  intros Hs Hq q0 w'. unfold w'. rewrite Search_unfold.
  pose proof (Search_stages_run rawQuery resultsNeeded w (fun _ => False)
                (or_introl Hs) (initialized rawQuery resultsNeeded w) eq_refl) as H.
  destruct (Search_stages (initialized rawQuery resultsNeeded w)) as [[[]| |] w1];
    simpl in H |- *.
  - destruct H as [_ [(Hm & _ & Hquiet)|(emitted & Hres & _ & _ & _ & He & Hquiet)]].
    + destruct (Hquiet Hq). congruence.
    + split; [reflexivity|]. split; [apply Hquiet, Hq|]. split; [exact He|].
      exists emitted. rewrite Hres, <- app_assoc. reflexivity.
  - destruct H as [(_ & _ & _ & _ & Hquiet) Hm]. destruct (Hquiet Hq). congruence.
  - destruct H.
Qed.
End SearchOutcome.

(** ** Queued hits and the viewport *)

Section ViewportFilter.
Context {Geo : Geometry} {Txt : Text} {Tiles : TileData} {Rk : Ranking}.

Lemma push_elem qu t x : x ∈ q_queue (push qu t) -> x = t \/ x ∈ q_queue qu.
Proof.
  unfold push. destruct (Z.of_nat (length (q_queue qu)) <? q_maxSize qu); simpl.
  - intros Hx. apply elem_of_app in Hx as [Hx|Hx]; [right; exact Hx|left].
    apply list_elem_of_singleton in Hx. exact Hx.
  - destruct (pop_worst (q_compare qu) (q_queue qu)) as [[w0 rest]|] eqn:Hpop; [|auto].
    destruct (q_compare qu t w0); [|auto]. simpl.
    intros Hx. apply elem_of_app in Hx as [Hx|Hx].
    + right. apply pop_worst_Permutation in Hpop. rewrite Hpop. right. exact Hx.
    + left. apply list_elem_of_singleton in Hx. exact Hx.
Qed.

Lemma passes_within_viewport q mwmID r :
  m_bOffsetsCacheIsValid q = true -> cache_consistent q ->
  passes q mwmID (r1_featureId r) -> r1_mwmID r = mwmID ->
  within_viewport q r.
Proof.
  intros Hvalid Hc (mwmInfo & mwm & pMwm & offsets & Hidx & Hmwm & Hint & Hval & _ & Hoff & Hor)
         Hid.
  destruct (Hc Hvalid) as (_ & mwmInfo' & Hidx' & Hcache).
  assert (mwmInfo' = mwmInfo) by congruence. subst mwmInfo'.
  exists mwmInfo, mwm, pMwm. rewrite Hid.
  split; [exact Hidx|]. split; [exact Hmwm|]. split; [exact Hint|]. split; [exact Hval|].
  destruct Hor as [Hw|Hb]; [left; exact Hw|right].
  rewrite Hcache, lookup_map, Hmwm in Hoff. simpl in Hoff. injection Hoff as <-.
  apply binary_search_In in Hb; [|apply UpdateViewportOffsets_mwm_sorted].
  unfold UpdateViewportOffsets_mwm in Hb. rewrite Hint, Hval in Hb.
  destruct (header_GetType pMwm); simpl in Hb; try contradiction.
  split; [reflexivity|].
  eapply Permutation_in; [apply sort_Permutation|exact Hb].
Qed.

(** X15.  With a valid, consistent offsets cache [SearchFeatures] queues
    only hits the viewport lets through: if every queued hit belongs to a
    lockable tile of the index that meets the extended viewport and is a
    world tile or a country tile whose geometry index reports the feature
    for the viewport, then so does every hit queued when [SearchFeatures]
    is over, however it ends.  No hit of a tile of any other kind, and no
    feature of a country tile outside the viewport, gets queued. *)
Theorem SearchFeatures_hits_within_viewport (w : World) :
  m_bOffsetsCacheIsValid (query w) = true ->
  cache_consistent (query w) ->
  (forall qu r, qu ∈ m_results (query w) -> r ∈ q_queue qu -> within_viewport (query w) r) ->
  forall qu r,
    qu ∈ m_results (query (snd (SearchFeatures w))) -> r ∈ q_queue qu ->
    within_viewport (query w) r.
Proof.
  intros Hvalid Hc H0.
  set (J := fun w' : World =>
              forall qu r, qu ∈ m_results (query w') -> r ∈ q_queue qu ->
                           within_viewport (query_core w) r).
  assert (Hcc : cache_consistent (query_core w)).
  { eapply cache_consistent_ext; [| | | | |exact Hc]; reflexivity. }
  assert (Hrun : hoare (fun w' => query_core w' = query_core w /\ J w') SearchFeatures
                   (fun _ w' => query_core w' = query_core w /\ J w')
                   (fun w' => (query_core w' = query_core w /\ J w') /\
                              m_cancel (query w') = true)
                   J).
  { apply Inv_SearchFeatures.
    - intros w1 HJ. exact HJ.
    - intros val mwmID Hp w1 HJ qu r Hqu Hr. simpl in Hqu.
      apply list_elem_of_In, in_map_iff in Hqu as (qu0 & <- & Hqu0).
      apply list_elem_of_In in Hqu0.
      destruct (Std.found _ (q_queue qu0)); [exact (HJ qu0 r Hqu0 Hr)|].
      apply push_elem in Hr as [->|Hr]; [|exact (HJ qu0 r Hqu0 Hr)].
      apply (passes_within_viewport (query_core w) mwmID); [exact Hvalid|exact Hcc| |].
      + exact Hp.
      + reflexivity.
    - right. intros w1 _ HJ. exact HJ. }
  specialize (Hrun w (conj eq_refl H0)).
  intros qu r Hqu Hr.
  change (within_viewport (query_core w) r).
  destruct (fst (SearchFeatures w)); simpl in Hrun.
  - apply (proj2 Hrun qu r Hqu Hr).
  - apply (proj2 (proj1 Hrun) qu r Hqu Hr).
  - apply (Hrun qu r Hqu Hr).
Qed.
End ViewportFilter.

(** ** A query object without an index *)

Section NoIndex.
Context {Geo : Geometry} {Txt : Text} {Tiles : TileData} {Rk : Ranking}.

Lemma read_cancel_quiet w :
  quiet w ->
  read_cancel w = (Done false, {| query := query w; res := res w;
                                  cancelSignals := tail (cancelSignals w) |}) /\
  Forall (fun s => s = false) (tail (cancelSignals w)).
Proof.
  intros [Hm Hs]. unfold read_cancel. rewrite Hm.
  destruct (cancelSignals w) as [|s l]; simpl.
  - split; [|constructor]. f_equal. f_equal. destruct (query w). simpl in Hm. subst.
    reflexivity.
  - apply Forall_cons in Hs as [-> Hs]. split; [|exact Hs].
    f_equal. f_equal. destruct (query w). simpl in Hm. subst. reflexivity.
Qed.

(** X16.  The index is optional for [SearchFeatures], which returns at once
    without one, but not for [FlushResults]: on a query object without an
    index an undisturbed [Search] adds the lat/lon result and the
    suggestions and then dereferences the null index pointer. *)
Theorem Search_without_index (rawQuery : string) (resultsNeeded : Z) (w : World) :
  m_pIndex (query w) = None ->
  Forall (fun s => s = false) (cancelSignals w) ->
  let q0 := Search_Initialize rawQuery resultsNeeded (query w) in
  fst (SearchFeatures (initialized rawQuery resultsNeeded w)) = Done tt /\
  fst (Search rawQuery resultsNeeded w) = Fault /\
  res (snd (Search rawQuery resultsNeeded w)) =
    res w ++ latlon_result q0 ++ suggestions q0.
Proof.
  intros Hidx Hs q0. split.
  { unfold SearchFeatures, bind, get. simpl. rewrite Hidx. reflexivity. }
  rewrite Search_unfold.
  set (w0 := initialized rawQuery resultsNeeded w).
  set (K := fun (sugg : list Result) (w' : World) =>
              query_core w' = query_core w0 /\
              res w' = (res w ++ latlon_result q0) ++ sugg /\ quiet w').
  assert (Hnone : forall sugg w', K sugg w' -> m_pIndex (query w') = None).
  { intros sugg w' (Hc & _). change (m_pIndex (query_core w') = None).
    rewrite Hc. exact Hidx. }
  assert (Hread : forall sugg Qc Qf,
            hoare (K sugg) read_cancel (fun b w' => K sugg w' /\ b = false) Qc Qf).
  { intros sugg Qc Qf w1 (Hc & Hres & Hq).
    destruct (read_cancel_quiet w1 Hq) as [-> Hs']. simpl.
    split; [|reflexivity]. split; [|split; [exact Hres|split; [apply Hq|exact Hs']]].
    rewrite <- Hc. unfold query_core. simpl. reflexivity. }
  assert (Hrun : hoare (fun w' => w' = w0) Search_stages
                   (fun _ _ => False) (fun _ => False)
                   (fun w' => res w' = (res w ++ latlon_result q0) ++ suggestions q0)).
  { unfold Search_stages. apply hoare_get_bind. intros q.
    apply hoare_pre_fact with (F := q = query w0).
    { intros w' [-> <-]. reflexivity. }
    intros ->.
    apply hoare_bind with (R := fun _ => K []).
    { intros w' [-> _]. unfold K, latlon_result, q0. simpl.
      destruct (MatchLatLon rawQuery) as [[[[lat lon] p1] p2]|]; simpl;
        rewrite ?app_nil_r; repeat split; auto. }
    intros []. eapply hoare_bind; [apply Hread|]. intros b.
    apply hoare_pre_fact with (F := b = false); [tauto|]. intros ->.
    apply hoare_bind with (R := fun _ => K (suggestions q0)).
    { intros w1 [(Hc & Hres & Hq) _]. rewrite SuggestStrings_run. simpl.
      split; [exact Hc|]. split; [|exact Hq].
      rewrite Hres, app_nil_r. f_equal.
      change (suggestions (query w1)) with (suggestions (query_core w1)).
      rewrite Hc. reflexivity. }
    intros []. eapply hoare_bind; [apply Hread|]. intros b.
    apply hoare_pre_fact with (F := b = false); [tauto|]. intros ->.
    apply hoare_bind with (R := fun _ => K (suggestions q0)).
    { intros w1 [HK _]. unfold SearchFeatures, bind, get. simpl.
      rewrite (Hnone _ _ HK). simpl. exact HK. }
    intros []. eapply hoare_bind; [apply Hread|]. intros b.
    apply hoare_pre_fact with (F := b = false); [tauto|]. intros ->.
    intros w1 [HK _]. unfold FlushResults, FlushResults_promote, bind, get, modify.
    simpl. rewrite (Hnone _ _ HK). simpl. apply HK. }
  specialize (Hrun w0 eq_refl).
  destruct (Search_stages w0) as [[a| |] w']; simpl in Hrun |- *; try contradiction.
  split; [reflexivity|]. rewrite Hrun, <- app_assoc. reflexivity.
Qed.
End NoIndex.

(** ** Country names of promoted candidates *)

Section CountryName.
Context {Geo : Geometry} {Txt : Text} {Tiles : TileData} {Rk : Ranking}.

(** X17.  [PreResult2Maker] looks the country name up only when it creates
    the features accessor of a tile.  For the first hit of a lockable tile
    the candidate gets the tile's country name (the empty string for a
    world tile); for a later hit of the same tile the accessor is found in
    [m_features], the lookup is skipped, and the candidate is made with an
    empty country name. *)
Theorem PreResult2Maker_country_name_once (m_mwmInfo : list Mwm)
    (m_features : gmap nat (option MwmValue)) (r1 r2 : PreResult1) (w : World)
    (mwm : Mwm) (pMwm : MwmValue) (sc : LangKeywordsScorer) :
  r1_mwmID r2 = r1_mwmID r1 ->
  m_mwmInfo !! r1_mwmID r1 = Some mwm ->
  MwmLock_GetValue mwm = Some pMwm ->
  m_features !! r1_mwmID r1 = None ->
  m_pKeywordsScorer (query w) = Some sc ->
  let f1 := FeaturesVector_Get pMwm (r1_featureId r1) in
  let f2 := FeaturesVector_Get pMwm (r1_featureId r2) in
  let m_features1 := <[r1_mwmID r1 := Some pMwm]> m_features in
  PreResult2Maker m_mwmInfo m_features r1 w =
    (Done (Some (PreResult2_feature f1 r1 (snd (GetBestMatchName sc f1 EmptyString))
                   (if MapType_eqb (header_GetType pMwm) world then EmptyString
                    else MwmLock_GetCountryName mwm)),
           m_features1), w) /\
  PreResult2Maker m_mwmInfo m_features1 r2 w =
    (Done (Some (PreResult2_feature f2 r2 (snd (GetBestMatchName sc f2 EmptyString))
                   EmptyString),
           <[r1_mwmID r1 := Some pMwm]> m_features1), w).
Proof.
  intros Hsame Hmwm Hval Hnew Hsc f1 f2 m_features1. split.
  - unfold PreResult2Maker. simpl. rewrite Hnew, Hmwm, Hval.
    unfold bind, get. simpl. rewrite Hsc. reflexivity.
  - unfold PreResult2Maker. simpl. rewrite Hsame. unfold m_features1.
    rewrite lookup_insert_eq. unfold bind, get. simpl. rewrite Hsc. reflexivity.
Qed.
End CountryName.

(** ** A search on a cleared cache *)

Section ClearedCache.
Context {Geo : Geometry} {Txt : Text} {Tiles : TileData} {Rk : Ranking}.

Lemma find_categories_total edges :
  Forall (fun e => m_str e <> []) edges ->
  exists r, forall w, find_categories edges w = (Done r, w).
Proof.
  induction edges as [|e edges IH]; intros Hne; simpl.
  - exists None. reflexivity.
  - apply Forall_cons in Hne as [He Hne].
    destruct (m_str e) as [|c0 rest]; [congruence|].
    destruct (c0 =? CATEGORIES_LANG); [|apply IH, Hne].
    eexists. reflexivity.
Qed.

(** X18.  [SearchFeatures] indexes the offsets cache by the tile id without
    a check.  For a tile that meets the extended viewport, can be locked and
    has a trie with a root edge of a language searched for, a cache without
    an entry for the tile (the cache [ClearCache] leaves, until the next
    [SetViewport]) makes the tile's turn of the loop end in undefined
    behaviour. *)
Theorem SearchFeatures_needs_cache_entry (tokens : list (list UniString)) (langs : list Z)
    (mwmId : nat) (mwm : Mwm) (pMwm : MwmValue) (edges : list Edge) (w : World) :
  IsIntersect (m_viewportExtended (query w)) (m_limitRect mwm) = true ->
  MwmLock_GetValue mwm = Some pMwm ->
  search_trie pMwm = Some edges ->
  Forall (fun e => m_str e <> []) edges ->
  Exists (fun e => exists c0, head (m_str e) = Some c0 /\ c0 < CATEGORIES_LANG /\
                              In (to_int8 c0) langs) edges ->
  m_offsetsInViewport (query w) !! mwmId = None ->
  fst (SearchFeatures_mwm tokens langs true mwmId mwm w) = Fault.
Proof.
  intros Hint Hval Htrie Hne Hex Hoff.
  unfold SearchFeatures_mwm, bind at 1, get. simpl. rewrite Hint, Hval, Htrie.
  destruct (find_categories_total edges Hne) as [r Hr]. unfold bind at 1. rewrite Hr.
  unfold SearchFeatures_filter. rewrite Hoff.
  clear Hr Htrie. induction edges as [|e edges IH]; [inversion Hex|].
  apply Forall_cons in Hne as [He Hne]. simpl. unfold bind at 1.
  destruct (m_str e) as [|c0 rest] eqn:Hstr; [congruence|].
  destruct ((c0 <? CATEGORIES_LANG) && existsb (Z.eqb (to_int8 c0)) langs) eqn:Hcond.
  - destruct r; reflexivity.
  - simpl. apply IH; [exact Hne|].
    apply Exists_cons in Hex as [(c1 & Hhd & Hlt & Hin)|Hex]; [|exact Hex].
    rewrite Hstr in Hhd. simpl in Hhd. injection Hhd as <-.
    apply andb_false_iff in Hcond as [Hc|Hc].
    + apply Z.ltb_ge in Hc. lia.
    + assert (Ht : existsb (Z.eqb (to_int8 c0)) langs = true); [|congruence].
      apply existsb_exists. exists (to_int8 c0). split; [exact Hin|apply Z.eqb_refl].
Qed.
End ClearedCache.

(** ** What a search call leaves of the query object *)

Section SearchFrame.
Context {Geo : Geometry} {Txt : Text} {Tiles : TileData} {Rk : Ranking}.

(** X19.  However [Search] ends, it has left the index, the categories,
    the dictionary, the preferred language, the viewport and its extension,
    the position and the offsets cache with its validity mark as they were.
    It holds the raw query, at most 31 tokens, which are the first tokens
    of the split query, and a scorer made of the language priorities and of
    exactly these tokens and this prefix. *)
Theorem Search_query_object (rawQuery : string) (resultsNeeded : Z) (w : World) :
  let q := query w in
  let q' := query (snd (Search rawQuery resultsNeeded w)) in
  (m_pIndex q' = m_pIndex q /\ m_pCategories q' = m_pCategories q /\
   m_pStringsToSuggest q' = m_pStringsToSuggest q /\
   m_preferredLanguage q' = m_preferredLanguage q /\
   m_viewport q' = m_viewport q /\ m_viewportExtended q' = m_viewportExtended q /\
   m_position q' = m_position q /\
   m_bOffsetsCacheIsValid q' = m_bOffsetsCacheIsValid q /\
   m_offsetsInViewport q' = m_offsetsInViewport q) /\
  m_rawQuery q' = rawQuery /\
  (length (m_tokens q') <= 31)%nat /\
  (exists dropped, fst (split_prefix rawQuery) = m_tokens q' ++ dropped) /\
  m_pKeywordsScorer q' =
    Some {| scorer_langPriorities :=
              [ [m_preferredLanguage q];
                [GetLangIndex "int_name"; GetLangIndex "en"];
                [GetLangIndex "default"] ];
            scorer_keywords := m_tokens q';
            scorer_prefix := m_prefix q' |}.
Proof.
  intros q q'. pose proof (Search_core rawQuery resultsNeeded w) as Hc.
  assert (Hf : forall {T} (f : Query -> T),
            (forall x, f (set_results [] (set_cancel false x)) = f x) ->
            f q' = f (Search_Initialize rawQuery resultsNeeded q)).
  { intros T f Hfr. unfold q'. rewrite <- (Hfr (query (snd _))).
    fold (query_core (snd (Search rawQuery resultsNeeded w))). rewrite Hc.
    unfold query_core. rewrite Hfr. reflexivity. }
  assert (Ht : m_tokens q' = cap_tokens (fst (split_prefix rawQuery))).
  { apply (Hf _ m_tokens). reflexivity. }
  assert (Hp : m_prefix q' = snd (split_prefix rawQuery)).
  { apply (Hf _ m_prefix). reflexivity. }
  split; [|split; [|split; [|split]]].
  - repeat split.
    + apply (Hf _ m_pIndex). reflexivity.
    + apply (Hf _ m_pCategories). reflexivity.
    + apply (Hf _ m_pStringsToSuggest). reflexivity.
    + apply (Hf _ m_preferredLanguage). reflexivity.
    + apply (Hf _ m_viewport). reflexivity.
    + apply (Hf _ m_viewportExtended). reflexivity.
    + apply (Hf _ m_position). reflexivity.
    + apply (Hf _ m_bOffsetsCacheIsValid). reflexivity.
    + apply (Hf _ m_offsetsInViewport). reflexivity.
  - apply (Hf _ m_rawQuery). reflexivity.
  - rewrite Ht. unfold cap_tokens.
    destruct (Nat.ltb_spec 31 (length (fst (split_prefix rawQuery)))) as [Hlt|Hle].
    + rewrite length_take. lia.
    + exact Hle.
  - rewrite Ht. unfold cap_tokens.
    destruct (31 <? length (fst (split_prefix rawQuery)))%nat.
    + exists (drop 31 (fst (split_prefix rawQuery))). symmetry. apply take_drop.
    + exists []. rewrite app_nil_r. reflexivity.
  - rewrite (Hf _ m_pKeywordsScorer) by reflexivity. rewrite Ht, Hp. reflexivity.
Qed.
End SearchFrame.

(** * Properties of the notes *)

Section NotesFacts.
Import editor.
Context {Geo : Geometry} {Lib : NotesLib}.

Lemma SaveToXml_tree notes xml count :
  SaveToXml notes xml count =
  xml ++ [Element "notes" [("count"%string, uint_as_text count)]
            (map note_element notes)].
Proof.
  unfold SaveToXml. f_equal. f_equal.
  assert (Hfold : forall root,
            fold_left (fun root note =>
                 append_child root
                   (append_attribute
                      (append_attribute
                         (append_attribute (Element "note" [] []) "x"
                            (c_str (DebugPrint_double (fst (m_point note)))))
                         "y" (c_str (DebugPrint_double (snd (m_point note)))))
                      "text" (c_str (m_note note))))
              notes root =
            Element (node_name root) (node_attributes root)
                    (node_children root ++ map note_element notes)).
  { induction notes as [|note notes IH]; intros root; simpl.
    - rewrite app_nil_r. destruct root. reflexivity.
    - rewrite IH. simpl. rewrite <- app_assoc. reflexivity. }
  rewrite Hfold. reflexivity.
Qed.

Lemma select_note_elements notes :
  List.filter (fun c => String.eqb (node_name c) "note") (map note_element notes) =
  map note_element notes.
Proof.
  induction notes as [|note notes IH]; simpl; [reflexivity|]. rewrite IH. reflexivity.
Qed.

Lemma load_note_elements notes : forall notes0,
  Forall printable notes ->
  load_nodes (map note_element notes) notes0 = (true, notes0 ++ notes).
Proof.
  induction notes as [|note notes IH]; intros notes0 Hp; simpl.
  - rewrite app_nil_r. reflexivity.
  - apply Forall_cons in Hp as [(Hx & Hy & Ht) Hp].
    rewrite Hx, Hy, Ht. rewrite IH by exact Hp.
    rewrite <- app_assoc. destruct note as [[x y] t]. reflexivity.
Qed.


Lemma tmp_name_differs (name : string) : String.eqb (name ++ ".tmp") name = false.
Proof.
  apply String.eqb_neq. induction name as [|c name IH]; simpl.
  - discriminate.
  - intros [= H]. exact (IH H).
Qed.

Lemma put_eq name f fs : put name f fs name = f.
Proof. unfold put. rewrite String.eqb_refl. reflexivity. Qed.

Lemma put_ne name f fs other : String.eqb other name = false -> put name f fs other = fs other.
Proof. unfold put. intros ->. reflexivity. Qed.

Lemma save_file_cases xml path d :
  ((fst (save_file xml path d) = true /\
    files (snd (save_file xml path d)) path = Some (readable (save_text xml))) \/
   fst (save_file xml path d) = false) /\
  (forall other, String.eqb other path = false ->
                 files (snd (save_file xml path d)) other = files d other).
Proof.
  unfold save_file. destruct (save_results d) as [|[| |written] rest]; simpl.
  - split; [left; rewrite put_eq; auto|]. intros other Ho. apply put_ne, Ho.
  - split; [left; rewrite put_eq; auto|]. intros other Ho. apply put_ne, Ho.
  - split; [right; reflexivity|]. reflexivity.
  - split; [right; reflexivity|]. intros other Ho. apply put_ne, Ho.
Qed.

Lemma RenameFileX_cases fOld fNew d :
  String.eqb fOld fNew = false ->
  ((fst (RenameFileX fOld fNew d) = true /\
    files (snd (RenameFileX fOld fNew d)) fNew = files d fOld /\
    files (snd (RenameFileX fOld fNew d)) fOld = None) \/
   (fst (RenameFileX fOld fNew d) = false /\
    files (snd (RenameFileX fOld fNew d)) = files d)) /\
  (forall other, String.eqb other fOld = false -> String.eqb other fNew = false ->
                 files (snd (RenameFileX fOld fNew d)) other = files d other).
Proof.
  intros Hne. unfold RenameFileX.
  destruct (files d fOld) as [f|] eqn:Hf;
    [destruct (match rename_results d with [] => true | r :: _ => r end)|]; simpl.
  - split.
    + left. rewrite put_eq, put_ne by exact Hne. rewrite put_eq. auto.
    + intros other H1 H2. rewrite !put_ne by assumption. reflexivity.
  - split; [right; auto|reflexivity].
  - split; [right; auto|reflexivity].
Qed.

(** [Save] leaves the notes file with the whole new text or as it was, and
    the other files alone. *)
Lemma Save_files n d :
  let text := save_text (SaveToXml (m_notes n) [] (m_uploadedNotes n)) in
  ((fst (Save n d) = true /\
    files (snd (Save n d)) (m_fileName n) = Some (readable text) /\
    files (snd (Save n d)) (m_fileName n ++ ".tmp") = None) \/
   (fst (Save n d) = false /\
    files (snd (Save n d)) (m_fileName n) = files d (m_fileName n))) /\
  (forall other, other <> m_fileName n -> other <> (m_fileName n ++ ".tmp")%string ->
                 files (snd (Save n d)) other = files d other).
Proof.
  intros text. unfold Save. fold text.
  set (xml := SaveToXml (m_notes n) [] (m_uploadedNotes n)).
  set (tmp := (m_fileName n ++ ".tmp")%string).
  pose proof (tmp_name_differs (m_fileName n)) as Hne. fold tmp in Hne.
  assert (Hne' : String.eqb (m_fileName n) tmp = false).
  { rewrite String.eqb_sym. exact Hne. }
  destruct (save_file_cases xml tmp d) as [Hs Hso].
  destruct (save_file xml tmp d) as [written d1]. simpl in Hs, Hso.
  destruct written; simpl.
  - destruct Hs as [[_ Htmp]|Hs]; [|discriminate].
    destruct (RenameFileX_cases tmp (m_fileName n) d1 Hne) as [Hr Hro].
    destruct (RenameFileX tmp (m_fileName n) d1) as [renamed d2]. simpl in Hr, Hro.
    destruct renamed; simpl.
    + destruct Hr as [(_ & Hnew & Hold)|[Hr _]]; [|discriminate]. split.
      * left. split; [reflexivity|]. split; [|exact Hold].
        rewrite Hnew. exact Htmp.
      * intros other H1 H2. apply String.eqb_neq in H1, H2.
        rewrite Hro, Hso by assumption. reflexivity.
    + destruct Hr as [[Hr _]|[_ Hsame]]; [discriminate|]. split.
      * right. split; [reflexivity|]. rewrite Hsame. apply Hso, Hne'.
      * intros other H1 H2. apply String.eqb_neq in H1, H2.
        rewrite Hsame. apply Hso. exact H2.
  - split.
    + right. split; [reflexivity|]. apply Hso, Hne'.
    + intros other H1 H2. apply String.eqb_neq in H2. apply Hso, H2.
Qed.

(** X20.  What [SaveToXml] writes, [LoadFromXml] reads back: for a counter
    that its text form gives back and that fits 32 bits, and for notes whose
    coordinates print and parse to themselves and whose texts hold no NUL,
    loading the document saved from an empty one succeeds, appends exactly
    the saved notes and sets the counter. *)
Theorem SaveToXml_LoadFromXml (notes notes0 : list Note) (count count0 : Z) :
  to_uint64 (uint_as_text count) = Some count ->
  0 <= count < 2 ^ 32 ->
  Forall printable notes ->
  LoadFromXml (SaveToXml notes [] count) notes0 count0 = (true, notes0 ++ notes, count).
Proof.
  intros Hcount Hrange Hp. rewrite SaveToXml_tree. unfold LoadFromXml. simpl.
  rewrite Hcount, select_note_elements, load_note_elements by exact Hp.
  unfold to_uint32. rewrite Z.mod_small by exact Hrange. reflexivity.
Qed.


(** X22.  [Save] replaces the notes file as a whole or not at all.  When it
    returns [true] the file holds the text of the document made from the
    notes and the counter, and the temporary file is gone; when it returns
    [false] the file is what it was before the call.  No file other than
    the notes file and its temporary file is touched. *)
Theorem Save_whole_or_nothing (n : Notes) (d : Disk) :
  let text := save_text (SaveToXml (m_notes n) [] (m_uploadedNotes n)) in
  let d' := snd (Save n d) in
  (fst (Save n d) = true ->
   files d' (m_fileName n) = Some (readable text) /\
   files d' (m_fileName n ++ ".tmp") = None) /\
  (fst (Save n d) = false -> files d' (m_fileName n) = files d (m_fileName n)) /\
  (forall other, other <> m_fileName n -> other <> (m_fileName n ++ ".tmp")%string ->
                 files d' other = files d other).
Proof.
  intros text d'. unfold d', text.
  destruct (Save_files n d) as [[(Hok & Hf & Ht)|(Hok & Hf)] Hother].
  - split; [auto|]. split; [congruence|exact Hother].
  - split; [congruence|]. split; [auto|exact Hother].
Qed.

(** X23.  Notes saved are the notes loaded: after a [Save] that returned
    [true], a [Load] by any notes object of the same file name succeeds and
    leaves it with exactly the saved notes and counter, provided the text
    written parses back to the document, the counter reads back from its
    text and fits 32 bits, and every note reads back from its attributes. *)
Theorem Save_then_Load (n n0 : Notes) (d : Disk) :
  fst (Save n d) = true ->
  m_fileName n0 = m_fileName n ->
  load_buffer (save_text (SaveToXml (m_notes n) [] (m_uploadedNotes n))) =
    Some (SaveToXml (m_notes n) [] (m_uploadedNotes n)) ->
  to_uint64 (uint_as_text (m_uploadedNotes n)) = Some (m_uploadedNotes n) ->
  0 <= m_uploadedNotes n < 2 ^ 32 ->
  Forall printable (m_notes n) ->
  Load n0 (snd (Save n d)) = (true, n).
Proof.
  intros Hok Hname Hparse Hcount Hrange Hp.
  destruct (Save_files n d) as [[(_ & Hf & _)|(Hno & _)] _]; [|congruence].
  unfold Load. rewrite Hname, Hf, Hparse.
  rewrite (SaveToXml_LoadFromXml _ [] _ _ Hcount Hrange Hp). simpl.
  destruct n. reflexivity.
Qed.

(** X24.  [CreateNote] keeps the note in memory whether or not the file
    could be written: the vector grows by the note at its end, the counter
    stays, and the notes file holds the text of the new document or is what
    it was before the call. *)
Theorem CreateNote_keeps_note (point : double * double) (text : string)
    (n : Notes) (d : Disk) :
  let n' := fst (CreateNote point text n d) in
  let d' := snd (CreateNote point text n d) in
  m_notes n' = m_notes n ++ [{| m_point := point; m_note := text |}] /\
  m_uploadedNotes n' = m_uploadedNotes n /\
  m_fileName n' = m_fileName n /\
  (files d' (m_fileName n) =
     Some (readable (save_text (SaveToXml (m_notes n') [] (m_uploadedNotes n')))) \/
   files d' (m_fileName n) = files d (m_fileName n)).
Proof.
  intros n' d'. unfold n', d', CreateNote. simpl.
  split; [reflexivity|]. split; [reflexivity|]. split; [reflexivity|].
  match goal with
  | |- context [Save ?m d] => destruct (Save_files m d) as [[(_ & Hf & _)|(_ & Hf)] _]
  end; simpl in Hf; auto.
Qed.

Lemma upload_notes_spec notes : forall responses uploaded unuploaded calls,
  0 <= uploaded < 2 ^ 32 ->
  exists kept,
    upload_notes notes responses uploaded unuploaded calls =
      (to_uint32 (uploaded + Z.of_nat (length notes - length kept)),
       unuploaded ++ kept,
       calls ++ map (fun note => (ToLatLon (m_point note), m_note note)) notes) /\
    sublist kept notes /\
    (Forall (fun r => r = true) (take (length notes) responses) -> kept = []) /\
    (forall i note, notes !! i = Some note -> responses !! i = Some false -> note ∈ kept).
Proof.
  induction notes as [|note notes IH]; intros responses uploaded unuploaded calls Hu.
  - exists []. simpl. rewrite !app_nil_r, Z.add_0_r. unfold to_uint32.
    rewrite Z.mod_small by exact Hu. repeat split; auto. intros i n Hi. discriminate.
  - simpl.
    destruct (match responses with [] => true | r :: _ => r end) eqn:Hr.
    + assert (Hu' : 0 <= to_uint32 (uploaded + 1) < 2 ^ 32).
      { unfold to_uint32. apply Z.mod_pos_bound. lia. }
      destruct (IH (tail responses) (to_uint32 (uploaded + 1)) unuploaded
                   (calls ++ [(ToLatLon (m_point note), m_note note)]) Hu')
        as (kept & Hrun & Hsub & Hall & Hkept).
      exists kept. rewrite Hrun. split; [|split; [|split]].
      * assert (Hnum : to_uint32 (to_uint32 (uploaded + 1) +
                                  Z.of_nat (length notes - length kept)) =
                       to_uint32 (uploaded +
                                  Z.of_nat (length (note :: notes) - length kept))).
        { pose proof (sublist_length _ _ Hsub) as Hlen.
          unfold to_uint32. rewrite Zplus_mod_idemp_l. f_equal.
          replace (length (note :: notes) - length kept)%nat
            with (S (length notes - length kept)) by (simpl; lia).
          lia. }
        rewrite Hnum, <- app_assoc. reflexivity.
      * apply sublist_cons, Hsub.
      * intros Hf. apply Hall. destruct responses as [|r rs]; simpl in *.
        -- rewrite take_nil. constructor.
        -- apply Forall_cons in Hf as [_ Hf]. exact Hf.
      * intros [|i] n Hi Hri; simpl in Hi.
        -- destruct responses as [|r rs]; [discriminate|]. simpl in Hri, Hr. congruence.
        -- apply (Hkept i n Hi). destruct responses as [|r rs]; [discriminate|exact Hri].
    + destruct (IH (tail responses) uploaded (unuploaded ++ [note])
                   (calls ++ [(ToLatLon (m_point note), m_note note)]) Hu)
        as (kept & Hrun & Hsub & Hall & Hkept).
      exists (note :: kept). rewrite Hrun. split; [|split; [|split]].
      * rewrite <- !app_assoc. reflexivity.
      * apply sublist_skip, Hsub.
      * intros Hf. destruct responses as [|r rs]; [discriminate|]. simpl in Hr, Hf.
        apply Forall_cons in Hf as [Hf _]. congruence.
      * intros [|i] n Hi Hri; simpl in Hi.
        -- injection Hi as <-. left.
        -- right. apply (Hkept i n Hi).
           destruct responses as [|r rs]; [discriminate|exact Hri].
Qed.


(** X25.  The upload task loses no note and sends none twice.  It calls the
    server once for every note of the vector, in order; the notes left in
    the vector afterwards are a subsequence of the notes before, among them
    every note whose call threw; the counter has grown, modulo [2^32], by
    the number of notes no longer in the vector; and when no call throws
    the vector ends up empty. *)
Theorem Upload_task_conserves (responses : list bool) (n : Notes) :
  0 <= m_uploadedNotes n < 2 ^ 32 ->
  let n' := fst (Upload_task responses n) in
  snd (Upload_task responses n) =
    map (fun note => (ToLatLon (m_point note), m_note note)) (m_notes n) /\
  sublist (m_notes n') (m_notes n) /\
  m_uploadedNotes n' =
    (m_uploadedNotes n + Z.of_nat (length (m_notes n) - length (m_notes n'))) mod 2 ^ 32 /\
  (forall i note, m_notes n !! i = Some note -> responses !! i = Some false ->
                  note ∈ m_notes n') /\
  (Forall (fun r => r = true) (take (length (m_notes n)) responses) -> m_notes n' = []) /\
  m_fileName n' = m_fileName n.
Proof.
  intros Hu n'. unfold n', Upload_task, MoveNoteVectorAtomicly.
  destruct (upload_notes_spec (m_notes n) responses (m_uploadedNotes n) [] [] Hu)
    as (kept & Hrun & Hsub & Hall & Hkept).
  rewrite Hrun. simpl. auto 10.
Qed.
End NotesFacts.

(** * Scenarios on the small map *)

Lemma measure_swo {A : Type} (key : A -> Z) :
  StrictWeakOrder (fun a b => key a <? key b).
Proof.
  split.
  - intros x _. apply Z.ltb_irrefl.
  - intros x y z _ _ _. rewrite !Z.ltb_lt. lia.
  - intros x y z _ _ _. rewrite !Z.ltb_ge. lia.
Qed.

Section Scenarios.
Import Toy.

(** The road dominates the cafe (higher rank, nearer to the viewport centre
    and to the user), both are left after the removal of linear duplicates,
    and the road is emitted first. *)
Lemma FlushResults_ranker_monotone_witness :
  In cafe_road (map m_val (remove_duplicating_linear promoted)) /\
  In cafe (map m_val (remove_duplicating_linear promoted)) /\
  dominates cafe_road cafe /\
  exists emitted w',
    FlushResults matched_world = (Done tt, w') /\
    res w' = res matched_world ++ map GenerateFinalResult emitted /\
    precedes cafe_road cafe emitted /\
    (In cafe emitted -> In cafe_road emitted) /\
    (m_cancel (query matched_world) = false ->
     Forall (fun s => s = false) (cancelSignals matched_world) ->
     In cafe_road emitted /\ In cafe emitted).
Proof.
  assert (Hsurv : map m_val (remove_duplicating_linear promoted) = [cafe_road; cafe; capital])
    by reflexivity.
  assert (HA : In cafe_road (map m_val (remove_duplicating_linear promoted))).
  { rewrite Hsurv. left. reflexivity. }
  assert (HB : In cafe (map m_val (remove_duplicating_linear promoted))).
  { rewrite Hsurv. right. left. reflexivity. }
  assert (Hdom : dominates cafe_road cafe).
  { split.
    - intros less [<-|[<-|[<-|[]]]]; reflexivity.
    - exists LessRank. split; [left; reflexivity|reflexivity]. }
  split; [exact HA|]. split; [exact HB|]. split; [exact Hdom|].
  apply (FlushResults_ranker_monotone matched_world promoted cafe_road cafe).
  - exact (measure_swo (on_feature key_rank)).
  - exact (measure_swo (on_feature key_viewport)).
  - exact (measure_swo (on_feature key_position)).
  - reflexivity.
  - exact HA.
  - exact HB.
  - exact Hdom.
Defined.

(** With the cancel flag clear the filter of the world tile admits offset 7,
    which no cache entry holds. *)
Lemma world_tiles_bypass_filter_witness :
  (exists filter, SearchFeatures_filter (query near_world) 0 world_value = Some filter /\
                  fst (filter 7 near_world) = Done true) /\
  (forall q' mwm, MwmLock_GetValue mwm = Some world_value ->
                  UpdateViewportOffsets_mwm q' mwm = []).
Proof.
  apply (world_tiles_bypass_filter (query near_world) 0 world_value [] 7 near_world).
  - reflexivity.
  - reflexivity.
Defined.

(** C2 as stated fails: with the cancel flag set, the filter of the world
    tile does not admit the offset, it throws. *)
Lemma world_tile_filter_throws_when_cancelled :
  header_GetType world_value = world /\
  exists filter, SearchFeatures_filter (query cancelled_world) 0 world_value = Some filter /\
                 fst (filter 7 cancelled_world) = CancelException /\
                 fst (filter 7 cancelled_world) <> Done true.
Proof.
  split; [reflexivity|]. eexists. split; [reflexivity|].
  split; [reflexivity|discriminate].
Qed.

(** [SetViewport] on the country tile rebuilds the cache before it returns. *)
Lemma SetViewport_rebuilds_cache_witness :
  RectD_ne (m_viewport (query far_world)) (0, 0, 4, 4) = true /\
  fst (SetViewport (0, 0, 4, 4) far_world) = Done tt /\
  m_offsetsInViewport (query near_world) = [[]; [5; 5; 6]] /\
  m_bOffsetsCacheIsValid (query near_world) = true.
Proof.
  assert (Hne : RectD_ne (m_viewport (query far_world)) (0, 0, 4, 4) = true)
    by reflexivity.
  destruct (@SetViewport_rebuilds_cache geometry text tiles ranking
              (0, 0, 4, 4) far_world index Hne eq_refl)
    as (Hdone & _ & _ & Hcache & Hvalid & _).
  split; [exact Hne|]. split; [exact Hdone|]. split; [|exact Hvalid].
  unfold near_world. rewrite Hcache. reflexivity.
Defined.

(** C4 as stated fails: [SetViewport] with a different rectangle changes the
    cache itself, and a [Search] that finds the cache cleared leaves it so. *)
Lemma SetViewport_is_not_lazy :
  RectD_ne (m_viewport (query far_world)) (0, 0, 4, 4) = true /\
  m_offsetsInViewport (query far_world) = [[]; []] /\
  m_offsetsInViewport (query (snd (SetViewport (0, 0, 4, 4) far_world))) = [[]; [5; 5; 6]] /\
  m_bOffsetsCacheIsValid (query (snd (ClearCache near_world))) = false /\
  m_offsetsInViewport
    (query (snd (Search "caf" 10 (snd (ClearCache near_world))))) = [] /\
  m_bOffsetsCacheIsValid
    (query (snd (Search "caf" 10 (snd (ClearCache near_world))))) = false.
Proof. repeat split; reflexivity. Qed.

(** C5 as stated fails: the road is reported by both cell intervals and its
    offset stays twice in the entry of the country tile. *)
Lemma UpdateViewportOffsets_keeps_duplicates :
  m_offsetsInViewport (query (snd (UpdateViewportOffsets near_world))) = [[]; [5; 5; 6]] /\
  ~ Forall (StronglySorted Z.lt)
      (m_offsetsInViewport (query (snd (UpdateViewportOffsets near_world)))).
Proof.
  assert (He : m_offsetsInViewport (query (snd (UpdateViewportOffsets near_world)))
               = [[]; [5; 5; 6]]) by reflexivity.
  split; [exact He|]. rewrite He. intros Hall.
  apply Forall_cons in Hall as [_ Hall]. apply Forall_cons in Hall as [Hs _].
  apply StronglySorted_inv in Hs as [_ Hlt].
  apply Forall_cons in Hlt as [Hlt _]. lia.
Qed.

(** The entry of the country tile rearranges what the index reported. *)
Lemma UpdateViewportOffsets_sorted_witness :
  exists entry,
    m_offsetsInViewport (query (snd (UpdateViewportOffsets near_world))) !! 1%nat
      = Some entry /\
    Permutation entry (reported_offsets (query near_world) country_value).
Proof.
  apply (proj2 (UpdateViewportOffsets_sorted near_world) index 1%nat
               country_tile country_value);
    reflexivity.
Defined.

(** The query "caf" does not end on a delimiter: its only token becomes the
    prefix. *)
Lemma Search_prefix_rule_witness :
  exists rest,
    SplitUniString (NormalizeAndSimplifyString "caf") Delimiters =
      rest ++ [m_prefix (query (snd (Search "caf" 10 near_world)))] /\
    m_tokens (query (snd (Search "caf" 10 near_world))) = cap_tokens rest.
Proof.
  apply (proj2 (Search_prefix_rule "caf" 10 near_world)).
  assert (Hp : m_prefix (query (snd (Search "caf" 10 near_world))) = codes "caf")
    by reflexivity.
  rewrite Hp. discriminate.
Defined.

(** C6 as stated fails: with the flag set before [Search] is entered the
    search still emits the feature results. *)
Lemma Search_ignores_earlier_cancel :
  m_cancel (query cancelled_world) = true /\
  fst (Search "caf" 10 cancelled_world) = Done tt /\
  In (GenerateFinalResult cafe_road) (res (snd (Search "caf" 10 cancelled_world))).
Proof.
  split; [reflexivity|]. split; [reflexivity|].
  assert (Hres : res (snd (Search "caf" 10 cancelled_world)) =
                 [PreResult2_suggest "cafe" 3; cafe_road; capital; cafe])
    by reflexivity.
  rewrite Hres. right. left. reflexivity.
Qed.

Lemma queues_hold_each_id_once_witness :
  queues_ok 10 (initialized "caf" 10 near_world) /\
  queues_ok 10 (snd (Search "caf" 10 near_world)).
Proof.
  destruct (queues_hold_each_id_once "caf" 10 near_world) as (Hinit & _ & _ & _ & Hend).
  - lia.
  - split; assumption.
Defined.

Lemma FeaturesFilter_polls_cancel_witness :
  cancel_observed cancelled_world /\
  fst (FeaturesFilter [5; 5; 6] true 7 cancelled_world) = CancelException.
Proof.
  assert (Hc : cancel_observed cancelled_world) by (left; reflexivity).
  split; [exact Hc|].
  exact (proj1 (FeaturesFilter_polls_cancel [5; 5; 6] true 7 cancelled_world Hc)).
Defined.

(** C9 as stated fails: for the query "caf" the entry "cafe" is suggested,
    though the entry is not a prefix of the target "caf"; and a single token
    with an empty prefix is matched as it is, without a trailing space. *)
Lemma SuggestStrings_entry_longer_than_target :
  m_tokens (query (initialized "caf" 10 near_world)) = [] /\
  m_prefix (query (initialized "caf" 10 near_world)) = codes "caf" /\
  In (GenerateFinalResult (PreResult2_suggest "cafe" 3))
     (res (snd (SuggestStrings (initialized "caf" 10 near_world)))) /\
  ~ (exists rest, codes "caf" = codes "cafe" ++ rest) /\
  suggest_target [codes "cafe"] [] = Some (codes "cafe") /\
  codes "cafe" <> codes "cafe" ++ [32] ++ [].
Proof.
  split; [reflexivity|]. split; [reflexivity|]. split; [left; reflexivity|].
  split; [intros [rest Hr]; discriminate|].
  split; [reflexivity|]. discriminate.
Qed.

(** A feature whose only name is in a language outside the priorities:
    the sentinel penalty and the empty name. *)
Lemma GetBestMatchName_worst_sentinel_witness :
  GetBestMatchName
    {| scorer_langPriorities := [[1]; [2; 1]; [0]]; scorer_keywords := [];
       scorer_prefix := codes "caf" |}
    [(9, "Kahvila"%string)] EmptyString = (uint32_max, EmptyString).
Proof.
  refine (proj1 (proj2 (GetBestMatchName_worst_sentinel
            {| scorer_langPriorities := [[1]; [2; 1]; [0]]; scorer_keywords := [];
               scorer_prefix := codes "caf" |}
            [(9, "Kahvila"%string)] EmptyString) _)).
  intros lang name [Heq|[]]. injection Heq as <- <-. vm_compute. discriminate.
Defined.
End Scenarios.

(** * Further scenarios on the small map *)

Section MoreScenarios.
Import Toy.

Lemma near_world_consistent : cache_consistent (query near_world).
Proof.
  intros _. split; [reflexivity|]. exists index. split; reflexivity.
Qed.

Lemma index_tries_well_formed : tries_well_formed index.
Proof.
  intros mwm pMwm edges [<-|[<-|[]]]; simpl; intros [= <-]; simpl; intros [= <-].
  - split; [repeat constructor; discriminate|right; left; reflexivity].
  - split; [repeat constructor; discriminate|right; left; reflexivity].
Qed.

Lemma near_world_searchable : searchable (query near_world).
Proof.
  exists index. split; [reflexivity|]. split; [reflexivity|].
  exact index_tries_well_formed.
Qed.

(** The cache built for the near viewport is still the one of the viewport
    after a search. *)
Lemma cache_stays_consistent_witness :
  cache_consistent (query near_world) /\
  cache_consistent (query (snd (Search "caf" 10 near_world))).
Proof.
  split; [exact near_world_consistent|].
  apply (proj2 (proj2 (proj2 (cache_stays_consistent near_world near_world_consistent)))).
Defined.

(** A second [SetViewport] with the near rectangle changes nothing. *)
Lemma SetViewport_idempotent_witness :
  SetViewport (0, 0, 4, 4) near_world = (Done tt, near_world).
Proof.
  apply (@SetViewport_idempotent geometry text tiles ranking (0, 0, 4, 4) far_world index);
    reflexivity.
Defined.

(** After [ClearCache] the next [SetViewport] with the same rectangle makes
    the cache valid again. *)
Lemma ClearCache_then_SetViewport_witness :
  m_bOffsetsCacheIsValid (query (snd (ClearCache near_world))) = false /\
  m_bOffsetsCacheIsValid
    (query (snd (SetViewport (m_viewport (query near_world))
                   (snd (ClearCache near_world))))) = true.
Proof.
  destruct (@ClearCache_then_SetViewport geometry text tiles ranking near_world index eq_refl)
    as (_ & H1 & _ & _ & _ & H2 & _).
  split; [exact H1|exact H2].
Defined.

(** The cache of the small map has one entry per tile. *)
Lemma UpdateViewportOffsets_entries_witness :
  fst (UpdateViewportOffsets near_world) = Done tt /\
  length (m_offsetsInViewport (query (snd (UpdateViewportOffsets near_world)))) = 2%nat.
Proof.
  destruct (@UpdateViewportOffsets_entries geometry text tiles ranking near_world index eq_refl)
    as (H1 & _ & H2 & _).
  split; [exact H1|exact H2].
Defined.

(** Three index arrays of the same length, in ascending order. *)
Lemma IndexedValue_less_total_order_witness :
  IndexedValue_less {| m_ind := [0; 1; 2]; m_val := cafe |}
                    {| m_ind := [1; 1; 1]; m_val := capital |} = true.
Proof.
  apply (proj1 (proj2 (proj2
           (@IndexedValue_less_total_order geometry tiles
              {| m_ind := [0; 1; 2]; m_val := cafe |}
              {| m_ind := [0; 2; 2]; m_val := cafe_road |}
              {| m_ind := [1; 1; 1]; m_val := capital |} eq_refl eq_refl))));
    reflexivity.
Defined.

(** By rank the capital comes first and the road second. *)
Lemma rank_by_positions_witness :
  exists kx ky,
    m_ind (SetIndex 0 0 (IndexedValue_ctor capital)) !! 0%nat = Some kx /\
    m_ind (SetIndex 0 1 (IndexedValue_ctor cafe_road)) !! 0%nat = Some ky /\
    kx < ky.
Proof.
  assert (Hr : rank_by 0 LessRank promoted =
               [SetIndex 0 0 (IndexedValue_ctor capital);
                SetIndex 0 1 (IndexedValue_ctor cafe_road);
                SetIndex 0 2 (IndexedValue_ctor cafe)]) by reflexivity.
  destruct (@rank_by_positions geometry tiles 0%nat LessRank promoted
              (SetIndex 0 0 (IndexedValue_ctor capital))
              (SetIndex 0 1 (IndexedValue_ctor cafe_road)))
    as (kx & ky & Hx & Hy & _ & Hlt & _).
  - exact (measure_swo (on_feature key_rank)).
  - unfold m_qCount. lia.
  - repeat constructor.
  - rewrite Hr. left.
  - rewrite Hr. right. left.
  - exists kx, ky. split; [exact Hx|]. split; [exact Hy|].
    apply Hlt. reflexivity.
Defined.

(** The three promoted candidates are all arranged. *)
Lemma combined_order_arrangement_witness :
  length (combined_order promoted) = 3%nat.
Proof.
  destruct (@combined_order_arrangement geometry text tiles ranking promoted)
    as (_ & Hlen & _).
  - repeat constructor.
  - exact Hlen.
Defined.

(** The search for "caf" on the small map. *)
Lemma Search_sink_witness :
  exists sugg emitted,
    res (snd (Search "caf" 10 near_world)) =
      res near_world ++
      latlon_result (Search_Initialize "caf" 10 (query near_world)) ++
      sugg ++ map GenerateFinalResult emitted /\
    NoDup (map feature_id emitted) /\
    Z.of_nat (length emitted) <= 60.
Proof.
  destruct (Search_sink "caf" 10 near_world) as (sugg & emitted & H1 & _ & _ & H2 & H3 & _).
  - lia.
  - exists sugg, emitted. split; [exact H1|]. split; [exact H2|exact H3].
Defined.

(** The flag is set while the feature search runs: the search throws, and
    the sink holds the suggestion only. *)
Lemma Search_throws_only_when_cancelled_witness :
  m_cancel (query (snd (Search "caf" 10 interrupted_world))) = true /\
  res (snd (Search "caf" 10 interrupted_world)) =
    res interrupted_world ++
    latlon_result (Search_Initialize "caf" 10 (query interrupted_world)) ++
    suggestions (Search_Initialize "caf" 10 (query interrupted_world)).
Proof.
  destruct (Search_throws_only_when_cancelled "caf" 10 interrupted_world)
    as (_ & H1 & H2).
  - reflexivity.
  - split; [exact H1|exact H2].
Defined.

Lemma Search_never_faults_witness :
  fst (Search "caf" 10 near_world) <> Fault.
Proof.
  apply (Search_never_faults "caf" 10 near_world). exact near_world_searchable.
Defined.

Lemma Search_undisturbed_witness :
  fst (Search "caf" 10 near_world) = Done tt /\
  quiet (snd (Search "caf" 10 near_world)).
Proof.
  destruct (Search_undisturbed "caf" 10 near_world) as (H1 & H2 & _).
  - exact near_world_searchable.
  - constructor.
  - split; [exact H1|exact H2].
Defined.

(** Every hit the feature search queues for "caf" passes the viewport. *)
Lemma SearchFeatures_hits_within_viewport_witness :
  Forall (fun qu => Forall (within_viewport (query (initialized "caf" 10 near_world)))
                           (q_queue qu))
         (m_results (query (snd (SearchFeatures (initialized "caf" 10 near_world))))).
Proof.
  apply Forall_forall. intros qu Hqu. apply Forall_forall. intros r Hr.
  revert qu r Hqu Hr.
  apply (SearchFeatures_hits_within_viewport (initialized "caf" 10 near_world)).
  - reflexivity.
  - intros _. split; [reflexivity|]. exists index. split; reflexivity.
  - intros qu r Hqu Hr. simpl in Hqu.
    repeat (apply elem_of_cons in Hqu as [->|Hqu]; [inversion Hr|]).
    inversion Hqu.
Defined.

(** Without an index the search for "caf" adds the suggestion and then
    runs into the null index pointer. *)
Lemma Search_without_index_witness :
  fst (Search "caf" 10 no_index_world) = Fault /\
  res (snd (Search "caf" 10 no_index_world)) = [PreResult2_suggest "cafe" 3].
Proof.
  destruct (Search_without_index "caf" 10 no_index_world) as (_ & H1 & H2).
  - reflexivity.
  - constructor.
  - split; [exact H1|]. rewrite H2. reflexivity.
Defined.

(** The road is the first hit of the country tile and gets its country
    name; the cafe is the second and gets none. *)
Lemma PreResult2Maker_country_name_once_witness :
  exists m_features1 m_features2,
    PreResult2Maker index ∅ road_hit (initialized "caf" 10 near_world) =
      (Done (Some cafe_road, m_features1), initialized "caf" 10 near_world) /\
    PreResult2Maker index m_features1 cafe_hit (initialized "caf" 10 near_world) =
      (Done (Some cafe, m_features2), initialized "caf" 10 near_world).
Proof.
  destruct (@PreResult2Maker_country_name_once geometry text tiles ranking
              index ∅ road_hit cafe_hit (initialized "caf" 10 near_world)
              country_tile country_value
              {| scorer_langPriorities := [[1]; [2; 1]; [0]]; scorer_keywords := [];
                 scorer_prefix := codes "caf" |}
              eq_refl eq_refl eq_refl (lookup_empty _) eq_refl) as [H1 H2].
  eexists _, _. split; [exact H1|exact H2].
Defined.
(** After [ClearCache] the cache has no entry for the country tile, whose
    trie has an edge for English: the tile's turn indexes out of range. *)
Lemma SearchFeatures_needs_cache_entry_witness :
  fst (SearchFeatures_mwm [] [1; 2; 1; 0] true 1 country_tile
         (snd (ClearCache near_world))) = Fault.
Proof.
  refine (@SearchFeatures_needs_cache_entry geometry text tiles ranking
            [] [1; 2; 1; 0] 1%nat country_tile country_value
            [ {| m_str := [1]; GoToEdge := [(5, 20, (2, 2)); (6, 10, (3, 3))] |};
              {| m_str := [128]; GoToEdge := [] |} ]
            (snd (ClearCache near_world)) eq_refl eq_refl eq_refl _ _ eq_refl).
  - repeat constructor; discriminate.
  - left. exists 1. split; [reflexivity|]. split; [reflexivity|]. left. reflexivity.
Defined.
End MoreScenarios.

(** * Scenarios on a small notebook *)

Section NotesScenarios.
Import Toy ToyNotes editor.

(** The notebook with the tea and the bar reads back from its document. *)
Lemma SaveToXml_LoadFromXml_witness :
  LoadFromXml (SaveToXml [tea; bar] [] 49) [] 0 = (true, [tea; bar], 49).
Proof.
  apply (@SaveToXml_LoadFromXml geometry notes_lib [tea; bar] [] 49 0).
  - reflexivity.
  - lia.
  - repeat constructor.
Defined.

(** The notebook saved to an empty disk is what a new notes object of the
    same file name loads. *)
Lemma Save_then_Load_witness :
  Load {| m_fileName := "notes.xml"; m_notes := []; m_uploadedNotes := 0 |}
       (snd (Save notebook empty_disk)) = (true, notebook).
Proof.
  apply (@Save_then_Load geometry notes_lib notebook
           {| m_fileName := "notes.xml"; m_notes := []; m_uploadedNotes := 0 |} empty_disk).
  - reflexivity.
  - reflexivity.
  - reflexivity.
  - reflexivity.
  - simpl. lia.
  - repeat constructor.
Defined.

(** The server takes the tea and refuses the bar: the bar stays. *)
Lemma Upload_task_conserves_witness :
  bar ∈ m_notes (fst (Upload_task [true; false] notebook)).
Proof.
  destruct (@Upload_task_conserves geometry notes_lib [true; false] notebook)
    as (_ & _ & _ & H & _).
  - simpl. lia.
  - apply (H 1%nat bar); reflexivity.
Defined.
End NotesScenarios.

Section FilterScenario.
Import Toy.

(** The filter of the country tile and the road's offset. *)
Lemma FeaturesFilter_membership_witness :
  exists pass,
    fst (FeaturesFilter (UpdateViewportOffsets_mwm (query near_world) country_tile)
           false 5 near_world) = Done pass /\
    (pass = true <-> In 5 (UpdateViewportOffsets_mwm (query near_world) country_tile)).
Proof.
  apply (@FeaturesFilter_membership geometry text tiles ranking
           (query near_world) country_tile 5 near_world).
  - reflexivity.
  - discriminate.
Defined.
End FilterScenario.
